(** * Track generator (src/index.py, class [TrackGenerator])

    A shallow embedding of the path-generation core of the repository and
    the proofs of its specification.

    Numbers.  Python's numbers are idealised as exact rationals ([Q]):
    the angles, the coordinates and the step length live in [Q], with
    [0.3], [0.2], [0.5] and [0.85] read as the decimal fractions they
    spell.  The arithmetic operations return the fraction in lowest
    terms ([Qred]), so that a run of the generator can be evaluated.
    Integers that the code keeps as [int] (countdowns, indices,
    [num_points]) live in [Z].  Every decision the code takes is a
    comparison of such numbers, and it is transcribed as it is written.

    Rounding.  Python's [float] rounds the result of every operation.
    The methods whose loops depend on it ([normalize_angle] and its
    callers [would_cause_backtrack] and [get_safe_turn_angle]) are
    embedded a second time over a number format ([Numbers.Format], module
    [Rounded]): the exact numbers are one format and IEEE 754 binary64
    ([Double.round]) is another, and what is proved of every format holds
    of both.  The further properties of the generator are stated on the
    tests and the counters of the code, so that they do not depend on
    what an operation rounds.

    Effects.  Every method of the class mutates [self]; a method is
    embedded as a computation in a state monad over the record of the
    instance attributes.  The pseudo-random stream [self.random] is part
    of that record: a draw returns a value and the next stream state.

    Library code.  [random.Random], [math.radians], [math.cos],
    [math.sin] and [numpy.mean] are not code of the repository.  The
    random source is an interface ([Random.Source]) carrying the
    documented contract of its methods; the three [math] functions are an
    interface without contract ([math.Functions]); [numpy.mean] is the
    arithmetic mean.

    The application.  The handlers of the class [TrackApp], which drive
    the generator from the window, are embedded in the module [App] as
    computations that may raise, over the attributes of the application;
    the calls to Matplotlib and Tk are recorded, not interpreted. *)

From Stdlib Require Import ZArith QArith Qabs Qround Qpower.
From Stdlib Require Import List Sorted Bool Lia Lqa.
From Stdlib Require Import Floats.
From Stdlib Require Ascii String.
Import ListNotations.
Import Ascii.AsciiSyntax String.StringSyntax.
Delimit Scope string_scope with string.

Local Open Scope Z_scope.
Local Open Scope Q_scope.

(** ** Python numbers *)

(** The arithmetic of the idealised numbers: exact, in lowest terms.
    Division by zero, which raises in Python, gives 0 here; the two
    divisions of the source never divide by zero (lemmas
    [last_n_length] and [start_big_turn_total]). *)
Definition padd (x y : Q) : Q := Qred (x + y).
Definition psub (x y : Q) : Q := Qred (x - y).
Definition pmul (x y : Q) : Q := Qred (x * y).
Definition pdiv (x y : Q) : Q := Qred (x / y).

Arguments padd : simpl never.
Arguments psub : simpl never.
Arguments pmul : simpl never.
Arguments pdiv : simpl never.

Infix "+!" := padd (at level 50, left associativity).
Infix "-!" := psub (at level 50, left associativity).
Infix "*!" := pmul (at level 40, left associativity).
Infix "/!" := pdiv (at level 40, left associativity).

(** [x < y] as a boolean test. *)
Definition Qltb (x y : Q) : bool :=
  match x ?= y with Lt => true | _ => false end.

(** [x > y] as a boolean test. *)
Definition Qgtb (x y : Q) : bool := Qltb y x.

Infix "<?" := Qltb (at level 70, no associativity) : Q_scope.
Infix ">?" := Qgtb (at level 70, no associativity) : Q_scope.

(** ** Python lists *)

(** [l.append(x)] *)
Definition append {A : Type} (l : list A) (x : A) : list A := l ++ [x].

(** [l[-n:]]: the last [n] elements, the whole list when it is shorter. *)
Definition last_n {A : Type} (n : nat) (l : list A) : list A :=
  skipn (length l - n) l.

(** [len(l)] as a Python integer. *)
Definition len {A : Type} (l : list A) : Z := Z.of_nat (length l).

(** [numpy.mean] of a list of numbers: the sum divided by the count. *)
Definition np_mean (l : list Q) : Q :=
  fold_left padd l 0 /! inject_Z (len l).

Arguments np_mean : simpl never.

(** ** A [while] loop with a bound on its iterations

    [while cond(x): x = body(x)], cut after [fuel] tests of the condition;
    [None] when the bound is reached before the condition fails. *)
Fixpoint while_loop {A : Type} (fuel : nat) (cond : A -> bool)
    (body : A -> A) (x : A) : option A :=
  match fuel with
  | O => None
  | S fuel' =>
      if cond x then while_loop fuel' cond body (body x) else Some x
  end.

(** ** The library interfaces *)

Module Random.

(** [random.Random]: [G] is the state of the stream, [Seed] what a
    stream can be seeded with.  [Random seed] is the constructor,
    [random] draws a fraction, [randint a b] an integer.  The laws are
    the documented contract: [random()] lies in [[0, 1)] and
    [randint(a, b)] returns [N] with [a <= N <= b]. *)
Class Source (Seed G : Type) : Type := {
  Random : Seed -> G;
  random : G -> Q * G;
  randint : Z -> Z -> G -> Z * G;
  random_range : forall g, 0 <= fst (random g) /\ fst (random g) < 1;
  randint_range : forall a b g,
    (a <= b)%Z -> (a <= fst (randint a b g) <= b)%Z
}.

(** [uniform(a, b)] is [a + (b - a) * self.random()]. *)
Definition uniform {Seed G : Type} `{Source Seed G} (a b : Q) (g : G)
    : Q * G :=
  let (r, g') := random g in (a +! (b -! a) *! r, g').

End Random.

Module math.

(** [math.radians], [math.cos] and [math.sin], on idealised numbers. *)
Class Functions : Type := {
  radians : Q -> Q;
  cos : Q -> Q;
  sin : Q -> Q
}.

End math.

(** ** Number formats

    Python's [float] is IEEE 754 binary64: an operation returns the exact
    result rounded to the nearest representable number.  The exact numbers
    of the embedding are one format (nothing is rounded), binary64 is
    another.  A format is its rounding function; the three laws are what
    the loops of [normalize_angle] need: rounding is monotone, it leaves
    the integers below [2^53] as they are, and below [2^62] it moves a
    number by 256 at most. *)

Module Numbers.

Class Format : Type := {
  rnd : Q -> Q;
  rnd_monotone : forall x y : Q, x <= y -> rnd x <= rnd y;
  rnd_integer :
    forall n : Z, (Z.abs n < 2 ^ 53)%Z -> rnd (inject_Z n) == inject_Z n;
  rnd_error :
    forall x : Q, Qabs x < inject_Z (2 ^ 62) -> Qabs (rnd x - x) <= 256
}.

End Numbers.

(** ** Outcome of a call that may raise *)

Inductive exception : Type :=
| ValueError
| TypeError.

Inductive result (A : Type) : Type :=
| Returned (a : A)
| Raised (e : exception).

Arguments Returned {A} a.
Arguments Raised {A} e.

(** ** normalize_angle

    The method reads no attribute of [self]: it is a function of its
    argument.  Its two loops are run with a bound on their iterations in
    [normalize_angle_fuel]; [normalize_angle] gives them the bound
    [normalize_bound], which is never reached (lemma
    [normalize_angle_fuel_enough]). *)

Definition normalize_angle_fuel (fuel : nat) (angle : Q) : option Q :=
  match while_loop fuel (fun a => a >? 180) (fun a => a -! 360) angle with
  | Some angle' =>
      while_loop fuel (fun a => a <? -180) (fun a => a +! 360) angle'
  | None => None
  end.

Definition normalize_bound (angle : Q) : nat :=
  S (S (Z.to_nat (Z.abs (Qfloor angle) / 360))).

Definition normalize_angle (angle : Q) : Q :=
  match normalize_angle_fuel (normalize_bound angle) angle with
  | Some a => a
  | None => angle
  end.

Arguments normalize_angle : simpl never.

(** ** The generator *)

Section Generator.

Context {Seed G : Type} `{RS : Random.Source Seed G} `{MF : math.Functions}.

(** The instance attributes, as [__init__] creates them. *)
Record TrackGenerator : Type := mkTrackGenerator {
  seed : Seed;
  random : G;
  step_length : Q;
  num_points : Z;
  current_position : Q * Q;
  track_points : list (Q * Q);
  current_direction_angle : Q;
  target_direction_angle : Q;
  previous_angles : list Q;
  initial_direction : Q;
  cumulative_turn : Q;
  steps_until_next_turn : Z;
  turn_indices : list Z;
  turning : bool;
  turn_steps_remaining : Z;
  turn_total_steps : Z;
  turn_angle_increment : Q;
  max_turn_angle : Q;
  max_cumulative_turn : Q;
  backtrack_threshold : Q
}.

(** *** Attribute assignment: [self.f = v] *)

Definition set_random (v : G) (s : TrackGenerator) : TrackGenerator :=
  mkTrackGenerator (seed s) v (step_length s) (num_points s)
    (current_position s) (track_points s) (current_direction_angle s)
    (target_direction_angle s) (previous_angles s) (initial_direction s)
    (cumulative_turn s) (steps_until_next_turn s) (turn_indices s)
    (turning s) (turn_steps_remaining s) (turn_total_steps s)
    (turn_angle_increment s) (max_turn_angle s) (max_cumulative_turn s)
    (backtrack_threshold s).

Definition set_current_position (v : Q * Q) (s : TrackGenerator)
    : TrackGenerator :=
  mkTrackGenerator (seed s) (random s) (step_length s) (num_points s)
    v (track_points s) (current_direction_angle s)
    (target_direction_angle s) (previous_angles s) (initial_direction s)
    (cumulative_turn s) (steps_until_next_turn s) (turn_indices s)
    (turning s) (turn_steps_remaining s) (turn_total_steps s)
    (turn_angle_increment s) (max_turn_angle s) (max_cumulative_turn s)
    (backtrack_threshold s).

Definition set_track_points (v : list (Q * Q)) (s : TrackGenerator)
    : TrackGenerator :=
  mkTrackGenerator (seed s) (random s) (step_length s) (num_points s)
    (current_position s) v (current_direction_angle s)
    (target_direction_angle s) (previous_angles s) (initial_direction s)
    (cumulative_turn s) (steps_until_next_turn s) (turn_indices s)
    (turning s) (turn_steps_remaining s) (turn_total_steps s)
    (turn_angle_increment s) (max_turn_angle s) (max_cumulative_turn s)
    (backtrack_threshold s).

Definition set_current_direction_angle (v : Q) (s : TrackGenerator)
    : TrackGenerator :=
  mkTrackGenerator (seed s) (random s) (step_length s) (num_points s)
    (current_position s) (track_points s) v
    (target_direction_angle s) (previous_angles s) (initial_direction s)
    (cumulative_turn s) (steps_until_next_turn s) (turn_indices s)
    (turning s) (turn_steps_remaining s) (turn_total_steps s)
    (turn_angle_increment s) (max_turn_angle s) (max_cumulative_turn s)
    (backtrack_threshold s).

Definition set_target_direction_angle (v : Q) (s : TrackGenerator)
    : TrackGenerator :=
  mkTrackGenerator (seed s) (random s) (step_length s) (num_points s)
    (current_position s) (track_points s) (current_direction_angle s)
    v (previous_angles s) (initial_direction s)
    (cumulative_turn s) (steps_until_next_turn s) (turn_indices s)
    (turning s) (turn_steps_remaining s) (turn_total_steps s)
    (turn_angle_increment s) (max_turn_angle s) (max_cumulative_turn s)
    (backtrack_threshold s).

Definition set_previous_angles (v : list Q) (s : TrackGenerator)
    : TrackGenerator :=
  mkTrackGenerator (seed s) (random s) (step_length s) (num_points s)
    (current_position s) (track_points s) (current_direction_angle s)
    (target_direction_angle s) v (initial_direction s)
    (cumulative_turn s) (steps_until_next_turn s) (turn_indices s)
    (turning s) (turn_steps_remaining s) (turn_total_steps s)
    (turn_angle_increment s) (max_turn_angle s) (max_cumulative_turn s)
    (backtrack_threshold s).

Definition set_steps_until_next_turn (v : Z) (s : TrackGenerator)
    : TrackGenerator :=
  mkTrackGenerator (seed s) (random s) (step_length s) (num_points s)
    (current_position s) (track_points s) (current_direction_angle s)
    (target_direction_angle s) (previous_angles s) (initial_direction s)
    (cumulative_turn s) v (turn_indices s)
    (turning s) (turn_steps_remaining s) (turn_total_steps s)
    (turn_angle_increment s) (max_turn_angle s) (max_cumulative_turn s)
    (backtrack_threshold s).

Definition set_turn_indices (v : list Z) (s : TrackGenerator)
    : TrackGenerator :=
  mkTrackGenerator (seed s) (random s) (step_length s) (num_points s)
    (current_position s) (track_points s) (current_direction_angle s)
    (target_direction_angle s) (previous_angles s) (initial_direction s)
    (cumulative_turn s) (steps_until_next_turn s) v
    (turning s) (turn_steps_remaining s) (turn_total_steps s)
    (turn_angle_increment s) (max_turn_angle s) (max_cumulative_turn s)
    (backtrack_threshold s).

Definition set_turning (v : bool) (s : TrackGenerator) : TrackGenerator :=
  mkTrackGenerator (seed s) (random s) (step_length s) (num_points s)
    (current_position s) (track_points s) (current_direction_angle s)
    (target_direction_angle s) (previous_angles s) (initial_direction s)
    (cumulative_turn s) (steps_until_next_turn s) (turn_indices s)
    v (turn_steps_remaining s) (turn_total_steps s)
    (turn_angle_increment s) (max_turn_angle s) (max_cumulative_turn s)
    (backtrack_threshold s).

Definition set_turn_steps_remaining (v : Z) (s : TrackGenerator)
    : TrackGenerator :=
  mkTrackGenerator (seed s) (random s) (step_length s) (num_points s)
    (current_position s) (track_points s) (current_direction_angle s)
    (target_direction_angle s) (previous_angles s) (initial_direction s)
    (cumulative_turn s) (steps_until_next_turn s) (turn_indices s)
    (turning s) v (turn_total_steps s)
    (turn_angle_increment s) (max_turn_angle s) (max_cumulative_turn s)
    (backtrack_threshold s).

Definition set_turn_total_steps (v : Z) (s : TrackGenerator)
    : TrackGenerator :=
  mkTrackGenerator (seed s) (random s) (step_length s) (num_points s)
    (current_position s) (track_points s) (current_direction_angle s)
    (target_direction_angle s) (previous_angles s) (initial_direction s)
    (cumulative_turn s) (steps_until_next_turn s) (turn_indices s)
    (turning s) (turn_steps_remaining s) v
    (turn_angle_increment s) (max_turn_angle s) (max_cumulative_turn s)
    (backtrack_threshold s).

Definition set_turn_angle_increment (v : Q) (s : TrackGenerator)
    : TrackGenerator :=
  mkTrackGenerator (seed s) (random s) (step_length s) (num_points s)
    (current_position s) (track_points s) (current_direction_angle s)
    (target_direction_angle s) (previous_angles s) (initial_direction s)
    (cumulative_turn s) (steps_until_next_turn s) (turn_indices s)
    (turning s) (turn_steps_remaining s) (turn_total_steps s)
    v (max_turn_angle s) (max_cumulative_turn s)
    (backtrack_threshold s).

(** *** Methods as computations over [self] *)

Definition M (A : Type) : Type := TrackGenerator -> A * TrackGenerator.

Definition ret {A : Type} (a : A) : M A := fun s => (a, s).

Definition bind {A B : Type} (m : M A) (k : A -> M B) : M B :=
  fun s => let (a, s') := m s in k a s'.

(** Read an attribute. *)
Definition gets {A : Type} (f : TrackGenerator -> A) : M A :=
  fun s => (f s, s).

(** Assign an attribute. *)
Definition assign (f : TrackGenerator -> TrackGenerator) : M unit :=
  fun s => (tt, f s).

(** Call a method of [self.random]: the stream inside [self] advances. *)
Definition draw {A : Type} (op : G -> A * G) : M A :=
  fun s => let (a, g) := op (random s) in (a, set_random g s).

(** [for _ in range(n): body] *)
Fixpoint for_range (n : nat) (body : M unit) : M unit :=
  match n with
  | O => ret tt
  | S n' => bind body (fun _ => for_range n' body)
  end.

End Generator.

Arguments TrackGenerator Seed G : clear implicits.
Arguments M Seed G A : clear implicits.

Declare Scope method_scope.
Delimit Scope method_scope with method.
Notation "x <- m ;; k" := (bind m (fun x => k))
  (at level 61, m at next level, right associativity) : method_scope.
Notation "m ;; k" := (bind m (fun _ => k))
  (at level 61, right associativity) : method_scope.

Section Methods.

Context {Seed G : Type} `{RS : Random.Source Seed G} `{MF : math.Functions}.

Local Open Scope method_scope.

(** [1 if self.random.random() < 0.5 else -1] *)
Definition random_sign : M Seed G Q :=
  r <- draw Random.random ;;
  ret (if r <? 0.5 then 1 else -1).

Definition get_smoothed_angle : M Seed G Q :=
  angles <- gets previous_angles ;;
  ret (np_mean (last_n 3 angles)).

Definition would_cause_backtrack (proposed_angle : Q) : M Seed G bool :=
  initial <- gets initial_direction ;;
  let angle_from_initial := Qabs (normalize_angle (proposed_angle -! initial)) in
  threshold <- gets backtrack_threshold ;;
  if angle_from_initial >? threshold then ret true
  else
    initial <- gets initial_direction ;;
    let total_turn_from_initial :=
      Qabs (normalize_angle (proposed_angle -! initial)) in
    cap <- gets max_cumulative_turn ;;
    if total_turn_from_initial >? cap then ret true
    else ret false.

Definition get_safe_turn_angle (desired_angle : Q) : M Seed G Q :=
  current <- gets current_direction_angle ;;
  let proposed_angle := normalize_angle (current +! desired_angle) in
  backtrack <- would_cause_backtrack proposed_angle ;;
  if backtrack then
    let safe_angle := desired_angle *! 0.3 in
    current <- gets current_direction_angle ;;
    let proposed_angle := normalize_angle (current +! safe_angle) in
    backtrack <- would_cause_backtrack proposed_angle ;;
    if backtrack then
      let safe_angle := - desired_angle *! 0.2 in
      current <- gets current_direction_angle ;;
      let proposed_angle := normalize_angle (current +! safe_angle) in
      backtrack <- would_cause_backtrack proposed_angle ;;
      if backtrack then ret 0 else ret safe_angle
    else ret safe_angle
  else ret desired_angle.

Definition start_big_turn : M Seed G unit :=
  magnitude <- draw (Random.uniform 20 50) ;;
  sign <- random_sign ;;
  let big_turn_angle := magnitude *! sign in
  big_turn_angle <- get_safe_turn_angle big_turn_angle ;;
  current <- gets current_direction_angle ;;
  assign (set_target_direction_angle
            (normalize_angle (current +! big_turn_angle))) ;;
  total <- draw (Random.randint 15 30) ;;
  assign (set_turn_total_steps total) ;;
  total <- gets turn_total_steps ;;
  assign (set_turn_steps_remaining total) ;;
  target <- gets target_direction_angle ;;
  current <- gets current_direction_angle ;;
  let angle_diff := normalize_angle (target -! current) in
  total <- gets turn_total_steps ;;
  assign (set_turn_angle_increment (angle_diff /! inject_Z total)) ;;
  assign (set_turning true) ;;
  indices <- gets turn_indices ;;
  points <- gets track_points ;;
  assign (set_turn_indices (append indices (len points))).

Definition step_turn : M Seed G unit :=
  remaining <- gets turn_steps_remaining ;;
  if (0 <? remaining)%Z then
    current <- gets current_direction_angle ;;
    increment <- gets turn_angle_increment ;;
    let new_angle := current +! increment in
    backtrack <- would_cause_backtrack new_angle ;;
    if negb backtrack then
      assign (set_current_direction_angle (normalize_angle new_angle)) ;;
      angles <- gets previous_angles ;;
      current <- gets current_direction_angle ;;
      assign (set_previous_angles (append angles current)) ;;
      remaining <- gets turn_steps_remaining ;;
      assign (set_turn_steps_remaining (remaining - 1)%Z)
    else
      assign (set_turning false) ;;
      assign (set_turn_steps_remaining 0%Z)
  else
    assign (set_turning false) ;;
    current <- gets current_direction_angle ;;
    assign (set_target_direction_angle current).

(** The part of [generate_next_point] before [# Move forward by step
    length]: the choice of the heading. *)
Definition choose_direction : M Seed G unit :=
  is_turning <- gets turning ;;
  if is_turning then step_turn
  else
    countdown <- gets steps_until_next_turn ;;
    if (0 <? countdown)%Z then
      assign (set_steps_until_next_turn (countdown - 1)%Z) ;;
      noise <- draw (Random.uniform (-1) 1) ;;
      smoothed_angle <- get_smoothed_angle ;;
      let proposed_angle := smoothed_angle +! noise in
      backtrack <- would_cause_backtrack proposed_angle ;;
      if negb backtrack then
        assign (set_current_direction_angle (normalize_angle proposed_angle)) ;;
        angles <- gets previous_angles ;;
        current <- gets current_direction_angle ;;
        assign (set_previous_angles (append angles current))
      else ret tt
    else
      countdown <- draw (Random.randint 30 70) ;;
      assign (set_steps_until_next_turn countdown) ;;
      turn_type_roll <- draw Random.random ;;
      if turn_type_roll <? 0.85 then
        magnitude <- draw (Random.uniform 2 15) ;;
        sign <- random_sign ;;
        let small_turn_angle := magnitude *! sign in
        safe_turn_angle <- get_safe_turn_angle small_turn_angle ;;
        current <- gets current_direction_angle ;;
        assign (set_current_direction_angle (current +! safe_turn_angle)) ;;
        current <- gets current_direction_angle ;;
        assign (set_current_direction_angle (normalize_angle current)) ;;
        angles <- gets previous_angles ;;
        current <- gets current_direction_angle ;;
        assign (set_previous_angles (append angles current)) ;;
        if Qabs safe_turn_angle >? 0.5 then
          indices <- gets turn_indices ;;
          points <- gets track_points ;;
          assign (set_turn_indices (append indices (len points)))
        else ret tt
      else start_big_turn.

(** The part of [generate_next_point] from [# Move forward by step
    length] on: one step along the heading. *)
Definition move_forward : M Seed G unit :=
  current <- gets current_direction_angle ;;
  let rad := math.radians current in
  position <- gets current_position ;;
  let (x, y) := position in
  step <- gets step_length ;;
  let dx := math.cos rad *! step in
  step <- gets step_length ;;
  let dy := math.sin rad *! step in
  let new_pos := (x +! dx, y +! dy) in
  assign (set_current_position new_pos) ;;
  points <- gets track_points ;;
  assign (set_track_points (append points new_pos)).

Definition generate_next_point : M Seed G unit :=
  choose_direction ;;
  move_forward.

Definition generate_full_track : M Seed G (list (Q * Q) * list Z) :=
  n <- gets num_points ;;
  for_range (Z.to_nat n) generate_next_point ;;
  points <- gets track_points ;;
  indices <- gets turn_indices ;;
  ret (points, indices).

(** [__init__]: the attributes of a fresh instance.  The only draw is the
    first countdown. *)
Definition __init__ (seed0 : Seed) (step_length0 : Q) (num_points0 : Z)
    : TrackGenerator Seed G :=
  let rng := Random.Random seed0 in
  let current_position0 := (0, 0) in
  let (countdown, rng') := Random.randint 20 50 rng in
  {| seed := seed0;
     random := rng';
     step_length := step_length0;
     num_points := num_points0;
     current_position := current_position0;
     track_points := [current_position0];
     current_direction_angle := 0;
     target_direction_angle := 0;
     previous_angles := repeat 0 5;
     initial_direction := 0;
     cumulative_turn := 0;
     steps_until_next_turn := countdown;
     turn_indices := [];
     turning := false;
     turn_steps_remaining := 0%Z;
     turn_total_steps := 0%Z;
     turn_angle_increment := 0;
     max_turn_angle := 60;
     max_cumulative_turn := 120;
     backtrack_threshold := 120 |}.

(** The call [TrackGenerator(seed, step_length, num_points)]: it raises
    what [__init__] raises, and [__init__] has no [raise] and no
    operation that can fail. *)
Definition new (seed0 : Seed) (step_length0 : Q) (num_points0 : Z)
    : result (TrackGenerator Seed G) :=
  Returned (__init__ seed0 step_length0 num_points0).

(** The default arguments of [__init__]. *)
Definition default_step_length : Q := 10.
Definition default_num_points : Z := 200%Z.

(** *** Runs *)

(** The instance after one call of [generate_next_point]. *)
Definition step (s : TrackGenerator Seed G) : TrackGenerator Seed G :=
  snd (generate_next_point s).

(** The instance after [k] calls of [generate_next_point]. *)
Definition advance (k : nat) (s : TrackGenerator Seed G)
    : TrackGenerator Seed G :=
  snd (for_range k generate_next_point s).

(** *** Two instances in one program

    A program holds two generators and the module-level stream of
    [random], from which the user interface draws a seed
    ([TrackApp.generate_random_seed]: [random.randint(0, 999999999)]).
    The caller advances either generator or draws from the module-level
    stream, in any order; [interleave schedule w] performs the events
    that [schedule] lists. *)
Inductive event : Type :=
| CallFirst
| CallSecond
| RandomSeedButton.

Record program : Type := mkProgram {
  module_random : G;
  first : TrackGenerator Seed G;
  second : TrackGenerator Seed G
}.

Definition perform (w : program) (e : event) : program :=
  match e with
  | CallFirst => mkProgram (module_random w) (step (first w)) (second w)
  | CallSecond => mkProgram (module_random w) (first w) (step (second w))
  | RandomSeedButton =>
      mkProgram (snd (Random.randint 0 999999999 (module_random w)))
        (first w) (second w)
  end.

Definition interleave (schedule : list event) (w : program) : program :=
  fold_left perform schedule w.

(** The number of calls of [generate_next_point] on the first and on the
    second generator in a schedule. *)
Definition calls_first (schedule : list event) : nat :=
  length (filter (fun e => match e with CallFirst => true | _ => false end)
            schedule).

Definition calls_second (schedule : list event) : nat :=
  length (filter (fun e => match e with CallSecond => true | _ => false end)
            schedule).

(** The heading is at most 120 degrees off the initial one. *)
Definition heading_within_limit (s : TrackGenerator Seed G) : Prop :=
  Qabs (normalize_angle (current_direction_angle s - initial_direction s))
    <= 120.

(** *** Specification-side definitions *)

(** The answer of [would_cause_backtrack] in state [s]. *)
Definition backtracks (s : TrackGenerator Seed G) (p : Q) : bool :=
  fst (would_cause_backtrack p s).

(** The candidate heading tested for a turn of [delta] degrees. *)
Definition candidate (s : TrackGenerator Seed G) (delta : Q) : Q :=
  normalize_angle (current_direction_angle s +! delta).

(** The decision tree of [get_safe_turn_angle] as an expression. *)
Definition safe_turn_angle (s : TrackGenerator Seed G) (d : Q) : Q :=
  if negb (backtracks s (candidate s d)) then d
  else if negb (backtracks s (candidate s (d *! 0.3))) then d *! 0.3
  else if negb (backtracks s (candidate s (- d *! 0.2))) then - d *! 0.2
  else 0.

(** The point that [move_forward] appends. *)
Definition next_position (s : TrackGenerator Seed G) : Q * Q :=
  (fst (current_position s)
     +! math.cos (math.radians (current_direction_angle s)) *! step_length s,
   snd (current_position s)
     +! math.sin (math.radians (current_direction_angle s)) *! step_length s).

(** The configuration attributes hold what [__init__] gave them. *)
Definition config_ok (s : TrackGenerator Seed G) : Prop :=
  initial_direction s = 0 /\
  backtrack_threshold s = 120 /\
  max_cumulative_turn s = 120.

(** The answers of [would_cause_backtrack] and [get_safe_turn_angle]
    depend on four attributes only. *)
Definition same_limits (s t : TrackGenerator Seed G) : Prop :=
  current_direction_angle s = current_direction_angle t /\
  initial_direction s = initial_direction t /\
  backtrack_threshold s = backtrack_threshold t /\
  max_cumulative_turn s = max_cumulative_turn t.

(** Invariant of the heading: it lies within the limit itself. *)
Definition heading_inv (s : TrackGenerator Seed G) : Prop :=
  config_ok s /\
  -120 <= current_direction_angle s /\ current_direction_angle s <= 120.

(** Invariant of the points. *)
Definition points_inv (s : TrackGenerator Seed G) : Prop :=
  hd_error (track_points s) = Some (0, 0) /\
  last (track_points s) (0, 0) = current_position s.

(** Invariant of the turn indices. *)
Definition turn_inv (s : TrackGenerator Seed G) : Prop :=
  (1 <= len (track_points s))%Z /\
  StronglySorted Z.lt (turn_indices s) /\
  Forall (fun i => (1 <= i <= len (track_points s) - 1)%Z) (turn_indices s).

(** Invariant of the countdown: a big turn starts on a fresh countdown. *)
Definition countdown_inv (s : TrackGenerator Seed G) : Prop :=
  (0 <= steps_until_next_turn s <= 70)%Z /\
  (turning s = true -> (30 <= steps_until_next_turn s)%Z).

End Methods.

(** ** The methods that normalise, in any number format

    [normalize_angle], [would_cause_backtrack] and [get_safe_turn_angle]
    once more, with the arithmetic of a number format: an operation
    returns the rounded exact result, a literal is the rounded decimal.
    In the format of the exact numbers these are the methods above; in
    binary64 they are the methods as Python runs them.  The loops of
    [normalize_angle] are run with a bound on their iterations, and a
    method returns [None] when a loop reaches it. *)

Module Rounded.

Section Arithmetic.

Context {Seed G : Type} {NF : Numbers.Format}.

Definition add (x y : Q) : Q := Numbers.rnd (x + y).
Definition sub (x y : Q) : Q := Numbers.rnd (x - y).
Definition mul (x y : Q) : Q := Numbers.rnd (x * y).
Definition literal (x : Q) : Q := Numbers.rnd x.

Definition normalize_angle (fuel : nat) (angle : Q) : option Q :=
  match while_loop fuel (fun a => a >? 180) (fun a => sub a 360) angle with
  | Some angle' =>
      while_loop fuel (fun a => a <? -180) (fun a => add a 360) angle'
  | None => None
  end.

(** A bound on the iterations that is enough below [2^62]. *)
Definition normalize_steps (angle : Q) : nat :=
  S (S (Z.to_nat (Qfloor (Qabs angle / 104)))).

(** A method that may not return. *)
Definition R (A : Type) : Type :=
  TrackGenerator Seed G -> option (A * TrackGenerator Seed G).

Definition ret {A : Type} (a : A) : R A := fun s => Some (a, s).

Definition bind {A B : Type} (m : R A) (k : A -> R B) : R B :=
  fun s =>
    match m s with
    | Some (a, s') => k a s'
    | None => None
    end.

Definition gets {A : Type} (f : TrackGenerator Seed G -> A) : R A :=
  fun s => Some (f s, s).

(** The value of an expression whose loops may not end. *)
Definition eval {A : Type} (o : option A) : R A :=
  fun s =>
    match o with
    | Some a => Some (a, s)
    | None => None
    end.

End Arithmetic.

Declare Scope rounded_scope.
Delimit Scope rounded_scope with rounded.
Notation "x <- m ;; k" := (bind m (fun x => k))
  (at level 61, m at next level, right associativity) : rounded_scope.

Section Turns.

Context {Seed G : Type} {NF : Numbers.Format}.

Local Open Scope rounded_scope.

Definition would_cause_backtrack (fuel : nat) (proposed_angle : Q)
    : R (Seed := Seed) (G := G) bool :=
  initial <- gets initial_direction ;;
  normalized <- eval (normalize_angle fuel (sub proposed_angle initial)) ;;
  let angle_from_initial := Qabs normalized in
  threshold <- gets backtrack_threshold ;;
  if angle_from_initial >? threshold then ret true
  else
    initial <- gets initial_direction ;;
    normalized <- eval (normalize_angle fuel (sub proposed_angle initial)) ;;
    let total_turn_from_initial := Qabs normalized in
    cap <- gets max_cumulative_turn ;;
    if total_turn_from_initial >? cap then ret true
    else ret false.

Definition get_safe_turn_angle (fuel : nat) (desired_angle : Q)
    : R (Seed := Seed) (G := G) Q :=
  current <- gets current_direction_angle ;;
  proposed_angle <- eval (normalize_angle fuel (add current desired_angle)) ;;
  backtrack <- would_cause_backtrack fuel proposed_angle ;;
  if backtrack then
    let safe_angle := mul desired_angle (literal 0.3) in
    current <- gets current_direction_angle ;;
    proposed_angle <- eval (normalize_angle fuel (add current safe_angle)) ;;
    backtrack <- would_cause_backtrack fuel proposed_angle ;;
    if backtrack then
      let safe_angle := mul (- desired_angle) (literal 0.2) in
      current <- gets current_direction_angle ;;
      proposed_angle <-
        eval (normalize_angle fuel (add current safe_angle)) ;;
      backtrack <- would_cause_backtrack fuel proposed_angle ;;
      if backtrack then ret 0 else ret safe_angle
    else ret safe_angle
  else ret desired_angle.

(** *** Specification-side definitions *)

(** The answer of [would_cause_backtrack] for the candidate heading of a
    turn of [delta] degrees. *)
Definition unsafe (fuel : nat) (s : TrackGenerator Seed G) (delta : Q)
    : option bool :=
  match normalize_angle fuel (add (current_direction_angle s) delta) with
  | Some proposed_angle =>
      option_map fst (would_cause_backtrack fuel proposed_angle s)
  | None => None
  end.

End Turns.

End Rounded.

(** ** Further invariants of the generator *)

Section FurtherDefinitions.
Context {Seed G : Type} `{RS : Random.Source Seed G} `{MF : math.Functions}.

(** Invariant of the history: it ends with the current heading and every
    entry is a heading within the limit. *)
Definition history_inv (s : TrackGenerator Seed G) : Prop :=
  last (previous_angles s) 0 = current_direction_angle s /\
  Forall (fun h => -120 <= h /\ h <= 120) (previous_angles s) /\
  (5 <= length (previous_angles s))%nat.

(** Invariant of the spacing of the turn indices: the countdown keeps the
    next flagged point away from the flagged ones. *)
Definition spacing_inv (s : TrackGenerator Seed G) : Prop :=
  (21 <= len (track_points s) + steps_until_next_turn s)%Z /\
  Forall (fun i => (i + 31 <= len (track_points s) + steps_until_next_turn s)%Z)
    (turn_indices s) /\
  Forall (fun i => (21 <= i)%Z) (turn_indices s) /\
  StronglySorted (fun i j => (i + 31 <= j)%Z) (turn_indices s).

(** Invariant of a big turn: at most 30 steps remain, and the target is
    within the limit. *)
Definition big_turn_inv (s : TrackGenerator Seed G) : Prop :=
  (0 <= turn_steps_remaining s <= 30)%Z /\
  (turning s = true ->
   -120 <= target_direction_angle s /\ target_direction_angle s <= 120).

(** The attributes that hold the configuration. *)
Definition settings (s : TrackGenerator Seed G)
    : Seed * Q * Z * Q * Q * Q * Q * Q :=
  (seed s, step_length s, num_points s, initial_direction s,
   cumulative_turn s, max_turn_angle s, max_cumulative_turn s,
   backtrack_threshold s).

(** The instance after [j] calls of [generate_full_track]. *)
Definition full_tracks (j : nat) (s : TrackGenerator Seed G)
    : TrackGenerator Seed G :=
  Nat.iter j (fun t => snd (generate_full_track t)) s.

End FurtherDefinitions.

(** * The application (class [TrackApp])

    The handlers of the user interface that drive the generator:
    [generate_random_seed], [generate_full_track], [start_live_generation]
    and [live_step].  A handler is a computation over the attributes of
    the application that may raise; an exception leaves the attributes as
    they were when it was raised.  The calls to Matplotlib and Tk are
    recorded, in order and with the data they are given (the constant
    styling arguments are left out), in the attribute [calls]; the timer
    callbacks that [after] schedules are queued in [pending] and run by
    [run_callbacks], one per timer event. *)

Module App.

(** What [TrackGenerator] is seeded with: the integer that the seed text
    spells, or the text itself. *)
Inductive seed_value : Type :=
| IntSeed (n : Z)
| StrSeed (text : String.string).

(** The builtins [int] (on a string; [None] when it raises [ValueError])
    and [str] (on an integer), with the contract that [int] reads back
    what [str] prints.  CPython converts integers of at most 4300 decimal
    digits; [str] raises beyond, which the handlers, who print seeds
    below [10^9], never meet. *)
Class Builtins : Type := {
  int : String.string -> option Z;
  str : Z -> String.string;
  int_str : forall n : Z, (Z.abs n < 10 ^ 4300)%Z -> int (str n) = Some n
}.

Inductive raised : Type :=
| AttributeError
| IndexError
| TclError
| ValueError
| FromGenerator (e : exception).

Inductive outcome (A : Type) : Type :=
| Done (a : A)
| Raise (e : raised).

Arguments Done {A} a.
Arguments Raise {A} e.

(** The calls to the plotting and windowing libraries. *)
Inductive call : Type :=
| ax_full_clear
| ax_full_plot (xs ys : list Q)
| ax_full_scatter (xs ys : list Q)
| ax_full_set_xlim (lo hi : Q)
| ax_full_set_ylim (lo hi : Q)
| ax_full_set_title (seed0 : seed_value) (length0 : Z)
| ax_full_set_aspect
| ax_full_grid
| ax_full_legend
| canvas_full_draw
| ax_live_clear
| ax_live_plot (xs ys : list Q)
| ax_live_scatter (xs ys : list Q)
| ax_live_set_xlim (lo hi : Q)
| ax_live_set_ylim (lo hi : Q)
| ax_live_set_title (step_number : option Z)
| ax_live_set_aspect
| ax_live_grid
| ax_live_legend
| canvas_live_draw
| showerror
| after (ms : Z) (step_count : Z).

(** ** Python sequences *)

(** [l[i]]: a negative index counts from the end; [IndexError] out of
    range. *)
Definition index {A : Type} (l : list A) (i : Z) : outcome A :=
  let j := if (i <? 0)%Z then (i + len l)%Z else i in
  if ((0 <=? j)%Z && (j <? len l)%Z)%bool then
    match nth_error l (Z.to_nat j) with
    | Some a => Done a
    | None => Raise IndexError
    end
  else Raise IndexError.

(** [[f(l[i]) for i in indices]] *)
Fixpoint lookups {A B : Type} (f : A -> B) (l : list A) (indices : list Z)
    : outcome (list B) :=
  match indices with
  | [] => Done []
  | i :: rest =>
      match index l i with
      | Done a =>
          match lookups f l rest with
          | Done bs => Done (f a :: bs)
          | Raise e => Raise e
          end
      | Raise e => Raise e
      end
  end.

(** [xs, ys = zip( *points)]: the unpacking raises [ValueError] when there
    is no point. *)
Definition unzip_points (points : list (Q * Q)) : outcome (list Q * list Q) :=
  match points with
  | [] => Raise ValueError
  | _ :: _ => Done (map fst points, map snd points)
  end.

(** [min(xs)] and [max(xs)]: the first least and the first greatest
    element; [ValueError] on an empty sequence. *)
Definition py_min (xs : list Q) : outcome Q :=
  match xs with
  | [] => Raise ValueError
  | x :: rest => Done (fold_left (fun m y => if y <? m then y else m) rest x)
  end.

Definition py_max (xs : list Q) : outcome Q :=
  match xs with
  | [] => Raise ValueError
  | x :: rest => Done (fold_left (fun m y => if y >? m then y else m) rest x)
  end.

Section Application.

Context {G : Type} `{RS : Random.Source seed_value G} `{MF : math.Functions}
  `{PY : Builtins}.

(** The attributes of the application that the handlers use, the
    module-level stream of [random], what [self.length_var.get()]
    returns ([None] when it raises [TclError]), the recorded calls and the
    scheduled callbacks. *)
Record TrackApp : Type := mkTrackApp {
  module_stream : G;
  seed_var : String.string;
  length_var : option Z;
  stop_live : bool;
  track_gen : option (TrackGenerator seed_value G);
  live_points_x : list Q;
  live_points_y : list Q;
  live_turns_x : list Q;
  live_turns_y : list Q;
  calls : list call;
  pending : list Z
}.

Definition set_module_stream (v : G) (a : TrackApp) : TrackApp :=
  mkTrackApp v (seed_var a) (length_var a) (stop_live a) (track_gen a)
    (live_points_x a) (live_points_y a) (live_turns_x a) (live_turns_y a)
    (calls a) (pending a).

Definition set_seed_var (v : String.string) (a : TrackApp) : TrackApp :=
  mkTrackApp (module_stream a) v (length_var a) (stop_live a) (track_gen a)
    (live_points_x a) (live_points_y a) (live_turns_x a) (live_turns_y a)
    (calls a) (pending a).

Definition set_stop_live (v : bool) (a : TrackApp) : TrackApp :=
  mkTrackApp (module_stream a) (seed_var a) (length_var a) v (track_gen a)
    (live_points_x a) (live_points_y a) (live_turns_x a) (live_turns_y a)
    (calls a) (pending a).

Definition set_track_gen (v : option (TrackGenerator seed_value G))
    (a : TrackApp) : TrackApp :=
  mkTrackApp (module_stream a) (seed_var a) (length_var a) (stop_live a) v
    (live_points_x a) (live_points_y a) (live_turns_x a) (live_turns_y a)
    (calls a) (pending a).

Definition set_live_points_x (v : list Q) (a : TrackApp) : TrackApp :=
  mkTrackApp (module_stream a) (seed_var a) (length_var a) (stop_live a)
    (track_gen a) v (live_points_y a) (live_turns_x a) (live_turns_y a)
    (calls a) (pending a).

Definition set_live_points_y (v : list Q) (a : TrackApp) : TrackApp :=
  mkTrackApp (module_stream a) (seed_var a) (length_var a) (stop_live a)
    (track_gen a) (live_points_x a) v (live_turns_x a) (live_turns_y a)
    (calls a) (pending a).

Definition set_live_turns_x (v : list Q) (a : TrackApp) : TrackApp :=
  mkTrackApp (module_stream a) (seed_var a) (length_var a) (stop_live a)
    (track_gen a) (live_points_x a) (live_points_y a) v (live_turns_y a)
    (calls a) (pending a).

Definition set_live_turns_y (v : list Q) (a : TrackApp) : TrackApp :=
  mkTrackApp (module_stream a) (seed_var a) (length_var a) (stop_live a)
    (track_gen a) (live_points_x a) (live_points_y a) (live_turns_x a) v
    (calls a) (pending a).

Definition set_calls (v : list call) (a : TrackApp) : TrackApp :=
  mkTrackApp (module_stream a) (seed_var a) (length_var a) (stop_live a)
    (track_gen a) (live_points_x a) (live_points_y a) (live_turns_x a)
    (live_turns_y a) v (pending a).

Definition set_pending (v : list Z) (a : TrackApp) : TrackApp :=
  mkTrackApp (module_stream a) (seed_var a) (length_var a) (stop_live a)
    (track_gen a) (live_points_x a) (live_points_y a) (live_turns_x a)
    (live_turns_y a) (calls a) v.

(** [TrackApp()]: the attributes as [__init__] leaves them, the entries
    holding their initial values.  The window, the widgets and the two
    figures that it builds are not modelled. *)
Definition __init__ (stream : G) : TrackApp :=
  mkTrackApp stream "12345"%string (Some 1000%Z) false None [] [] [] [] []
    [].

(** ** Handlers as computations that may raise *)

Definition UI (A : Type) : Type := TrackApp -> outcome A * TrackApp.

Definition ui_ret {A : Type} (a : A) : UI A := fun s => (Done a, s).

Definition ui_bind {A B : Type} (m : UI A) (k : A -> UI B) : UI B :=
  fun s =>
    match m s with
    | (Done a, s') => k a s'
    | (Raise e, s') => (Raise e, s')
    end.

Definition ui_get {A : Type} (f : TrackApp -> A) : UI A :=
  fun s => (Done (f s), s).

Definition ui_set (f : TrackApp -> TrackApp) : UI unit :=
  fun s => (Done tt, f s).

(** The value of an expression that may raise. *)
Definition ui_eval {A : Type} (o : outcome A) : UI A := fun s => (o, s).

(** [try: body / except Exception: handler] *)
Definition try_except (body handler : UI unit) : UI unit :=
  fun s =>
    match body s with
    | (Done a, s') => (Done a, s')
    | (Raise _, s') => handler s'
    end.

(** A method or an attribute of [self.track_gen]; [None] has neither. *)
Definition on_track_gen {A : Type} (m : M seed_value G A) : UI A :=
  fun s =>
    match track_gen s with
    | Some g => let (a, g') := m g in (Done a, set_track_gen (Some g') s)
    | None => (Raise AttributeError, s)
    end.

(** A call to the plotting or windowing library. *)
Definition library_call (c : call) : UI unit :=
  ui_set (fun s => set_calls (append (calls s) c) s).

End Application.

Arguments TrackApp G : clear implicits.
Arguments UI G A : clear implicits.

Declare Scope ui_scope.
Delimit Scope ui_scope with ui.
Notation "x <- m ;; k" := (ui_bind m (fun x => k))
  (at level 61, m at next level, right associativity) : ui_scope.
Notation "m ;; k" := (ui_bind m (fun _ => k))
  (at level 61, right associativity) : ui_scope.

Section Handlers.

Context {G : Type} `{RS : Random.Source seed_value G} `{MF : math.Functions}
  `{PY : Builtins}.

Local Open Scope ui_scope.

(** [random.randint(0, 999999999)] on the module-level stream. *)
Definition generate_random_seed : UI G unit :=
  stream <- ui_get module_stream ;;
  let (random_seed, stream') := Random.randint 0 999999999 stream in
  ui_set (set_module_stream stream') ;;
  ui_set (set_seed_var (str random_seed)).

(** The seed of both handlers: the text of the entry, turned into an
    integer when [int] accepts it. *)
Definition read_seed : UI G seed_value :=
  text <- ui_get seed_var ;;
  match int text with
  | Some n => ui_ret (IntSeed n)
  | None => ui_ret (StrSeed text)
  end.

(** [self.length_var.get()] *)
Definition read_length : UI G Z :=
  value <- ui_get length_var ;;
  match value with
  | Some n => ui_ret n
  | None => ui_eval (Raise TclError)
  end.

(** [self.track_gen = TrackGenerator(seed, step_length=10,
    num_points=length)] *)
Definition create_track_gen (seed0 : seed_value) (length0 : Z) : UI G unit :=
  match new seed0 10 length0 with
  | Returned g => ui_set (set_track_gen (Some g))
  | Raised e => ui_eval (Raise (FromGenerator e))
  end.

Definition generate_full_track : UI G unit :=
  try_except
    (seed0 <- read_seed ;;
     length0 <- read_length ;;
     create_track_gen seed0 length0 ;;
     result <- on_track_gen generate_full_track ;;
     let (points, turn_indices0) := result in
     coordinates <- ui_eval (unzip_points points) ;;
     let (xs, ys) := coordinates in
     library_call ax_full_clear ;;
     library_call (ax_full_plot xs ys) ;;
     turn_x <- ui_eval (lookups fst points turn_indices0) ;;
     turn_y <- ui_eval (lookups snd points turn_indices0) ;;
     library_call (ax_full_scatter turn_x turn_y) ;;
     let margin := 100 in
     min_x <- ui_eval (py_min xs) ;;
     max_x <- ui_eval (py_max xs) ;;
     min_y <- ui_eval (py_min ys) ;;
     max_y <- ui_eval (py_max ys) ;;
     library_call (ax_full_set_xlim (min_x -! margin) (max_x +! margin)) ;;
     library_call (ax_full_set_ylim (min_y -! margin) (max_y +! margin)) ;;
     library_call (ax_full_set_title seed0 length0) ;;
     library_call ax_full_set_aspect ;;
     library_call ax_full_grid ;;
     library_call ax_full_legend ;;
     library_call canvas_full_draw)
    (library_call showerror).

Definition live_step (step_count : Z) : UI G unit :=
  stop <- ui_get stop_live ;;
  finished <- (if stop then ui_ret true
               else
                 num_points0 <- on_track_gen (gets num_points) ;;
                 ui_ret (num_points0 <=? step_count)%Z) ;;
  if finished then ui_ret tt
  else
    on_track_gen generate_next_point ;;
    position <- on_track_gen (gets current_position) ;;
    let (x, y) := position in
    xs <- ui_get live_points_x ;;
    ui_set (set_live_points_x (append xs x)) ;;
    ys <- ui_get live_points_y ;;
    ui_set (set_live_points_y (append ys y)) ;;
    indices <- on_track_gen (gets turn_indices) ;;
    is_turn <- (if (0 <? len indices)%Z then
                  last_index <- ui_eval (index indices (-1)) ;;
                  xs <- ui_get live_points_x ;;
                  ui_ret (last_index =? len xs - 1)%Z
                else ui_ret false) ;;
    (if is_turn then
       turns_x <- ui_get live_turns_x ;;
       ui_set (set_live_turns_x (append turns_x x)) ;;
       turns_y <- ui_get live_turns_y ;;
       ui_set (set_live_turns_y (append turns_y y))
     else ui_ret tt) ;;
    library_call ax_live_clear ;;
    xs <- ui_get live_points_x ;;
    ys <- ui_get live_points_y ;;
    library_call (ax_live_plot xs ys) ;;
    turns_x <- ui_get live_turns_x ;;
    (match turns_x with
     | [] => ui_ret tt
     | _ :: _ =>
         turns_x <- ui_get live_turns_x ;;
         turns_y <- ui_get live_turns_y ;;
         library_call (ax_live_scatter turns_x turns_y)
     end) ;;
    let margin := 70 in
    let (cx, cy) := (x, y) in
    library_call (ax_live_set_xlim (cx -! margin) (cx +! margin)) ;;
    library_call (ax_live_set_ylim (cy -! margin) (cy +! margin)) ;;
    library_call (ax_live_set_title (Some (step_count + 1)%Z)) ;;
    library_call ax_live_set_aspect ;;
    library_call ax_live_grid ;;
    library_call ax_live_legend ;;
    library_call canvas_live_draw ;;
    library_call (after 40 (step_count + 1)%Z) ;;
    queue <- ui_get pending ;;
    ui_set (set_pending (append queue (step_count + 1)%Z)).

Definition start_live_generation : UI G unit :=
  ui_set (set_stop_live false) ;;
  try_except
    (seed0 <- read_seed ;;
     length0 <- read_length ;;
     create_track_gen seed0 length0 ;;
     ui_set (set_live_points_x [0]) ;;
     ui_set (set_live_points_y [0]) ;;
     ui_set (set_live_turns_x []) ;;
     ui_set (set_live_turns_y []) ;;
     library_call ax_live_clear ;;
     library_call (ax_live_set_title None) ;;
     library_call ax_live_set_aspect ;;
     library_call ax_live_grid ;;
     live_step 0)
    (library_call showerror).

(** One timer event: the oldest scheduled callback runs; what it raises
    is reported by Tk and goes no further. *)
Definition run_callback (a : TrackApp G) : TrackApp G :=
  match pending a with
  | [] => a
  | step_count :: rest => snd (live_step step_count (set_pending rest a))
  end.

(** [n] timer events. *)
Fixpoint run_callbacks (n : nat) (a : TrackApp G) : TrackApp G :=
  match n with
  | O => a
  | S n' => run_callbacks n' (run_callback a)
  end.

End Handlers.

End App.

(** ** Specification-side definitions for the application *)

Section ApplicationDefinitions.

Context {G : Type} `{RS : Random.Source App.seed_value G}
  `{MF : math.Functions} `{PY : App.Builtins}.

(** The seed that the handlers read from the seed entry. *)
Definition entered_seed (a : App.TrackApp G) : App.seed_value :=
  match App.int (App.seed_var a) with
  | Some n => App.IntSeed n
  | None => App.StrSeed (App.seed_var a)
  end.

(** The points of a generator that its turn indices flag. *)
Definition flagged (g : TrackGenerator App.seed_value G) : list (Q * Q) :=
  map (fun i => nth (Z.to_nat i) (track_points g) (0, 0)) (turn_indices g).

(** The calls of [generate_full_track] that draw the track of [g]. *)
Definition full_view_calls (seed0 : App.seed_value) (length0 : Z)
    (g : TrackGenerator App.seed_value G) (lo_x hi_x lo_y hi_y : Q)
    : list App.call :=
  [App.ax_full_clear;
   App.ax_full_plot (map fst (track_points g)) (map snd (track_points g));
   App.ax_full_scatter (map fst (flagged g)) (map snd (flagged g));
   App.ax_full_set_xlim lo_x hi_x;
   App.ax_full_set_ylim lo_y hi_y;
   App.ax_full_set_title seed0 length0;
   App.ax_full_set_aspect;
   App.ax_full_grid;
   App.ax_full_legend;
   App.canvas_full_draw].

(** The live view shows the generator [g]: the four lists of the live
    view hold the coordinates of its points and of its flagged points. *)
Definition mirrors (a : App.TrackApp G)
    (g : TrackGenerator App.seed_value G) : Prop :=
  App.stop_live a = false /\
  App.track_gen a = Some g /\
  App.live_points_x a = map fst (track_points g) /\
  App.live_points_y a = map snd (track_points g) /\
  App.live_turns_x a = map fst (flagged g) /\
  App.live_turns_y a = map snd (flagged g).

(** The calls of a [live_step(step_count)] that leaves the generator
    [g]. *)
Definition live_frame_calls (g : TrackGenerator App.seed_value G)
    (step_count : Z) : list App.call :=
  [App.ax_live_clear;
   App.ax_live_plot (map fst (track_points g)) (map snd (track_points g))]
  ++ match flagged g with
     | [] => []
     | _ :: _ =>
         [App.ax_live_scatter (map fst (flagged g)) (map snd (flagged g))]
     end
  ++ [App.ax_live_set_xlim (fst (current_position g) -! 70)
        (fst (current_position g) +! 70);
      App.ax_live_set_ylim (snd (current_position g) -! 70)
        (snd (current_position g) +! 70);
      App.ax_live_set_title (Some (step_count + 1)%Z);
      App.ax_live_set_aspect;
      App.ax_live_grid;
      App.ax_live_legend;
      App.canvas_live_draw;
      App.after 40 (step_count + 1)%Z].

(** The calls of a live generation on the generator [g0] that has drawn
    [k] frames. *)
Definition live_view_calls (g0 : TrackGenerator App.seed_value G) (k : nat)
    : list App.call :=
  [App.ax_live_clear; App.ax_live_set_title None; App.ax_live_set_aspect;
   App.ax_live_grid]
  ++ flat_map (fun j => live_frame_calls (advance (S j) g0) (Z.of_nat j))
       (seq 0 k).

(** The calls of [generate_next_point] that the scheduled callbacks
    [queue] still make on a generator of target length [n]. *)
Definition calls_left (n : Z) (queue : list Z) : nat :=
  list_sum (map (fun step_count => Z.to_nat (n - step_count)) queue).

End ApplicationDefinitions.

(** * The library, made concrete

    ** CPython's [random.Random] for integer seeds

    The Mersenne Twister MT19937 as CPython's [_randommodule.c] runs it
    ([init_genrand], [init_by_array], [genrand_uint32], [getrandbits],
    [random]) and the integer draws of [Lib/random.py] on top of it
    ([_randbelow], [randrange], [randint]).  The rejection loop of
    [_randbelow] is the only loop without a bound of its own; it is cut
    after [randbelow_bound] draws and the cut is recorded in the state
    (field [cut]), so a run whose final state has [cut = false] is a run
    of the library as it is. *)

Module MersenneTwister.

Local Open Scope Z_scope.

Definition N : nat := 624.
Definition M : nat := 397.
Definition MATRIX_A : Z := 0x9908b0df.
Definition UPPER_MASK : Z := 0x80000000.
Definition LOWER_MASK : Z := 0x7fffffff.

(** A [uint32_t] value: arithmetic wraps modulo [2^32]. *)
Definition u32 (z : Z) : Z := z mod 2 ^ 32.

(** [mt[i]] and [mt[i] = v] on the state array. *)
Definition get (mt : list Z) (i : nat) : Z := nth i mt 0.

Fixpoint set (mt : list Z) (i : nat) (v : Z) : list Z :=
  match mt, i with
  | [], _ => []
  | _ :: rest, O => v :: rest
  | x :: rest, S i' => x :: set rest i' v
  end.

Record state : Type := mkState {
  mt : list Z;
  index : nat;
  cut : bool
}.

(** [for (i = from; count; count--, i++) body] *)
Fixpoint for_loop {A : Type} (count : nat) (from : nat)
    (body : nat -> A -> A) (a : A) : A :=
  match count with
  | O => a
  | S count' => for_loop count' (S from) body (body from a)
  end.

Definition init_genrand (s : Z) : list Z :=
  for_loop (N - 1) 1
    (fun mti mt =>
       let prev := get mt (mti - 1) in
       set mt mti
         (u32 (1812433253 * Z.lxor prev (Z.shiftr prev 30) + Z.of_nat mti)))
    (set (repeat 0 N) 0 (u32 s)).

Definition mix (multiplier : Z) (mt : list Z) (i : nat) : Z :=
  let prev := get mt (i - 1) in
  Z.lxor (get mt i) (u32 (Z.lxor prev (Z.shiftr prev 30) * multiplier)).

(** The wrap of the index [i] at the end of a round of [init_by_array]. *)
Definition wrap_index (st : list Z * nat) : list Z * nat :=
  let (mt, i) := st in
  if (N <=? i)%nat then (set mt 0 (get mt (N - 1)), 1%nat) else (mt, i).

Definition init_by_array (init_key : list Z) : list Z :=
  let key_length := length init_key in
  let mt := init_genrand 19650218 in
  let '(mt, i, _) :=
    for_loop (Nat.max N key_length) 0
      (fun _ '(mt, i, j) =>
         let mt :=
           set mt i (u32 (mix 1664525 mt i + get init_key j + Z.of_nat j)) in
         let (mt, i) := wrap_index (mt, S i) in
         let j := if (key_length <=? S j)%nat then O else S j in
         (mt, i, j))
      (mt, 1%nat, O) in
  let '(mt, _) :=
    for_loop (N - 1) 0
      (fun _ '(mt, i) =>
         let mt := set mt i (u32 (mix 1566083941 mt i - Z.of_nat i)) in
         wrap_index (mt, S i))
      (mt, i) in
  set mt 0 0x80000000.

(** The 32-bit words of a non-negative integer, least significant first. *)
Fixpoint words (count : nat) (n : Z) : list Z :=
  match count with
  | O => []
  | S count' => u32 n :: words count' (Z.shiftr n 32)
  end.

(** [random.Random(seed)] for an integer seed: the key is the absolute
    value, in 32-bit words. *)
Definition seed (a : Z) : state :=
  let n := Z.abs a in
  let bits := if n =? 0 then 0 else Z.log2 n + 1 in
  let keyused := if bits =? 0 then 1 else (bits - 1) / 32 + 1 in
  mkState (init_by_array (words (Z.to_nat keyused) n)) N false.

Definition twist_word (mt : list Z) (kk next from : nat) : list Z :=
  let y := Z.lor (Z.land (get mt kk) UPPER_MASK)
                 (Z.land (get mt next) LOWER_MASK) in
  set mt kk
    (Z.lxor (Z.lxor (get mt from) (Z.shiftr y 1))
            (if Z.land y 1 =? 0 then 0 else MATRIX_A)).

Definition twist (mt : list Z) : list Z :=
  let mt := for_loop (N - M) 0
              (fun kk mt => twist_word mt kk (kk + 1) (kk + M)) mt in
  let mt := for_loop (M - 1) (N - M)
              (fun kk mt => twist_word mt kk (kk + 1) (kk + M - N)) mt in
  twist_word mt (N - 1) 0 (M - 1).

Definition temper (y : Z) : Z :=
  let y := Z.lxor y (Z.shiftr y 11) in
  let y := Z.lxor y (Z.land (Z.shiftl y 7) 0x9d2c5680) in
  let y := Z.lxor y (Z.land (Z.shiftl y 15) 0xefc60000) in
  Z.lxor y (Z.shiftr y 18).

Definition genrand_uint32 (g : state) : Z * state :=
  let (mt, index) :=
    if (N <=? index g)%nat then (twist (mt g), O) else (mt g, index g) in
  (u32 (temper (u32 (get mt index))), mkState mt (S index) (cut g)).


(** [getrandbits(k)] for [k > 32]: [words] draws, the last one cut to the
    bits that remain, assembled least significant first. *)
Fixpoint getrandbits_words (count : nat) (k : Z) (g : state) : Z * state :=
  match count with
  | O => (0, g)
  | S count' =>
      let (r, g) := genrand_uint32 g in
      let r := if k <? 32 then Z.shiftr r (32 - k) else r in
      let (rest, g) := getrandbits_words count' (k - 32) g in
      (r + Z.shiftl rest 32, g)
  end.

Definition getrandbits (k : Z) (g : state) : Z * state :=
  if k <=? 32 then
    let (r, g) := genrand_uint32 g in (Z.shiftr r (32 - k), g)
  else getrandbits_words (Z.to_nat ((k - 1) / 32 + 1)) k g.

(** The rejection loop of [_randbelow]: [while r >= n: r =
    getrandbits(k)], cut after [fuel] further draws; a cut is recorded
    in the state. *)
Fixpoint randbelow_loop (fuel : nat) (n k r : Z) (g : state) : Z * state :=
  if r <? n then (r, g)
  else
    match fuel with
    | O => (r mod n, mkState (mt g) (index g) true)
    | S fuel' =>
        let (r, g) := getrandbits k g in randbelow_loop fuel' n k r g
    end.

Definition randbelow_bound : nat := 64.

Definition randbelow (n : Z) (g : state) : Z * state :=
  let k := Z.log2 n + 1 in
  let (r, g) := getrandbits k g in
  randbelow_loop randbelow_bound n k r g.

(** [randint(a, b)] is [randrange(a, b + 1)]; an empty range raises in
    Python and is not drawn from by the generator. *)
Definition randint (a b : Z) (g : state) : Z * state :=
  let width := b + 1 - a in
  if 0 <? width then
    let (r, g) := randbelow width g in (a + r, g)
  else (a, g).

(** [random()]: 53 random bits as a fraction. *)
Definition random (g : state) : Q * state :=
  let (a, g) := genrand_uint32 g in
  let a := Z.shiftr a 5 in
  let (b, g) := genrand_uint32 g in
  let b := Z.shiftr b 6 in
  (Qred ((a * 67108864 + b) # 9007199254740992), g).


(** *** The contract of the draws *)

Lemma u32_range (z : Z) : 0 <= u32 z < 2 ^ 32.
Proof. unfold u32. apply Z.mod_pos_bound. lia. Qed.

Lemma genrand_uint32_range (g : state) :
  0 <= fst (genrand_uint32 g) < 2 ^ 32.
Proof.
  unfold genrand_uint32. destruct (if (N <=? index g)%nat then _ else _).
  apply u32_range.
Qed.

Lemma random_range (g : state) :
  (0 <= fst (random g))%Q /\ (fst (random g) < 1)%Q.
Proof.
  unfold random.
  pose proof (genrand_uint32_range g) as Ha.
  destruct (genrand_uint32 g) as [a g1]. cbn [fst] in Ha.
  pose proof (genrand_uint32_range g1) as Hb.
  destruct (genrand_uint32 g1) as [b g2]. cbn [fst] in *.
  rewrite Qred_correct.
  assert (Ha' : 0 <= Z.shiftr a 5 < 2 ^ 27).
  { rewrite Z.shiftr_div_pow2 by lia. split.
    - apply Z.div_pos; lia.
    - apply Z.div_lt_upper_bound; lia. }
  assert (Hb' : 0 <= Z.shiftr b 6 < 2 ^ 26).
  { rewrite Z.shiftr_div_pow2 by lia. split.
    - apply Z.div_pos; lia.
    - apply Z.div_lt_upper_bound; lia. }
  unfold Qle, Qlt. cbn [Qnum Qden]. lia.
Qed.

Lemma getrandbits_words_nonneg (count : nat) :
  forall (k : Z) (g : state), 0 <= fst (getrandbits_words count k g).
Proof.
  induction count as [|count IH]; intros k g; cbn [getrandbits_words fst].
  - lia.
  - pose proof (genrand_uint32_range g) as Hr.
    destruct (genrand_uint32 g) as [r g1]. cbn [fst] in Hr.
    specialize (IH (k - 32) g1).
    destruct (getrandbits_words count (k - 32) g1) as [rest g2].
    cbn [fst] in *.
    assert (0 <= Z.shiftl rest 32) by (apply Z.shiftl_nonneg; lia).
    assert (0 <= Z.shiftr r (32 - k)) by (apply Z.shiftr_nonneg; lia).
    destruct (k <? 32); lia.
Qed.

Lemma getrandbits_nonneg (k : Z) (g : state) : 0 <= fst (getrandbits k g).
Proof.
  unfold getrandbits. destruct (k <=? 32).
  - pose proof (genrand_uint32_range g) as Hr.
    destruct (genrand_uint32 g) as [r g1]. cbn [fst] in *.
    apply Z.shiftr_nonneg. lia.
  - apply getrandbits_words_nonneg.
Qed.

Lemma randbelow_loop_range (fuel : nat) (n k : Z) :
  0 < n ->
  forall (r : Z) (g : state),
    0 <= r -> 0 <= fst (randbelow_loop fuel n k r g) < n.
Proof.
  intros Hn. induction fuel as [|fuel IH]; intros r g Hr;
    cbn [randbelow_loop]; destruct (r <? n) eqn:Hlt.
  - apply Z.ltb_lt in Hlt. cbn [fst]. lia.
  - cbn [fst]. apply Z.mod_pos_bound. exact Hn.
  - apply Z.ltb_lt in Hlt. cbn [fst]. lia.
  - pose proof (getrandbits_nonneg k g) as Hr'.
    destruct (getrandbits k g) as [r' g']. apply IH. exact Hr'.
Qed.

Lemma randint_range (a b : Z) (g : state) :
  a <= b -> a <= fst (randint a b g) <= b.
Proof.
  intros Hab. unfold randint, randbelow.
  destruct (0 <? b + 1 - a) eqn:Hw; [|apply Z.ltb_ge in Hw; lia].
  apply Z.ltb_lt in Hw.
  pose proof (getrandbits_nonneg (Z.log2 (b + 1 - a) + 1) g) as Hr.
  destruct (getrandbits _ g) as [r g1]. cbn [fst] in Hr.
  pose proof (randbelow_loop_range randbelow_bound (b + 1 - a)
                (Z.log2 (b + 1 - a) + 1) Hw r g1 Hr) as Hloop.
  destruct (randbelow_loop _ _ _ r g1) as [r' g2]. cbn [fst] in *. lia.
Qed.

End MersenneTwister.

#[export] Instance mersenne_twister
    : Random.Source Z MersenneTwister.state := {|
  Random.Random := MersenneTwister.seed;
  Random.random := MersenneTwister.random;
  Random.randint := MersenneTwister.randint;
  Random.random_range := MersenneTwister.random_range;
  Random.randint_range := MersenneTwister.randint_range
|}.

(** ** A rational stand-in for [math]

    Taylor polynomials around 0 in fixed-point arithmetic with 53
    fractional bits.
    Nothing proved about the generator depends on these three functions:
    they only give the coordinates of a concrete run a value. *)

Module Taylor.

Definition round53 (q : Q) : Q :=
  Qred (Qfloor (q * inject_Z (2 ^ 53)) # 2 ^ 53).

Definition pi : Q := 3.141592653589793.

Definition radians (x : Q) : Q := round53 (x * (pi / 180)).

(** [sum over k < terms of (-1)^k x^(2k+start) / (2k+start)!] in
    fixed-point arithmetic, [t] being the term of rank [k] and [n] its
    degree. *)
Fixpoint series (terms : nat) (x2 t : Q) (n : Z) (sum : Q) : Q :=
  match terms with
  | O => sum
  | S terms' =>
      series terms' x2
        (round53 (- t * x2 / inject_Z ((n + 1) * (n + 2)))) (n + 2)%Z
        (round53 (sum + t))
  end.

Definition cos (x : Q) : Q := series 12 (round53 (x * x)) 1 0 0.

Definition sin (x : Q) : Q := series 12 (round53 (x * x)) x 1 0.

End Taylor.

#[export] Instance taylor_math : math.Functions := {|
  math.radians := Taylor.radians;
  math.cos := Taylor.cos;
  math.sin := Taylor.sin
|}.

(** ** The generator on the concrete library

    [TrackGenerator(seed)] with the default step length and target
    length, on CPython's stream and the stand-in for [math]. *)
Definition generator (seed0 : Z)
    : TrackGenerator Z MersenneTwister.state :=
  __init__ seed0 default_step_length default_num_points.

(** The library was run as it is: no rejection loop was cut. *)
Definition uncut (s : TrackGenerator Z MersenneTwister.state) : bool :=
  negb (MersenneTwister.cut (random s)).

(** ** The loops of [normalize_angle] on IEEE binary64 numbers

    The same two loops on the floating-point numbers of the kernel
    ([PrimFloat]), which are Python's [float]; used for the remarks on
    large magnitudes (lemma [normalize_angle_stuck]) and to compare the
    rounding of [Double] with the kernel's. *)

Module Binary64.

Local Open Scope float_scope.

Definition normalize_angle_fuel (fuel : nat) (angle : float) : option float :=
  match while_loop fuel (fun a => 180 <? a) (fun a => a - 360) angle with
  | Some angle' =>
      while_loop fuel (fun a => a <? -180) (fun a => a + 360) angle'
  | None => None
  end.

End Binary64.

(** ** IEEE 754 binary64

    The rounding of binary64 on the rationals: to the nearest multiple of
    the quantum of the binade ([2^(e - 52)] for [2^e <= |x| < 2^(e + 1)],
    and [2^-1074] below [2^-1022]), ties to the even multiple.  Overflow
    to an infinity is not modelled. *)

Module Double.

(** The nearest integer, ties to even. *)
Definition rint (x : Q) : Z :=
  let f := Qfloor x in
  match Qcompare (x - inject_Z f) (1 # 2) with
  | Lt => f
  | Gt => (f + 1)%Z
  | Eq => if Z.even f then f else (f + 1)%Z
  end.

(** [floor (log2 |x|)], for [x] other than 0. *)
Definition exponent (x : Q) : Z :=
  let e := (Z.log2 (Z.abs (Qnum x)) - Z.log2 (Zpos (Qden x)))%Z in
  if Qle_bool (2 ^ e) (Qabs x) then e else (e - 1)%Z.

Definition emin : Z := (-1022)%Z.

(** The exponent of the quantum: the binade, or the least one. *)
Definition binade (x : Q) : Z := Z.max (exponent x) emin.

Definition quantum (x : Q) : Q := 2 ^ (binade x - 52).

Definition round (x : Q) : Q :=
  if Qeq_bool x 0 then 0
  else Qred (inject_Z (rint (x / quantum x)) * quantum x).

(** The number that a finite [float] of the kernel holds. *)
Definition to_Q (f : float) : Q :=
  match Prim2SF f with
  | S754_finite s m e =>
      Qred ((if s then -1 else 1) * inject_Z (Zpos m) * 2 ^ e)
  | _ => 0
  end.

End Double.

(** ** The rounding of binary64 *)

Section DoubleProperties.

Import Double.

Lemma Qfloor_bounds (x : Q) :
  inject_Z (Qfloor x) <= x /\ x < inject_Z (Qfloor x) + 1.
Proof.
  split; [apply Qfloor_le|].
  pose proof (Qlt_floor x) as H. rewrite inject_Z_plus in H. exact H.
Qed.

Lemma rint_bounds (x : Q) : (Qfloor x <= rint x <= Qfloor x + 1)%Z.
Proof.
  unfold rint. destruct (Qcompare _ _); [destruct (Z.even _)| |]; lia.
Qed.

Lemma rint_error (x : Q) : Qabs (inject_Z (rint x) - x) <= 1 # 2.
Proof.
  destruct (Qfloor_bounds x) as [Hlo Hhi].
  apply Qabs_Qle_condition. unfold rint.
  destruct (Qcompare_spec (x - inject_Z (Qfloor x)) (1 # 2)) as [Hc|Hc|Hc];
    [destruct (Z.even (Qfloor x))| |];
    rewrite ?inject_Z_plus; change (inject_Z 1) with 1; split; lra.
Qed.

Lemma rint_le (x : Q) (k : Z) : x <= inject_Z k -> (rint x <= k)%Z.
Proof.
  intros Hx. destruct (Qfloor_bounds x) as [Hlo Hhi].
  assert (Hfloor : (Qfloor x <= k)%Z).
  { rewrite <- (Qfloor_Z k). now apply Qfloor_resp_le. }
  destruct (Z.eq_dec (Qfloor x) k) as [Heq|Hne].
  - unfold rint. rewrite Heq in Hlo |- *.
    destruct (Qcompare_spec (x - inject_Z k) (1 # 2)) as [Hc|Hc|Hc];
      [exfalso; lra|lia|exfalso; lra].
  - pose proof (rint_bounds x). lia.
Qed.

Lemma rint_ge (x : Q) (k : Z) : inject_Z k <= x -> (k <= rint x)%Z.
Proof.
  intros Hx.
  assert (Hfloor : (k <= Qfloor x)%Z).
  { rewrite <- (Qfloor_Z k). now apply Qfloor_resp_le. }
  pose proof (rint_bounds x). lia.
Qed.

Lemma rint_Z (k : Z) : rint (inject_Z k) = k.
Proof.
  apply Z.le_antisymm; [apply rint_le|apply rint_ge]; apply Qle_refl.
Qed.

Lemma rint_monotone (x y : Q) : x <= y -> (rint x <= rint y)%Z.
Proof.
  intros Hxy.
  pose proof (Qfloor_resp_le x y Hxy) as Hfloor.
  destruct (Z.eq_dec (Qfloor x) (Qfloor y)) as [Heq|Hne].
  - unfold rint. rewrite Heq.
    destruct (Qcompare_spec (x - inject_Z (Qfloor y)) (1 # 2)) as [Hx|Hx|Hx];
      destruct (Qcompare_spec (y - inject_Z (Qfloor y)) (1 # 2))
        as [Hy|Hy|Hy];
      destruct (Z.even (Qfloor y)); try lia; exfalso; lra.
  - pose proof (rint_bounds x). pose proof (rint_bounds y). lia.
Qed.

#[local] Instance rint_comp : Proper (Qeq ==> eq) rint.
Proof.
  intros x y Hxy. apply Z.le_antisymm; apply rint_monotone; rewrite Hxy;
    apply Qle_refl.
Qed.

(** *** Powers of two *)

Lemma pow2_pos (e : Z) : 0 < 2 ^ e.
Proof. now apply Qpower_0_lt. Qed.

Lemma pow2_add (a b : Z) : 2 ^ (a + b) == 2 ^ a * 2 ^ b.
Proof. apply Qpower_plus. discriminate. Qed.

Lemma pow2_succ (a : Z) : 2 ^ (a + 1) == 2 * 2 ^ a.
Proof. rewrite pow2_add. change (2 ^ 1) with 2. ring. Qed.

Lemma pow2_le (a b : Z) : (a <= b)%Z -> 2 ^ a <= 2 ^ b.
Proof. intros H. apply Qpower_le_compat_l; [exact H|discriminate]. Qed.

Lemma pow2_lt_inv (a b : Z) : 2 ^ a < 2 ^ b -> (a < b)%Z.
Proof. intros H. apply (Qpower_lt_compat_l_inv 2); [exact H|reflexivity]. Qed.

Lemma pow2_Z (n : Z) : (0 <= n)%Z -> 2 ^ n == inject_Z (2 ^ n).
Proof. intros H. symmetry. now apply (Zpower_Qpower 2). Qed.

(** *** The exponent *)

Lemma exponent_spec (x : Q) :
  ~ x == 0 -> 2 ^ exponent x <= Qabs x /\ Qabs x < 2 ^ (exponent x + 1).
Proof.
  intros Hx. unfold exponent.
  set (n := Z.abs (Qnum x)). set (d := Zpos (Qden x)).
  assert (Hn : (0 < n)%Z).
  { unfold n. destruct x as [xn xd]. unfold Qeq in Hx. cbn in *. lia. }
  assert (Hd : (0 < d)%Z) by (unfold d; lia).
  assert (Habs : Qabs x * inject_Z d == inject_Z n).
  { destruct x as [xn xd]. unfold n, d, Qabs, Qeq, Qmult, inject_Z.
    cbn. lia. }
  destruct (Z.log2_spec n Hn) as [Hn1 Hn2].
  destruct (Z.log2_spec d Hd) as [Hd1 Hd2].
  set (a := Z.log2 n) in *. set (b := Z.log2 d) in *.
  assert (Ha : (0 <= a)%Z) by apply Z.log2_nonneg.
  assert (Hb : (0 <= b)%Z) by apply Z.log2_nonneg.
  assert (HA1 : 2 ^ a <= inject_Z n).
  { rewrite (pow2_Z a Ha). rewrite <- Zle_Qle. exact Hn1. }
  assert (HA2 : inject_Z n < 2 * 2 ^ a).
  { rewrite <- pow2_succ, (pow2_Z (a + 1)) by lia. rewrite <- Zlt_Qlt.
    replace (a + 1)%Z with (Z.succ a) by lia. exact Hn2. }
  assert (HB1 : 2 ^ b <= inject_Z d).
  { rewrite (pow2_Z b Hb). rewrite <- Zle_Qle. exact Hd1. }
  assert (HB2 : inject_Z d < 2 * 2 ^ b).
  { rewrite <- pow2_succ, (pow2_Z (b + 1)) by lia. rewrite <- Zlt_Qlt.
    replace (b + 1)%Z with (Z.succ b) by lia. exact Hd2. }
  assert (HE : 2 ^ (a - b) * 2 ^ b == 2 ^ a).
  { rewrite <- pow2_add. now replace (a - b + b)%Z with a by lia. }
  pose proof (pow2_pos (a - b)) as HEpos.
  pose proof (pow2_pos b) as HBpos.
  pose proof (pow2_pos a) as HApos.
  assert (Hdpos : 0 < inject_Z d) by (change 0 with (inject_Z 0); now rewrite <- Zlt_Qlt).
  pose proof (Qabs_nonneg x) as Hxpos.
  set (X := Qabs x) in *. set (E := 2 ^ (a - b)) in *.
  set (PA := 2 ^ a) in *. set (PB := 2 ^ b) in *.
  set (D := inject_Z d) in *. set (N := inject_Z n) in *.
  assert (Hupper : X < 2 * E) by nra.
  assert (Hlower : E < 2 * X) by nra.
  destruct (Qle_bool E X) eqn:Htest.
  - apply Qle_bool_iff in Htest. split; [exact Htest|].
    rewrite pow2_succ. exact Hupper.
  - assert (Hlt : X < E).
    { apply Qnot_le_lt. intros H. apply Qle_bool_iff in H. congruence. }
    replace (a - b - 1 + 1)%Z with (a - b)%Z by lia.
    split; [|exact Hlt].
    assert (Hhalf : 2 * 2 ^ (a - b - 1) == E).
    { rewrite <- pow2_succ. unfold E.
      now replace (a - b - 1 + 1)%Z with (a - b)%Z by lia. }
    lra.
Qed.

Lemma exponent_unique (x : Q) (e : Z) :
  2 ^ e <= Qabs x -> Qabs x < 2 ^ (e + 1) -> exponent x = e.
Proof.
  intros Hlo Hhi.
  assert (Hx : ~ x == 0).
  { intros H. rewrite H in Hlo. pose proof (pow2_pos e).
    change (Qabs 0) with 0 in Hlo. lra. }
  destruct (exponent_spec x Hx) as [Hlo' Hhi'].
  assert (exponent x < e + 1)%Z by (apply pow2_lt_inv; lra).
  assert (e < exponent x + 1)%Z by (apply pow2_lt_inv; lra).
  lia.
Qed.

(** *** Rounding *)

Lemma quantum_pos (x : Q) : 0 < quantum x.
Proof. apply pow2_pos. Qed.

Lemma round_zero (x : Q) : x == 0 -> round x = 0.
Proof.
  intros Hx. unfold round.
  now rewrite (proj2 (Qeq_bool_iff x 0) Hx).
Qed.

Lemma round_eq (x : Q) :
  ~ x == 0 -> round x == inject_Z (rint (x / quantum x)) * quantum x.
Proof.
  intros Hx. unfold round.
  destruct (Qeq_bool x 0) eqn:Hzero.
  - apply Qeq_bool_iff in Hzero. contradiction.
  - apply Qred_correct.
Qed.

(** Rounding does not cross a multiple of the quantum. *)
Lemma round_le_multiple (x : Q) (k : Z) :
  ~ x == 0 ->
  x <= inject_Z k * quantum x -> round x <= inject_Z k * quantum x.
Proof.
  intros Hx Hle. rewrite (round_eq x Hx).
  pose proof (quantum_pos x) as Hq.
  apply Qmult_le_compat_r; [|lra].
  rewrite <- Zle_Qle. apply rint_le.
  apply Qle_shift_div_r; assumption.
Qed.

Lemma round_ge_multiple (x : Q) (k : Z) :
  ~ x == 0 ->
  inject_Z k * quantum x <= x -> inject_Z k * quantum x <= round x.
Proof.
  intros Hx Hle. rewrite (round_eq x Hx).
  pose proof (quantum_pos x) as Hq.
  apply Qmult_le_compat_r; [|lra].
  rewrite <- Zle_Qle. apply rint_ge.
  apply Qle_shift_div_l; assumption.
Qed.

Lemma round_nonneg (x : Q) : 0 <= x -> 0 <= round x.
Proof.
  intros Hx. destruct (Qeq_dec x 0) as [Hzero|Hnz].
  - rewrite (round_zero x Hzero). apply Qle_refl.
  - pose proof (round_ge_multiple x 0 Hnz) as H.
    change (inject_Z 0) with 0 in H. rewrite Qmult_0_l in H. now apply H.
Qed.

Lemma round_nonpos (x : Q) : x <= 0 -> round x <= 0.
Proof.
  intros Hx. destruct (Qeq_dec x 0) as [Hzero|Hnz].
  - rewrite (round_zero x Hzero). apply Qle_refl.
  - pose proof (round_le_multiple x 0 Hnz) as H.
    change (inject_Z 0) with 0 in H. rewrite Qmult_0_l in H. now apply H.
Qed.

Lemma quantum_binade (x : Q) : quantum x = 2 ^ (binade x - 52).
Proof. reflexivity. Qed.

(** The next power of two, as a multiple of the quantum. *)
Lemma binade_upper (x : Q) :
  ~ x == 0 ->
  Qabs x < 2 ^ (binade x + 1) /\
  2 ^ (binade x + 1) == inject_Z (2 ^ 53) * quantum x.
Proof.
  intros Hx. destruct (exponent_spec x Hx) as [_ Hhi]. split.
  - apply Qlt_le_trans with (2 ^ (exponent x + 1)); [exact Hhi|].
    apply pow2_le. unfold binade. lia.
  - rewrite quantum_binade, <- (pow2_Z 53), <- pow2_add by lia.
    now replace (53 + (binade x - 52))%Z with (binade x + 1)%Z by lia.
Qed.

(** The power of two below, when the number is not subnormal. *)
Lemma binade_lower (x : Q) :
  ~ x == 0 ->
  (emin <= exponent x)%Z ->
  2 ^ binade x <= Qabs x /\
  2 ^ binade x == inject_Z (2 ^ 52) * quantum x.
Proof.
  intros Hx Hnormal. destruct (exponent_spec x Hx) as [Hlo _].
  assert (Hb : binade x = exponent x) by (unfold binade; lia).
  split.
  - now rewrite Hb.
  - rewrite quantum_binade, <- (pow2_Z 52), <- pow2_add by lia.
    now replace (52 + (binade x - 52))%Z with (binade x) by lia.
Qed.

Lemma exponent_monotone (x y : Q) :
  ~ x == 0 -> Qabs x <= Qabs y -> (exponent x <= exponent y)%Z.
Proof.
  intros Hx Hxy.
  assert (Hy : ~ y == 0).
  { intros H. rewrite H in Hxy. change (Qabs 0) with 0 in Hxy.
    pose proof (Qabs_nonneg x).
    assert (Hzero : Qabs x == 0) by lra.
    apply Hx. revert Hzero. apply Qabs_case; intros; lra. }
  destruct (exponent_spec x Hx) as [Hxlo _].
  destruct (exponent_spec y Hy) as [_ Hyhi].
  assert (exponent x < exponent y + 1)%Z by (apply pow2_lt_inv; lra).
  lia.
Qed.

Lemma round_same_quantum (x y : Q) :
  ~ x == 0 -> ~ y == 0 -> binade x = binade y -> x <= y ->
  round x <= round y.
Proof.
  intros Hx Hy Hb Hxy. rewrite (round_eq x Hx), (round_eq y Hy).
  rewrite !quantum_binade, Hb.
  pose proof (pow2_pos (binade y - 52)) as Hq.
  apply Qmult_le_compat_r; [|lra].
  rewrite <- Zle_Qle. apply rint_monotone.
  apply Qmult_le_compat_r; [exact Hxy|].
  apply Qlt_le_weak, Qinv_lt_0_compat, Hq.
Qed.

Lemma round_monotone (x y : Q) : x <= y -> round x <= round y.
Proof.
  intros Hxy.
  destruct (Qlt_le_dec 0 x) as [Hxpos|Hxneg].
  - (* both positive *)
    assert (Hypos : 0 < y) by lra.
    assert (Hx : ~ x == 0) by lra. assert (Hy : ~ y == 0) by lra.
    assert (Hax : Qabs x == x) by (apply Qabs_pos; lra).
    assert (Hay : Qabs y == y) by (apply Qabs_pos; lra).
    assert (He : (exponent x <= exponent y)%Z).
    { apply exponent_monotone; [exact Hx|]. rewrite Hax, Hay. exact Hxy. }
    destruct (Z.eq_dec (binade x) (binade y)) as [Hb|Hb].
    + now apply round_same_quantum.
    + assert (Hlt : (binade x + 1 <= binade y)%Z) by (unfold binade in *; lia).
      assert (Hnormal : (emin <= exponent y)%Z) by (unfold binade in *; lia).
      destruct (binade_upper x Hx) as [Hup Hupq].
      destruct (binade_lower y Hy Hnormal) as [Hlow Hlowq].
      apply Qle_trans with (2 ^ (binade x + 1)).
      * rewrite Hupq. apply round_le_multiple; [exact Hx|].
        rewrite <- Hupq. lra.
      * apply Qle_trans with (2 ^ binade y); [now apply pow2_le|].
        rewrite Hlowq. apply round_ge_multiple; [exact Hy|].
        rewrite <- Hlowq. lra.
  - destruct (Qlt_le_dec y 0) as [Hyneg|Hypos].
    + (* both negative *)
      assert (Hx : ~ x == 0) by lra. assert (Hy : ~ y == 0) by lra.
      assert (Hax : Qabs x == - x) by (apply Qabs_neg; lra).
      assert (Hay : Qabs y == - y) by (apply Qabs_neg; lra).
      assert (He : (exponent y <= exponent x)%Z).
      { apply exponent_monotone; [exact Hy|]. rewrite Hax, Hay. lra. }
      destruct (Z.eq_dec (binade x) (binade y)) as [Hb|Hb].
      * now apply round_same_quantum.
      * assert (Hlt : (binade y + 1 <= binade x)%Z)
          by (unfold binade in *; lia).
        assert (Hnormal : (emin <= exponent x)%Z)
          by (unfold binade in *; lia).
        destruct (binade_upper y Hy) as [Hup Hupq].
        destruct (binade_lower x Hx Hnormal) as [Hlow Hlowq].
        apply Qle_trans with (- 2 ^ binade x).
        -- assert (Hm : - 2 ^ binade x == inject_Z (- 2 ^ 52) * quantum x).
           { rewrite inject_Z_opp, Hlowq. ring. }
           rewrite Hm. apply round_le_multiple; [exact Hx|].
           rewrite <- Hm. lra.
        -- apply Qle_trans with (- 2 ^ (binade y + 1)).
           ++ apply Qopp_le_compat. now apply pow2_le.
           ++ assert (Hm : - 2 ^ (binade y + 1)
                           == inject_Z (- 2 ^ 53) * quantum y).
              { rewrite inject_Z_opp, Hupq. ring. }
              rewrite Hm. apply round_ge_multiple; [exact Hy|].
              rewrite <- Hm. lra.
    + apply Qle_trans with 0; [now apply round_nonpos|now apply round_nonneg].
Qed.

Lemma round_integer (n : Z) :
  (Z.abs n < 2 ^ 53)%Z -> round (inject_Z n) == inject_Z n.
Proof.
  intros Hn. destruct (Z.eq_dec n 0) as [->|Hnz]; [reflexivity|].
  assert (Hx : ~ inject_Z n == 0).
  { change 0 with (inject_Z 0). rewrite inject_Z_injective. exact Hnz. }
  assert (Habs : Qabs (inject_Z n) == inject_Z (Z.abs n)).
  { unfold Qabs, inject_Z. cbn. reflexivity. }
  assert (Hb : (binade (inject_Z n) <= 52)%Z).
  { destruct (exponent_spec _ Hx) as [Hlo _].
    assert (exponent (inject_Z n) < 53)%Z.
    { apply pow2_lt_inv. rewrite (pow2_Z 53) by lia.
      apply Qle_lt_trans with (Qabs (inject_Z n)); [exact Hlo|].
      rewrite Habs, <- Zlt_Qlt. exact Hn. }
    unfold binade, emin. lia. }
  assert (Hm : inject_Z n
               == inject_Z (n * 2 ^ (52 - binade (inject_Z n)))
                  * quantum (inject_Z n)).
  { rewrite quantum_binade, inject_Z_mult, <- pow2_Z by lia.
    rewrite <- Qmult_assoc, <- pow2_add.
    replace (52 - binade (inject_Z n) + (binade (inject_Z n) - 52))%Z
      with 0%Z by lia.
    change (2 ^ 0) with 1. ring. }
  apply Qle_antisym.
  - rewrite Hm at 2. apply round_le_multiple; [exact Hx|].
    rewrite <- Hm. apply Qle_refl.
  - rewrite Hm at 1. apply round_ge_multiple; [exact Hx|].
    rewrite <- Hm. apply Qle_refl.
Qed.

Lemma round_error (x : Q) :
  Qabs x < inject_Z (2 ^ 62) -> Qabs (round x - x) <= 256.
Proof.
  intros Hbound. destruct (Qeq_dec x 0) as [Hzero|Hx].
  - rewrite (round_zero x Hzero), Hzero. discriminate.
  - assert (Hb : (binade x <= 61)%Z).
    { destruct (exponent_spec x Hx) as [Hlo _].
      assert (exponent x < 62)%Z.
      { apply pow2_lt_inv. rewrite (pow2_Z 62) by lia. lra. }
      unfold binade, emin. lia. }
    pose proof (quantum_pos x) as Hq.
    assert (Hq9 : quantum x <= 512).
    { rewrite quantum_binade. change 512 with (2 ^ 9).
      apply pow2_le. lia. }
    pose proof (rint_error (x / quantum x)) as Herr.
    apply Qabs_Qle_condition in Herr. destruct Herr as [Herr1 Herr2].
    assert (Hdiv : x / quantum x * quantum x == x).
    { field. lra. }
    rewrite (round_eq x Hx).
    set (r := inject_Z (rint (x / quantum x))) in *.
    set (t := x / quantum x) in *. set (q := quantum x) in *.
    apply Qabs_Qle_condition. split; nra.
Qed.





End DoubleProperties.

(** ** The two formats *)

(** The exact numbers: nothing is rounded ([Qred] puts a fraction in
    lowest terms). *)
Definition exact_numbers : Numbers.Format.
Proof.
  refine {| Numbers.rnd := Qred |}.
  - intros x y Hxy. now rewrite !Qred_correct.
  - intros n _. apply Qred_correct.
  - intros x _. rewrite Qred_correct.
    setoid_replace (x - x) with 0 by ring. discriminate.
Defined.

(** Python's [float]. *)
Definition binary64 : Numbers.Format :=
  {| Numbers.rnd := Double.round;
     Numbers.rnd_monotone := round_monotone;
     Numbers.rnd_integer := round_integer;
     Numbers.rnd_error := round_error |}.

(** ** Seeding with a string

    [random.Random(seed)] with a string: the seed is the integer that the
    bytes of the text, followed by their SHA-512 digest, spell in
    big-endian order ([Lib/random.py], [seed], version 2). *)

Module Sha512.

Local Open Scope Z_scope.

(** A [uint64_t] value. *)
Definition u64 (z : Z) : Z := z mod 2 ^ 64.

Definition rotr (x n : Z) : Z :=
  Z.lor (Z.shiftr x n) (u64 (Z.shiftl x (64 - n))).

Definition initial_hash : list Z :=
  [
   0x6a09e667f3bcc908; 0xbb67ae8584caa73b; 0x3c6ef372fe94f82b;
   0xa54ff53a5f1d36f1; 0x510e527fade682d1; 0x9b05688c2b3e6c1f;
   0x1f83d9abfb41bd6b; 0x5be0cd19137e2179
  ].

Definition K : list Z :=
  [
   0x428a2f98d728ae22; 0x7137449123ef65cd; 0xb5c0fbcfec4d3b2f;
   0xe9b5dba58189dbbc; 0x3956c25bf348b538; 0x59f111f1b605d019;
   0x923f82a4af194f9b; 0xab1c5ed5da6d8118; 0xd807aa98a3030242;
   0x12835b0145706fbe; 0x243185be4ee4b28c; 0x550c7dc3d5ffb4e2;
   0x72be5d74f27b896f; 0x80deb1fe3b1696b1; 0x9bdc06a725c71235;
   0xc19bf174cf692694; 0xe49b69c19ef14ad2; 0xefbe4786384f25e3;
   0x0fc19dc68b8cd5b5; 0x240ca1cc77ac9c65; 0x2de92c6f592b0275;
   0x4a7484aa6ea6e483; 0x5cb0a9dcbd41fbd4; 0x76f988da831153b5;
   0x983e5152ee66dfab; 0xa831c66d2db43210; 0xb00327c898fb213f;
   0xbf597fc7beef0ee4; 0xc6e00bf33da88fc2; 0xd5a79147930aa725;
   0x06ca6351e003826f; 0x142929670a0e6e70; 0x27b70a8546d22ffc;
   0x2e1b21385c26c926; 0x4d2c6dfc5ac42aed; 0x53380d139d95b3df;
   0x650a73548baf63de; 0x766a0abb3c77b2a8; 0x81c2c92e47edaee6;
   0x92722c851482353b; 0xa2bfe8a14cf10364; 0xa81a664bbc423001;
   0xc24b8b70d0f89791; 0xc76c51a30654be30; 0xd192e819d6ef5218;
   0xd69906245565a910; 0xf40e35855771202a; 0x106aa07032bbd1b8;
   0x19a4c116b8d2d0c8; 0x1e376c085141ab53; 0x2748774cdf8eeb99;
   0x34b0bcb5e19b48a8; 0x391c0cb3c5c95a63; 0x4ed8aa4ae3418acb;
   0x5b9cca4f7763e373; 0x682e6ff3d6b2b8a3; 0x748f82ee5defb2fc;
   0x78a5636f43172f60; 0x84c87814a1f0ab72; 0x8cc702081a6439ec;
   0x90befffa23631e28; 0xa4506cebde82bde9; 0xbef9a3f7b2c67915;
   0xc67178f2e372532b; 0xca273eceea26619c; 0xd186b8c721c0c207;
   0xeada7dd6cde0eb1e; 0xf57d4f7fee6ed178; 0x06f067aa72176fba;
   0x0a637dc5a2c898a6; 0x113f9804bef90dae; 0x1b710b35131c471b;
   0x28db77f523047d84; 0x32caab7b40c72493; 0x3c9ebe0a15c9bebc;
   0x431d67c49c100d4c; 0x4cc5d4becb3e42b6; 0x597f299cfc657e2a;
   0x5fcb6fab3ad6faec; 0x6c44198c4a475817
  ].

Definition Ch (x y z : Z) : Z :=
  Z.lxor (Z.land x y) (Z.land (Z.lxor x (2 ^ 64 - 1)) z).

Definition Maj (x y z : Z) : Z :=
  Z.lxor (Z.lxor (Z.land x y) (Z.land x z)) (Z.land y z).

Definition Sigma0 (x : Z) : Z :=
  Z.lxor (Z.lxor (rotr x 28) (rotr x 34)) (rotr x 39).

Definition Sigma1 (x : Z) : Z :=
  Z.lxor (Z.lxor (rotr x 14) (rotr x 18)) (rotr x 41).

Definition sigma0 (x : Z) : Z :=
  Z.lxor (Z.lxor (rotr x 1) (rotr x 8)) (Z.shiftr x 7).

Definition sigma1 (x : Z) : Z :=
  Z.lxor (Z.lxor (rotr x 19) (rotr x 61)) (Z.shiftr x 6).

(** The integer that bytes spell, most significant first. *)
Definition from_bytes (bytes : list Z) : Z :=
  fold_left (fun n b => n * 256 + b) bytes 0.

(** The [count] bytes of an integer, most significant first. *)
Fixpoint to_bytes (count : nat) (n : Z) : list Z :=
  match count with
  | O => []
  | S count' => to_bytes count' (n / 256) ++ [n mod 256]
  end.

(** The message followed by the bit 1, zeros up to 112 modulo 128 bytes,
    and its length in bits on 16 bytes. *)
Definition pad (message : list Z) : list Z :=
  let l := Z.of_nat (length message) in
  let zeros := Z.to_nat ((111 - l) mod 128) in
  message ++ [0x80] ++ repeat 0 zeros ++ to_bytes 16 (8 * l).

(** The 64-bit words of a run of bytes. *)
Fixpoint words (count : nat) (bytes : list Z) : list Z :=
  match count with
  | O => []
  | S count' => from_bytes (firstn 8 bytes) :: words count' (skipn 8 bytes)
  end.

(** The message schedule: [w] holds the words [W_0 .. W_(t-1)], the last
    one first. *)
Fixpoint schedule (count : nat) (w : list Z) : list Z :=
  match count with
  | O => w
  | S count' =>
      let next := u64 (sigma1 (nth 1 w 0) + nth 6 w 0
                       + sigma0 (nth 14 w 0) + nth 15 w 0) in
      schedule count' (next :: w)
  end.

Record registers : Type := mkRegisters {
  a : Z; b : Z; c : Z; d : Z; e : Z; f : Z; g : Z; h : Z
}.

Definition round (r : registers) (kw : Z * Z) : registers :=
  let (k, w) := kw in
  let T1 := h r + Sigma1 (e r) + Ch (e r) (f r) (g r) + k + w in
  let T2 := Sigma0 (a r) + Maj (a r) (b r) (c r) in
  mkRegisters (u64 (T1 + T2)) (a r) (b r) (c r) (u64 (d r + T1))
    (e r) (f r) (g r).

Definition compress (hash : list Z) (block : list Z) : list Z :=
  let w := rev (schedule 64 (rev (words 16 block))) in
  let r0 := mkRegisters (nth 0 hash 0) (nth 1 hash 0) (nth 2 hash 0)
              (nth 3 hash 0) (nth 4 hash 0) (nth 5 hash 0) (nth 6 hash 0)
              (nth 7 hash 0) in
  let r := fold_left round (combine K w) r0 in
  map (fun p => u64 (fst p + snd p))
    (combine hash [a r; b r; c r; d r; e r; f r; g r; h r]).

Fixpoint blocks (count : nat) (hash : list Z) (bytes : list Z) : list Z :=
  match count with
  | O => hash
  | S count' => blocks count' (compress hash (firstn 128 bytes))
                  (skipn 128 bytes)
  end.

Definition digest (message : list Z) : list Z :=
  let padded := pad message in
  flat_map (to_bytes 8)
    (blocks (length padded / 128) initial_hash padded).

End Sha512.

(** [a.encode()]: the bytes of a text. *)
Definition encode (text : String.string) : list Z :=
  map (fun ch => Z.of_nat (Ascii.nat_of_ascii ch))
    (String.list_ascii_of_string text).

(** [random.Random(text)] *)
Definition seed_with_text (text : String.string) : MersenneTwister.state :=
  let bytes := encode text in
  MersenneTwister.seed (Sha512.from_bytes (bytes ++ Sha512.digest bytes)).

(** ** The builtins [int] and [str]

    [str] prints an integer in decimal, with a minus sign when negative.
    [int] reads a text as CPython does ([PyLong_FromString], base 10):
    blanks around it are dropped, a sign may come first, the digits may
    be separated by single underscores, and more than 4300 digits are
    refused.  The text is read as ASCII: a character outside ASCII makes
    it not numeric here, where CPython also reads the digits and skips
    the blanks of other scripts. *)

Module builtins.

Import Ascii.

Local Open Scope Z_scope.

Definition code (ch : ascii) : Z := Z.of_nat (nat_of_ascii ch).

(** [Py_ISSPACE] *)
Definition is_space (ch : ascii) : bool :=
  ((9 <=? code ch) && (code ch <=? 13) || (code ch =? 32))%bool.

Definition digit_value (ch : ascii) : option Z :=
  if ((48 <=? code ch) && (code ch <=? 57))%bool then Some (code ch - 48)
  else None.

Definition digit_char (d : Z) : ascii := ascii_of_nat (Z.to_nat (48 + d)).

Fixpoint drop_spaces (chars : list ascii) : list ascii :=
  match chars with
  | [] => []
  | ch :: rest => if is_space ch then drop_spaces rest else chars
  end.

Definition strip (chars : list ascii) : list ascii :=
  rev (drop_spaces (rev (drop_spaces chars))).

(** Digits, each but the first after at most one underscore. *)
Fixpoint read_digits (chars : list ascii) : option (list Z) :=
  match chars with
  | [] => None
  | ch :: rest =>
      match digit_value ch with
      | None => None
      | Some d =>
          match rest with
          | [] => Some [d]
          | next :: rest' =>
              option_map (cons d)
                (if (code next =? 95) then read_digits rest'
                 else read_digits rest)
          end
      end
  end.

Definition value (digits : list Z) : Z :=
  fold_left (fun n d => 10 * n + d) digits 0.

Definition max_str_digits : Z := 4300.

Definition int (text : String.string) : option Z :=
  let chars := strip (String.list_ascii_of_string text) in
  let (negative, body) :=
    match chars with
    | ch :: rest =>
        if code ch =? 45 then (true, rest)
        else if code ch =? 43 then (false, rest)
        else (false, chars)
    | [] => (false, chars)
    end in
  match read_digits body with
  | Some digits =>
      if Z.of_nat (length digits) <=? max_str_digits then
        Some (if negative then - value digits else value digits)
      else None
  | None => None
  end.

(** The decimal digits of a non-negative integer, the last one first. *)
Fixpoint digits_of (fuel : nat) (n : Z) : list Z :=
  match fuel with
  | O => [n mod 10]
  | S fuel' =>
      if n <? 10 then [n] else n mod 10 :: digits_of fuel' (n / 10)
  end.

Definition str (n : Z) : String.string :=
  let digits := rev (digits_of (Z.to_nat (Z.log2 (Z.abs n))) (Z.abs n)) in
  String.string_of_list_ascii
    ((if n <? 0 then [ascii_of_nat 45] else []) ++ map digit_char digits).

End builtins.

(** ** The application on the concrete library *)

#[export] Instance python_stream
    : Random.Source App.seed_value MersenneTwister.state := {|
  Random.Random := fun seed0 =>
    match seed0 with
    | App.IntSeed n => MersenneTwister.seed n
    | App.StrSeed text => seed_with_text text
    end;
  Random.random := MersenneTwister.random;
  Random.randint := MersenneTwister.randint;
  Random.random_range := MersenneTwister.random_range;
  Random.randint_range := MersenneTwister.randint_range
|}.

(** ** The builtins [int] and [str] *)

Section BuiltinsProperties.

Import builtins.

Local Open Scope Z_scope.

Lemma code_digit_char (d : Z) : 0 <= d <= 9 -> code (digit_char d) = 48 + d.
Proof.
  intros Hd. unfold code, digit_char.
  rewrite Ascii.nat_ascii_embedding; lia.
Qed.

Lemma digit_value_digit_char (d : Z) :
  0 <= d <= 9 -> digit_value (digit_char d) = Some d.
Proof.
  intros Hd. unfold digit_value. rewrite (code_digit_char d Hd).
  replace ((48 <=? 48 + d) && (48 + d <=? 57))%bool with true.
  - f_equal. lia.
  - symmetry. apply andb_true_iff. split; apply Z.leb_le; lia.
Qed.

Lemma is_space_digit_char (d : Z) :
  0 <= d <= 9 -> is_space (digit_char d) = false.
Proof.
  intros Hd. unfold is_space. rewrite (code_digit_char d Hd).
  apply orb_false_iff. split.
  - apply andb_false_iff. right. apply Z.leb_gt. lia.
  - apply Z.eqb_neq. lia.
Qed.

Lemma read_digits_digit_chars (digits : list Z) :
  digits <> [] ->
  Forall (fun d => 0 <= d <= 9) digits ->
  read_digits (map digit_char digits) = Some digits.
Proof.
  induction digits as [|d digits IH]; [congruence|].
  intros _ Hall. inversion Hall as [|? ? Hd Hrest]; subst.
  cbn [map read_digits]. rewrite (digit_value_digit_char d Hd).
  destruct digits as [|d' digits]; [reflexivity|].
  cbn [map]. inversion Hrest as [|? ? Hd' _]; subst.
  rewrite (code_digit_char d' Hd').
  replace (48 + d' =? 95) with false by (symmetry; apply Z.eqb_neq; lia).
  change (digit_char d' :: map digit_char digits)
    with (map digit_char (d' :: digits)).
  rewrite IH; [reflexivity|discriminate|exact Hrest].
Qed.

Lemma drop_spaces_none (chars : list Ascii.ascii) :
  Forall (fun ch => is_space ch = false) chars -> drop_spaces chars = chars.
Proof.
  intros Hall. destruct chars as [|ch rest]; [reflexivity|].
  inversion Hall as [|? ? Hch _]; subst. cbn [drop_spaces]. now rewrite Hch.
Qed.

Lemma strip_none (chars : list Ascii.ascii) :
  Forall (fun ch => is_space ch = false) chars -> strip chars = chars.
Proof.
  intros Hall. unfold strip.
  rewrite (drop_spaces_none chars Hall).
  rewrite drop_spaces_none by now apply Forall_rev.
  apply rev_involutive.
Qed.

Lemma value_snoc (digits : list Z) (d : Z) :
  value (digits ++ [d]) = 10 * value digits + d.
Proof. unfold value. now rewrite fold_left_app. Qed.

(** The digits that [str] prints. *)
Lemma digits_of_spec (fuel : nat) :
  forall n : Z,
    0 <= n < 2 ^ (Z.of_nat fuel + 1) ->
    let digits := digits_of fuel n in
    digits <> [] /\
    Forall (fun d => 0 <= d <= 9) digits /\
    value (rev digits) = n /\
    forall k : nat, n < 10 ^ Z.of_nat (S k) -> (length digits <= S k)%nat.
Proof.
  induction fuel as [|fuel IH]; intros n Hn; cbn zeta.
  - assert (Hsmall : n < 10) by (cbn in Hn; lia).
    cbn [digits_of]. rewrite Z.mod_small by lia.
    split; [discriminate|]. split; [repeat constructor; lia|].
    split; [cbn; lia|]. intros k _. cbn. lia.
  - cbn [digits_of]. destruct (n <? 10) eqn:Hsmall.
    + apply Z.ltb_lt in Hsmall.
      split; [discriminate|]. split; [repeat constructor; lia|].
      split; [cbn; lia|]. intros k _. cbn. lia.
    + apply Z.ltb_ge in Hsmall.
      assert (Hquotient : 0 <= n / 10 < 2 ^ (Z.of_nat fuel + 1)).
      { split; [apply Z.div_pos; lia|].
        apply Z.div_lt_upper_bound; [lia|].
        replace (Z.of_nat (S fuel) + 1) with (Z.succ (Z.of_nat fuel + 1))
          in Hn by lia.
        rewrite Z.pow_succ_r in Hn by lia.
        assert (0 < 2 ^ (Z.of_nat fuel + 1)) by (apply Z.pow_pos_nonneg; lia).
        lia. }
      destruct (IH (n / 10) Hquotient) as (_ & Hall & Hvalue & Hlength).
      split; [discriminate|]. split.
      { constructor; [|exact Hall].
        pose proof (Z.mod_pos_bound n 10 ltac:(lia)). lia. }
      split.
      { cbn [rev]. rewrite value_snoc, Hvalue.
        pose proof (Z.div_mod n 10 ltac:(lia)). lia. }
      intros k Hk. cbn [length]. apply le_n_S.
      destruct k as [|k].
      { cbn in Hk. lia. }
      apply Hlength. apply Z.div_lt_upper_bound; [lia|].
      rewrite <- Z.pow_succ_r by lia.
      replace (Z.succ (Z.of_nat (S k))) with (Z.of_nat (S (S k))) by lia.
      exact Hk.
Qed.

(** [int] reads back what [str] prints. *)
Lemma int_reads_str (n : Z) : Z.abs n < 10 ^ 4300 -> int (str n) = Some n.
Proof.
  intros Hn.
  assert (Hfuel : 0 <= Z.abs n
                  < 2 ^ (Z.of_nat (Z.to_nat (Z.log2 (Z.abs n))) + 1)).
  { split; [lia|]. rewrite Z2Nat.id by apply Z.log2_nonneg.
    destruct (Z.eq_dec (Z.abs n) 0) as [Hzero|Hpos].
    - rewrite Hzero. cbn. lia.
    - apply Z.log2_spec. lia. }
  destruct (digits_of_spec _ _ Hfuel) as (Hnonempty & Hall & Hvalue & Hlength).
  cbn zeta in Hnonempty, Hall, Hvalue.
  specialize (Hlength 4299%nat Hn).
  unfold int, str.
  set (digits := rev (digits_of _ _)) in *.
  assert (Hnonempty' : digits <> []).
  { unfold digits. intros Hnil. apply (f_equal (@rev Z)) in Hnil.
    rewrite rev_involutive in Hnil. contradiction. }
  assert (Hall' : Forall (fun d => 0 <= d <= 9) digits)
    by now apply Forall_rev.
  assert (Hlength' : (Z.of_nat (length digits) <=? max_str_digits) = true).
  { apply Z.leb_le. unfold digits, max_str_digits.
    rewrite length_rev. lia. }
  assert (Hspaces : Forall (fun ch => is_space ch = false)
                      (map digit_char digits)).
  { rewrite Forall_map. eapply Forall_impl; [|exact Hall'].
    intros d Hd. now apply is_space_digit_char. }
  rewrite String.list_ascii_of_string_of_list_ascii.
  destruct (n <? 0) eqn:Hnegative.
  - apply Z.ltb_lt in Hnegative. rewrite strip_none.
    + cbn [app]. change (code (Ascii.ascii_of_nat 45) =? 45) with true.
      cbv iota. rewrite (read_digits_digit_chars _ Hnonempty' Hall').
      rewrite Hlength'. f_equal. lia.
    + constructor; [reflexivity|exact Hspaces].
  - apply Z.ltb_ge in Hnegative. cbn [app]. rewrite (strip_none _ Hspaces).
    destruct digits as [|d rest] eqn:Hdigits; [congruence|].
    cbn [map]. inversion Hall' as [|? ? Hd _]; subst.
    rewrite (code_digit_char d Hd).
    replace (48 + d =? 45) with false by (symmetry; apply Z.eqb_neq; lia).
    replace (48 + d =? 43) with false by (symmetry; apply Z.eqb_neq; lia).
    change (digit_char d :: map digit_char rest)
      with (map digit_char (d :: rest)).
    rewrite (read_digits_digit_chars _ Hnonempty' Hall').
    rewrite Hlength'. f_equal. lia.
Qed.

End BuiltinsProperties.

#[export] Instance python_builtins : App.Builtins := {|
  App.int := builtins.int;
  App.str := builtins.str;
  App.int_str := int_reads_str
|}.

(** The application as it starts, the module-level stream seeded with
    [seed0]. *)
Definition application (seed0 : Z) : App.TrackApp MersenneTwister.state :=
  App.__init__ (MersenneTwister.seed seed0).

(** The application with [length0] typed into the length entry while the
    callbacks [queue] of a live generation are scheduled. *)
Definition application_with (seed0 length0 : Z) (queue : list Z)
    : App.TrackApp MersenneTwister.state :=
  App.mkTrackApp (MersenneTwister.seed seed0) "12345"%string (Some length0)
    false None [] [] [] [] [] queue.

(** * Properties *)

(** ** Comparisons *)

Lemma Qltb_true (x y : Q) : (x <? y) = true <-> x < y.
Proof.
  unfold Qltb. rewrite Qlt_alt. destruct (x ?= y); intuition congruence.
Qed.

Lemma Qltb_false (x y : Q) : (x <? y) = false <-> y <= x.
Proof.
  unfold Qltb. rewrite Qle_alt, <- Qcompare_antisym.
  destruct (y ?= x); simpl; split; intros H; try discriminate;
    try reflexivity; now elim H.
Qed.

Lemma Qgtb_true (x y : Q) : (x >? y) = true <-> y < x.
Proof. apply Qltb_true. Qed.

Lemma Qgtb_false (x y : Q) : (x >? y) = false <-> x <= y.
Proof. apply Qltb_false. Qed.

#[export] Instance Qltb_comp : Proper (Qeq ==> Qeq ==> eq) Qltb.
Proof.
  intros x x' Hx y y' Hy. unfold Qltb. now rewrite Hx, Hy.
Qed.

#[export] Instance Qgtb_comp : Proper (Qeq ==> Qeq ==> eq) Qgtb.
Proof.
  intros x x' Hx y y' Hy. unfold Qgtb. now rewrite Hx, Hy.
Qed.

(** ** Arithmetic in lowest terms *)

Lemma padd_eq (x y : Q) : x +! y == x + y.
Proof. apply Qred_correct. Qed.

Lemma psub_eq (x y : Q) : x -! y == x - y.
Proof. apply Qred_correct. Qed.

Lemma pmul_eq (x y : Q) : x *! y == x * y.
Proof. apply Qred_correct. Qed.

Lemma pdiv_eq (x y : Q) : x /! y == x / y.
Proof. apply Qred_correct. Qed.

#[export] Instance padd_comp : Proper (Qeq ==> Qeq ==> Qeq) padd.
Proof. intros x x' Hx y y' Hy. now rewrite !padd_eq, Hx, Hy. Qed.

#[export] Instance psub_comp : Proper (Qeq ==> Qeq ==> Qeq) psub.
Proof. intros x x' Hx y y' Hy. now rewrite !psub_eq, Hx, Hy. Qed.

#[export] Instance pmul_comp : Proper (Qeq ==> Qeq ==> Qeq) pmul.
Proof. intros x x' Hx y y' Hy. now rewrite !pmul_eq, Hx, Hy. Qed.

(** ** The loops of normalize_angle *)

Lemma while_loop_more {A : Type} (cond : A -> bool) (body : A -> A) :
  forall (n m : nat) (x r : A),
    (n <= m)%nat ->
    while_loop n cond body x = Some r ->
    while_loop m cond body x = Some r.
Proof.
  induction n as [|n IH]; intros m x r Hle Hrun; [discriminate|].
  destruct m as [|m]; [lia|].
  simpl in *. destruct (cond x); [|assumption].
  apply IH; [lia|assumption].
Qed.

(** The first loop, started at most [n] turns above the range. *)
Lemma down_loop_spec :
  forall (n : nat) (a : Q),
    a <= 180 + 360 * inject_Z (Z.of_nat n) ->
    exists r : Q,
      while_loop (S n) (fun a => a >? 180) (fun a => a -! 360) a = Some r /\
      r <= 180 /\
      (180 < a -> -180 < r) /\
      (a <= 180 -> r = a) /\
      exists k : nat, r == a - 360 * inject_Z (Z.of_nat k).
Proof.
  induction n as [|n IH]; intros a Ha.
  - assert (Hle : a <= 180) by (change (inject_Z (Z.of_nat 0)) with 0 in Ha; lra).
    exists a. simpl. rewrite (proj2 (Qgtb_false a 180) Hle).
    repeat split; auto; try lra.
    exists O. change (inject_Z (Z.of_nat 0)) with 0. lra.
  - cbn [while_loop]. destruct (a >? 180) eqn:Hc.
    + apply Qgtb_true in Hc.
      pose proof (psub_eq a 360) as Hsub.
      destruct (IH (a -! 360)) as (r & Hrun & Hr & Hlow & Hsame & k & Hk).
      { rewrite Nat2Z.inj_succ, <- Z.add_1_r, inject_Z_plus in Ha.
        change (inject_Z 1) with 1 in Ha. lra. }
      exists r. split; [exact Hrun|]. repeat split.
      * exact Hr.
      * intros _. destruct (Qlt_le_dec 180 (a -! 360)) as [Hbig|Hsmall].
        -- auto.
        -- rewrite (Hsame Hsmall). lra.
      * intros Hle. lra.
      * exists (S k). rewrite Nat2Z.inj_succ, <- Z.add_1_r, inject_Z_plus.
        change (inject_Z 1) with 1. lra.
    + apply Qgtb_false in Hc. exists a. repeat split; auto; try lra.
      exists O. change (inject_Z (Z.of_nat 0)) with 0. lra.
Qed.

(** The second loop, started at most [n] turns below the range. *)
Lemma up_loop_spec :
  forall (n : nat) (a : Q),
    -180 - 360 * inject_Z (Z.of_nat n) <= a ->
    exists r : Q,
      while_loop (S n) (fun a => a <? -180) (fun a => a +! 360) a = Some r /\
      -180 <= r /\
      (a < -180 -> r < 180) /\
      (-180 <= a -> r = a) /\
      exists k : nat, r == a + 360 * inject_Z (Z.of_nat k).
Proof.
  induction n as [|n IH]; intros a Ha.
  - assert (Hle : -180 <= a) by (change (inject_Z (Z.of_nat 0)) with 0 in Ha; lra).
    exists a. simpl. rewrite (proj2 (Qltb_false a (-180)) Hle).
    repeat split; auto; try lra.
    exists O. change (inject_Z (Z.of_nat 0)) with 0. lra.
  - cbn [while_loop]. destruct (a <? -180) eqn:Hc.
    + apply Qltb_true in Hc.
      pose proof (padd_eq a 360) as Hadd.
      destruct (IH (a +! 360)) as (r & Hrun & Hr & Hup & Hsame & k & Hk).
      { rewrite Nat2Z.inj_succ, <- Z.add_1_r, inject_Z_plus in Ha.
        change (inject_Z 1) with 1 in Ha. lra. }
      exists r. split; [exact Hrun|]. repeat split.
      * exact Hr.
      * intros _. destruct (Qlt_le_dec (a +! 360) (-180)) as [Hbig|Hsmall].
        -- auto.
        -- rewrite (Hsame Hsmall). lra.
      * intros Hle. lra.
      * exists (S k). rewrite Nat2Z.inj_succ, <- Z.add_1_r, inject_Z_plus.
        change (inject_Z 1) with 1. lra.
    + apply Qltb_false in Hc. exists a. repeat split; auto; try lra.
      exists O. change (inject_Z (Z.of_nat 0)) with 0. lra.
Qed.

Lemma normalize_bound_above (a : Q) :
  a <= 180 + 360 * inject_Z (Z.of_nat (pred (normalize_bound a))).
Proof.
  unfold normalize_bound. cbn [pred].
  set (f := Qfloor a). set (q := (Z.abs f / 360)%Z).
  assert (Hq : (0 <= q)%Z) by (apply Z.div_pos; lia).
  assert (Hf : (f + 1 <= 360 * (q + 1))%Z).
  { pose proof (Z.mul_succ_div_gt (Z.abs f) 360 ltac:(lia)). fold q in H. lia. }
  rewrite Nat2Z.inj_succ, Z2Nat.id by exact Hq.
  pose proof (Qlt_floor a) as Hlt. fold f in Hlt.
  rewrite Zle_Qle, inject_Z_mult in Hf.
  change (inject_Z 360) with 360 in Hf.
  unfold Z.succ. lra.
Qed.

Lemma normalize_bound_below (a : Q) :
  -180 - 360 * inject_Z (Z.of_nat (pred (normalize_bound a))) <= a.
Proof.
  unfold normalize_bound. cbn [pred].
  set (f := Qfloor a). set (q := (Z.abs f / 360)%Z).
  assert (Hq : (0 <= q)%Z) by (apply Z.div_pos; lia).
  assert (Hf : (- (360 * (q + 1)) <= f)%Z).
  { pose proof (Z.mul_succ_div_gt (Z.abs f) 360 ltac:(lia)). fold q in H. lia. }
  rewrite Nat2Z.inj_succ, Z2Nat.id by exact Hq.
  pose proof (Qfloor_le a) as Hle. fold f in Hle.
  rewrite Zle_Qle, inject_Z_opp, inject_Z_mult in Hf.
  change (inject_Z 360) with 360 in Hf.
  unfold Z.succ. lra.
Qed.

(** What the two loops compute, with the bound that [normalize_angle]
    gives them: the bound is not reached, the result lies in
    [[-180, 180]], differs from the argument by a whole number of turns
    and is the argument itself when that is in range. *)
Lemma normalize_angle_fuel_spec (a : Q) :
  exists r : Q,
    normalize_angle_fuel (normalize_bound a) a = Some r /\
    -180 <= r /\ r <= 180 /\
    (180 < a -> -180 < r) /\
    (a < -180 -> r < 180) /\
    (-180 <= a -> a <= 180 -> r = a) /\
    exists k : Z, r == a + 360 * inject_Z k.
Proof.
  unfold normalize_angle_fuel.
  assert (Hfuel : normalize_bound a = S (pred (normalize_bound a)))
    by reflexivity.
  destruct (down_loop_spec _ a (normalize_bound_above a))
    as (r1 & Hrun1 & Hr1 & Hlow1 & Hsame1 & k1 & Hk1).
  rewrite <- Hfuel in Hrun1. rewrite Hrun1.
  destruct (Qlt_le_dec 180 a) as [Hbig|Hsmall].
  - specialize (Hlow1 Hbig).
    destruct (up_loop_spec O r1) as (r2 & Hrun2 & _ & _ & Hsame2 & _).
    { change (inject_Z (Z.of_nat 0)) with 0. lra. }
    rewrite (Hsame2 ltac:(lra)) in Hrun2.
    exists r1. split.
    { apply (while_loop_more _ _ 1); [unfold normalize_bound; lia|exact Hrun2]. }
    repeat split; try lra.
    exists (- Z.of_nat k1)%Z. rewrite inject_Z_opp. lra.
  - rewrite (Hsame1 Hsmall) in *. clear Hrun1 Hlow1 Hsame1 k1 Hk1 Hr1.
    destruct (up_loop_spec _ a (normalize_bound_below a))
      as (r2 & Hrun2 & Hr2 & Hup2 & Hsame2 & k2 & Hk2).
    rewrite <- Hfuel in Hrun2. exists r2. split; [exact Hrun2|].
    destruct (Qlt_le_dec a (-180)) as [Hneg|Hin].
    + specialize (Hup2 Hneg). repeat split; try lra.
      exists (Z.of_nat k2). lra.
    + rewrite (Hsame2 Hin). repeat split; try lra.
      exists 0%Z. change (inject_Z 0) with 0. lra.
Qed.

Lemma normalize_angle_fuel_more (n m : nat) (a r : Q) :
  (n <= m)%nat ->
  normalize_angle_fuel n a = Some r ->
  normalize_angle_fuel m a = Some r.
Proof.
  unfold normalize_angle_fuel. intros Hle.
  destruct (while_loop n _ _ a) as [a'|] eqn:Hdown; [|discriminate].
  rewrite (while_loop_more _ _ n m a a' Hle Hdown).
  apply while_loop_more. exact Hle.
Qed.

(** The bound of [normalize_angle] is never reached: any larger bound
    gives the same result, so the loops of the source terminate. *)
Lemma normalize_angle_fuel_enough (fuel : nat) (a : Q) :
  (normalize_bound a <= fuel)%nat ->
  normalize_angle_fuel fuel a = Some (normalize_angle a).
Proof.
  intros Hle. destruct (normalize_angle_fuel_spec a) as (r & Hrun & _).
  unfold normalize_angle. rewrite Hrun.
  exact (normalize_angle_fuel_more _ _ _ _ Hle Hrun).
Qed.

Lemma normalize_angle_spec (a : Q) :
  -180 <= normalize_angle a /\ normalize_angle a <= 180 /\
  (180 < a -> -180 < normalize_angle a) /\
  (a < -180 -> normalize_angle a < 180) /\
  (-180 <= a -> a <= 180 -> normalize_angle a = a) /\
  exists k : Z, normalize_angle a == a + 360 * inject_Z k.
Proof.
  destruct (normalize_angle_fuel_spec a) as (r & Hrun & H).
  unfold normalize_angle. rewrite Hrun. exact H.
Qed.

Lemma normalize_angle_in_range (a : Q) :
  -180 <= a -> a <= 180 -> normalize_angle a = a.
Proof. apply normalize_angle_spec. Qed.

Lemma normalize_angle_bounds (a : Q) :
  -180 <= normalize_angle a /\ normalize_angle a <= 180.
Proof. destruct (normalize_angle_spec a) as (H1 & H2 & _). now split. Qed.

Lemma while_loop_Qeq (cond : Q -> bool) (body : Q -> Q) :
  Proper (Qeq ==> eq) cond ->
  Proper (Qeq ==> Qeq) body ->
  forall (n : nat) (a b : Q),
    a == b ->
    match while_loop n cond body a, while_loop n cond body b with
    | Some x, Some y => x == y
    | None, None => True
    | _, _ => False
    end.
Proof.
  intros Hcond Hbody. induction n as [|n IH]; intros a b Hab; simpl; [exact I|].
  rewrite (Hcond a b Hab). destruct (cond b).
  - apply IH. now apply Hbody.
  - exact Hab.
Qed.

(** Equal rationals are normalised to equal rationals. *)
#[export] Instance normalize_angle_comp : Proper (Qeq ==> Qeq) normalize_angle.
Proof.
  intros a b Hab. unfold normalize_angle, normalize_bound.
  rewrite (Qfloor_comp a b Hab).
  set (n := S (S _)). unfold normalize_angle_fuel.
  assert (Hdown := while_loop_Qeq (fun a => a >? 180) (fun a => a -! 360)
            ltac:(intros x y E; now rewrite E)
            ltac:(intros x y E; now rewrite E) n a b Hab).
  destruct (while_loop n _ _ a) as [a'|], (while_loop n _ _ b) as [b'|];
    try contradiction; [|exact Hab].
  assert (Hup := while_loop_Qeq (fun a => a <? -180) (fun a => a +! 360)
            ltac:(intros x y E; now rewrite E)
            ltac:(intros x y E; now rewrite E) n a' b' Hdown).
  destruct (while_loop n _ _ a'), (while_loop n _ _ b');
    try contradiction; assumption.
Qed.

(** ** Running the methods *)

Section Runs.

Context {Seed G : Type} `{RS : Random.Source Seed G} `{MF : math.Functions}.

(** [would_cause_backtrack] reads [self] and leaves it as it is. *)
Lemma would_cause_backtrack_run (p : Q) (s : TrackGenerator Seed G) :
  would_cause_backtrack p s =
    (orb (Qabs (normalize_angle (p -! initial_direction s))
            >? backtrack_threshold s)
         (Qabs (normalize_angle (p -! initial_direction s))
            >? max_cumulative_turn s), s).
Proof.
  unfold would_cause_backtrack, bind, gets, ret.
  destruct (_ >? backtrack_threshold s); [reflexivity|].
  destruct (_ >? max_cumulative_turn s); reflexivity.
Qed.

Lemma would_cause_backtrack_eq (p : Q) (s : TrackGenerator Seed G) :
  would_cause_backtrack p s = (backtracks s p, s).
Proof.
  unfold backtracks. now rewrite would_cause_backtrack_run.
Qed.

Lemma get_safe_turn_angle_run (d : Q) (s : TrackGenerator Seed G) :
  get_safe_turn_angle d s = (safe_turn_angle s d, s).
Proof.
  unfold get_safe_turn_angle, safe_turn_angle, candidate, bind, gets, ret.
  rewrite !would_cause_backtrack_eq.
  destruct (backtracks s _); [|reflexivity]. cbn [negb].
  rewrite !would_cause_backtrack_eq.
  destruct (backtracks s _); [|reflexivity]. cbn [negb].
  rewrite !would_cause_backtrack_eq.
  destruct (backtracks s _); reflexivity.
Qed.

Lemma backtracks_ext (s t : TrackGenerator Seed G) (p : Q) :
  same_limits s t -> backtracks s p = backtracks t p.
Proof.
  intros (_ & Hi & Ht & Hc). unfold backtracks.
  rewrite !would_cause_backtrack_run. cbn [fst]. now rewrite Hi, Ht, Hc.
Qed.

Lemma safe_turn_angle_ext (s t : TrackGenerator Seed G) (d : Q) :
  same_limits s t -> safe_turn_angle s d = safe_turn_angle t d.
Proof.
  intros H. unfold safe_turn_angle, candidate.
  rewrite !(backtracks_ext s t _ H). destruct H as (Hcur & _).
  now rewrite Hcur.
Qed.

End Runs.

(** ** Tactics for the runs of the methods *)

(** Split a conjunction into its members, leaving each as it is. *)
Ltac split_all := repeat match goal with |- _ /\ _ => split end.

Ltac run_method :=
  unfold choose_direction, step_turn,
    start_big_turn, get_smoothed_angle, random_sign, draw,
    Random.uniform, bind, gets, assign, ret;
  rewrite ?get_safe_turn_angle_run, ?would_cause_backtrack_eq.

Ltac split_run :=
  repeat (cbn -[Qabs Qplus Qminus Qmult Qdiv Qopp Qltb Qgtb Z.sub Z.ltb
                normalize_angle np_mean last_n len append
                would_cause_backtrack get_safe_turn_angle];
          rewrite ?get_safe_turn_angle_run, ?would_cause_backtrack_eq;
          match goal with
          | |- context [Random.random ?g] =>
              destruct (Random.random g) as [? ?] eqn:?
          | |- context [Random.randint ?a ?b ?g] =>
              destruct (Random.randint a b g) as [? ?] eqn:?
          | |- context [if ?c then _ else _] => destruct c eqn:?
          end).

(** Bring the tests on an updated instance back to the instance [s]. *)
Ltac back_to s :=
  repeat match goal with
    | |- context [safe_turn_angle ?t ?d] =>
        lazymatch t with
        | s => fail
        | _ => rewrite (safe_turn_angle_ext t s d) by (repeat split)
        end
    | H : context [safe_turn_angle ?t ?d] |- _ =>
        lazymatch t with
        | s => fail
        | _ => rewrite (safe_turn_angle_ext t s d) in H by (repeat split)
        end
    | H : context [backtracks ?t ?p] |- _ =>
        lazymatch t with
        | s => fail
        | _ => rewrite (backtracks_ext t s p) in H by (repeat split)
        end
    end.

Section Steps.

Context {Seed G : Type} `{RS : Random.Source Seed G} `{MF : math.Functions}.

Lemma for_range_snoc (n : nat) (body : M Seed G unit)
    (s : TrackGenerator Seed G) :
  for_range (S n) body s = body (snd (for_range n body s)).
Proof.
  revert s. induction n as [|n IH]; intros s.
  - cbn. unfold bind, ret. destruct (body s) as [[] s']. reflexivity.
  - change (for_range (S (S n)) body s)
      with (bind body (fun _ => for_range (S n) body) s).
    unfold bind at 1. destruct (body s) as [[] s'] eqn:Hbody.
    rewrite IH. cbn [for_range]. unfold bind. rewrite Hbody.
    reflexivity.
Qed.

Lemma advance_0 (s : TrackGenerator Seed G) : advance 0 s = s.
Proof. reflexivity. Qed.

Lemma advance_S (k : nat) (s : TrackGenerator Seed G) :
  advance (S k) s = step (advance k s).
Proof. unfold advance, step. now rewrite for_range_snoc. Qed.

(** Induction over the calls of [generate_next_point]. *)
Lemma advance_invariant (P : TrackGenerator Seed G -> Prop)
    (s : TrackGenerator Seed G) :
  P s -> (forall t, P t -> P (step t)) -> forall k, P (advance k s).
Proof.
  intros Hinit Hstep. induction k as [|k IH].
  - exact Hinit.
  - rewrite advance_S. now apply Hstep.
Qed.

Lemma backtracks_false (s : TrackGenerator Seed G) (p : Q) :
  config_ok s ->
  backtracks s p = false ->
  -120 <= normalize_angle p /\ normalize_angle p <= 120.
Proof.
  intros (Hi & Ht & Hc). unfold backtracks.
  rewrite would_cause_backtrack_run, Hi, Ht. cbn [fst].
  intros Hb. apply orb_false_elim in Hb. destruct Hb as [Hb _].
  apply Qgtb_false in Hb.
  assert (E : p -! 0 == p) by (rewrite psub_eq; ring). rewrite E in Hb.
  apply Qabs_Qle_condition in Hb. exact Hb.
Qed.

Lemma move_forward_run (s : TrackGenerator Seed G) :
  move_forward s =
    (tt, set_track_points (append (track_points s) (next_position s))
           (set_current_position (next_position s) s)).
Proof.
  unfold move_forward, next_position, bind, gets, assign.
  destruct (current_position s) as [x y]. reflexivity.
Qed.

Lemma step_eq (s : TrackGenerator Seed G) :
  step s = snd (move_forward (snd (choose_direction s))).
Proof.
  unfold step, generate_next_point, bind.
  destruct (choose_direction s) as [[] s']. reflexivity.
Qed.

Lemma choose_direction_points (s : TrackGenerator Seed G) :
  track_points (snd (choose_direction s)) = track_points s /\
  current_position (snd (choose_direction s)) = current_position s.
Proof.
  run_method. split_run.
  all: cbn; auto.
Qed.

(** *** The heading stays within 120 degrees of the initial heading *)

Lemma safe_turn_angle_heading (s : TrackGenerator Seed G) (d : Q) :
  heading_inv s ->
  -120 <= normalize_angle (current_direction_angle s +! safe_turn_angle s d) /\
  normalize_angle (current_direction_angle s +! safe_turn_angle s d) <= 120.
Proof.
  intros (Hc & Hlo & Hhi). unfold safe_turn_angle.
  assert (Hcand : forall x, backtracks s (candidate s x) = false ->
            -120 <= normalize_angle (current_direction_angle s +! x) /\
            normalize_angle (current_direction_angle s +! x) <= 120).
  { intros x Hx. apply (backtracks_false s _ Hc) in Hx. unfold candidate in Hx.
    destruct (normalize_angle_bounds (current_direction_angle s +! x)).
    rewrite normalize_angle_in_range in Hx; assumption. }
  destruct (backtracks s (candidate s d)) eqn:H1; cbn [negb]; [|auto].
  destruct (backtracks s (candidate s (d *! 0.3))) eqn:H2; cbn [negb]; [|auto].
  destruct (backtracks s (candidate s (- d *! 0.2))) eqn:H3; cbn [negb];
    [|auto].
  pose proof (padd_eq (current_direction_angle s) 0) as E.
  rewrite normalize_angle_in_range; lra.
Qed.

Lemma config_ok_init (seed0 : Seed) (sl : Q) (np : Z) :
  config_ok (__init__ seed0 sl np).
Proof.
  unfold __init__. destruct (Random.randint 20 50 _). repeat split.
Qed.

Lemma heading_inv_init (seed0 : Seed) (sl : Q) (np : Z) :
  heading_inv (__init__ seed0 sl np).
Proof.
  split; [apply config_ok_init|].
  unfold __init__. destruct (Random.randint 20 50 _). cbn. lra.
Qed.

Lemma heading_inv_step (s : TrackGenerator Seed G) :
  heading_inv s -> heading_inv (step s).
Proof.
  intros Hinv. pose proof Hinv as (Hc & Hlo & Hhi).
  pose proof (fun d => safe_turn_angle_heading s d Hinv) as Hsafe.
  rewrite step_eq, move_forward_run. cbn [snd].
  run_method. split_run.
  all: unfold heading_inv, config_ok; cbn.
  all: back_to s.
  all: repeat match goal with
         | H : negb _ = true |- _ => apply negb_true_iff in H
         | H : backtracks _ _ = false |- _ =>
             apply (backtracks_false _ _) in H; [|exact Hc]
         end.
  all: try match goal with
         | |- _ /\ (_ <= normalize_angle (_ +! safe_turn_angle _ ?d) /\ _) =>
             split; [exact Hc | exact (Hsafe d)]
         end.
  all: destruct Hc as (? & ? & ?); repeat split; solve [auto | lra].
Qed.

Lemma heading_inv_limit (s : TrackGenerator Seed G) :
  heading_inv s -> heading_within_limit s.
Proof.
  intros ((Hi & _) & Hlo & Hhi). unfold heading_within_limit.
  rewrite Hi. rewrite normalize_angle_in_range by lra.
  apply Qabs_Qle_condition. lra.
Qed.

(** *** The points *)

Lemma step_points (s : TrackGenerator Seed G) :
  track_points (step s) = track_points s ++ [current_position (step s)].
Proof.
  rewrite step_eq, move_forward_run. cbn [snd].
  destruct (choose_direction_points s) as [Hp _].
  cbn [track_points current_position set_track_points set_current_position].
  unfold append. now rewrite Hp.
Qed.

Lemma points_inv_init (seed0 : Seed) (sl : Q) (np : Z) :
  points_inv (__init__ seed0 sl np).
Proof.
  unfold __init__. destruct (Random.randint 20 50 _). split; reflexivity.
Qed.

Lemma points_inv_step (s : TrackGenerator Seed G) :
  points_inv s -> points_inv (step s).
Proof.
  intros [Hhd Hlast]. unfold points_inv. rewrite step_points. split.
  - destruct (track_points s); [discriminate|exact Hhd].
  - apply last_last.
Qed.

Lemma advance_points_length (s : TrackGenerator Seed G) (k : nat) :
  length (track_points (advance k s)) = (length (track_points s) + k)%nat.
Proof.
  induction k as [|k IH].
  - rewrite advance_0. lia.
  - rewrite advance_S, step_points, length_app, IH. cbn. lia.
Qed.

(** *** The history of headings *)

Lemma choose_direction_history (s : TrackGenerator Seed G) :
  let s' := snd (choose_direction s) in
  previous_angles s' = previous_angles s \/
  previous_angles s' = previous_angles s ++ [current_direction_angle s'].
Proof.
  run_method. split_run.
  all: cbn; unfold append; auto.
Qed.

Lemma step_history (s : TrackGenerator Seed G) :
  previous_angles (step s) = previous_angles s \/
  previous_angles (step s) =
    previous_angles s ++ [current_direction_angle (step s)].
Proof.
  rewrite step_eq, move_forward_run. cbn [snd].
  exact (choose_direction_history s).
Qed.

(** *** The turn indices *)

Lemma choose_direction_turn_indices (s : TrackGenerator Seed G) :
  let s' := snd (choose_direction s) in
  turn_indices s' = turn_indices s \/
  turn_indices s' = turn_indices s ++ [len (track_points s')].
Proof.
  run_method. split_run.
  all: cbn; unfold append; auto.
Qed.

Lemma step_turn_indices (s : TrackGenerator Seed G) :
  turn_indices (step s) = turn_indices (snd (choose_direction s)).
Proof. rewrite step_eq, move_forward_run. reflexivity. Qed.

Lemma StronglySorted_snoc {A : Type} (R : A -> A -> Prop) (l : list A)
    (v : A) :
  StronglySorted R l ->
  Forall (fun x => R x v) l ->
  StronglySorted R (l ++ [v]).
Proof.
  induction 1 as [|x l Hsorted IH Hx]; intros Hall; cbn.
  - repeat constructor.
  - inversion Hall as [|? ? Hxv Hrest]; subst. constructor.
    + now apply IH.
    + apply Forall_app. split; [exact Hx|now constructor].
Qed.

Lemma turn_inv_init (seed0 : Seed) (sl : Q) (np : Z) :
  turn_inv (__init__ seed0 sl np).
Proof.
  unfold __init__. destruct (Random.randint 20 50 _).
  repeat split; cbn; try lia; constructor.
Qed.

Lemma turn_inv_step (s : TrackGenerator Seed G) :
  turn_inv s -> turn_inv (step s).
Proof.
  intros (Hlen & Hsorted & Hvalid). unfold turn_inv.
  rewrite step_turn_indices, step_points.
  destruct (choose_direction_points s) as [Hpoints _].
  pose proof (choose_direction_turn_indices s) as Hturn. cbn zeta in Hturn.
  rewrite Hpoints in Hturn.
  assert (Hgrow : len (track_points s ++ [current_position (step s)])
                  = (len (track_points s) + 1)%Z).
  { unfold len. rewrite length_app. cbn. lia. }
  rewrite Hgrow. split; [lia|].
  assert (Hvalid' : Forall (fun i => (1 <= i <= len (track_points s) + 1 - 1)%Z)
                      (turn_indices s)).
  { eapply Forall_impl; [|exact Hvalid]. cbn. intros; lia. }
  destruct Hturn as [Hsame|Hnew]; rewrite ?Hsame, ?Hnew.
  - split; assumption.
  - split.
    + apply StronglySorted_snoc; [exact Hsorted|].
      eapply Forall_impl; [|exact Hvalid]. cbn. intros; lia.
    + apply Forall_app. split; [exact Hvalid'|].
      constructor; [lia|constructor].
Qed.

(** *** The countdown *)

Lemma countdown_inv_init (seed0 : Seed) (sl : Q) (np : Z) :
  countdown_inv (__init__ seed0 sl np) /\
  (20 <= steps_until_next_turn (__init__ seed0 sl np) <= 50)%Z.
Proof.
  unfold __init__, countdown_inv.
  pose proof (Random.randint_range 20 50 (Random.Random seed0) ltac:(lia)).
  destruct (Random.randint 20 50 _). cbn in *.
  repeat split; solve [lia | discriminate].
Qed.

Lemma countdown_inv_step (s : TrackGenerator Seed G) :
  countdown_inv s -> countdown_inv (step s).
Proof.
  intros [Hrange Hturn]. rewrite step_eq, move_forward_run. cbn [snd].
  pose proof (Random.randint_range 30 70 (random s) ltac:(lia)) as Hdraw.
  run_method. split_run.
  all: unfold countdown_inv; cbn.
  all: cbn [fst] in Hdraw.
  all: try match goal with
         | H : (0 <? _)%Z = true |- _ => apply Z.ltb_lt in H
         end.
  all: try (specialize (Hturn ltac:(assumption))).
  all: repeat split; intros; try lia; try discriminate; try congruence.
Qed.

End Steps.


(** ** The loops of normalize_angle in a number format *)

Section RoundedLoops.

Context {NF : Numbers.Format}.

Lemma rnd_fixes_180 : Numbers.rnd 180 == 180 /\ Numbers.rnd (-180) == -180.
Proof.
  split.
  - apply (Numbers.rnd_integer 180). reflexivity.
  - apply (Numbers.rnd_integer (-180)). reflexivity.
Qed.

Lemma rnd_le_180 (x : Q) : x <= 180 -> Numbers.rnd x <= 180.
Proof.
  intros H. destruct rnd_fixes_180 as [H180 _]. rewrite <- H180.
  now apply Numbers.rnd_monotone.
Qed.

Lemma rnd_ge_minus_180 (x : Q) : -180 <= x -> -180 <= Numbers.rnd x.
Proof.
  intros H. destruct rnd_fixes_180 as [_ H180]. rewrite <- H180.
  now apply Numbers.rnd_monotone.
Qed.

Lemma rnd_near (x : Q) :
  Qabs x < inject_Z (2 ^ 62) ->
  x - 256 <= Numbers.rnd x /\ Numbers.rnd x <= x + 256.
Proof.
  intros H. pose proof (Numbers.rnd_error x H) as Herr.
  apply Qabs_Qle_condition in Herr. split; lra.
Qed.

(** The first loop, started below [2^62] and at most [n] times 104 above
    the range: every subtraction lowers the angle by 104 at least. *)
Lemma rounded_down_loop :
  forall (n : nat) (a : Q),
    a <= inject_Z (2 ^ 62) ->
    a <= 180 + 104 * inject_Z (Z.of_nat n) ->
    exists r : Q,
      while_loop (S n) (fun a => a >? 180) (fun a => Rounded.sub a 360) a
        = Some r /\
      r <= 180 /\
      (a <= 180 -> r = a) /\
      (180 < a -> -180 <= r).
Proof.
  induction n as [|n IH]; intros a Hbound Ha.
  - assert (Hle : a <= 180)
      by (change (inject_Z (Z.of_nat 0)) with 0 in Ha; lra).
    exists a. simpl. rewrite (proj2 (Qgtb_false a 180) Hle).
    repeat split; auto; lra.
  - cbn [while_loop]. destruct (a >? 180) eqn:Hc.
    + apply Qgtb_true in Hc. unfold Rounded.sub at 2.
      assert (Hsmall : Qabs (a - 360) < inject_Z (2 ^ 62)).
      { apply Qabs_Qlt_condition.
        change (inject_Z (2 ^ 62)) with 4611686018427387904 in *.
        split; lra. }
      destruct (rnd_near _ Hsmall) as [_ Hnear].
      pose proof (rnd_ge_minus_180 (a - 360) ltac:(lra)) as Hlow.
      destruct (IH (Numbers.rnd (a - 360))) as (r & Hrun & Hr & Hsame & Hbig).
      { lra. }
      { rewrite Nat2Z.inj_succ, <- Z.add_1_r, inject_Z_plus in Ha.
        change (inject_Z 1) with 1 in Ha. lra. }
      exists r. split; [exact Hrun|]. split; [exact Hr|].
      split; [intros Hle; lra|]. intros _.
      destruct (Qlt_le_dec 180 (Numbers.rnd (a - 360))) as [Hmore|Hdone].
      * auto.
      * now rewrite (Hsame Hdone).
    + apply Qgtb_false in Hc. exists a. repeat split; auto; lra.
Qed.

(** The second loop, started above [-2^62] and at most [n] times 104 below
    the range. *)
Lemma rounded_up_loop :
  forall (n : nat) (a : Q),
    - inject_Z (2 ^ 62) <= a ->
    -180 - 104 * inject_Z (Z.of_nat n) <= a ->
    exists r : Q,
      while_loop (S n) (fun a => a <? -180) (fun a => Rounded.add a 360) a
        = Some r /\
      -180 <= r /\
      (-180 <= a -> r = a) /\
      (a < -180 -> r <= 180).
Proof.
  induction n as [|n IH]; intros a Hbound Ha.
  - assert (Hle : -180 <= a)
      by (change (inject_Z (Z.of_nat 0)) with 0 in Ha; lra).
    exists a. simpl. rewrite (proj2 (Qltb_false a (-180)) Hle).
    repeat split; auto; lra.
  - cbn [while_loop]. destruct (a <? -180) eqn:Hc.
    + apply Qltb_true in Hc. unfold Rounded.add at 2.
      assert (Hsmall : Qabs (a + 360) < inject_Z (2 ^ 62)).
      { apply Qabs_Qlt_condition.
        change (inject_Z (2 ^ 62)) with 4611686018427387904 in *.
        split; lra. }
      destruct (rnd_near _ Hsmall) as [Hnear _].
      pose proof (rnd_le_180 (a + 360) ltac:(lra)) as Hhigh.
      destruct (IH (Numbers.rnd (a + 360))) as (r & Hrun & Hr & Hsame & Hbig).
      { lra. }
      { rewrite Nat2Z.inj_succ, <- Z.add_1_r, inject_Z_plus in Ha.
        change (inject_Z 1) with 1 in Ha. lra. }
      exists r. split; [exact Hrun|]. split; [exact Hr|].
      split; [intros Hle; lra|]. intros _.
      destruct (Qlt_le_dec (Numbers.rnd (a + 360)) (-180)) as [Hmore|Hdone].
      * auto.
      * now rewrite (Hsame Hdone).
    + apply Qltb_false in Hc. exists a. repeat split; auto; lra.
Qed.

Lemma normalize_steps_above (a : Q) :
  Qabs a <= 104 * inject_Z (Z.of_nat (pred (Rounded.normalize_steps a))).
Proof.
  unfold Rounded.normalize_steps. cbn [pred].
  pose proof (Qabs_nonneg a) as Hpos.
  assert (Hq : 0 <= Qabs a / 104).
  { apply Qle_shift_div_l; lra. }
  assert (Hfloor : (0 <= Qfloor (Qabs a / 104))%Z).
  { rewrite <- (Qfloor_Z 0). now apply Qfloor_resp_le. }
  rewrite Nat2Z.inj_succ, Z2Nat.id by exact Hfloor.
  pose proof (Qlt_floor (Qabs a / 104)) as Hlt.
  unfold Z.succ. 
  assert (Hdiv : Qabs a / 104 * 104 == Qabs a) by (field).
  set (t := Qabs a / 104) in *. set (f := inject_Z (Qfloor t + 1)) in *.
  lra.
Qed.

Lemma normalize_steps_monotone (a b : Q) :
  Qabs a <= Qabs b ->
  (Rounded.normalize_steps a <= Rounded.normalize_steps b)%nat.
Proof.
  intros Hab. unfold Rounded.normalize_steps.
  assert (Hnonneg : forall x : Q, (0 <= Qfloor (Qabs x / 104))%Z).
  { intros x. rewrite <- (Qfloor_Z 0). apply Qfloor_resp_le.
    pose proof (Qabs_nonneg x). change (inject_Z 0) with 0.
    apply Qle_shift_div_l; lra. }
  do 2 apply le_n_S. apply Z2Nat.inj_le; [apply Hnonneg|apply Hnonneg|].
  apply Qfloor_resp_le. apply Qmult_le_compat_r; [exact Hab|].
  discriminate.
Qed.

(** [normalize_angle] returns below [2^62], within the closed range. *)
Lemma rounded_normalize_angle (a : Q) :
  Qabs a <= inject_Z (2 ^ 62) ->
  exists r : Q,
    (forall fuel : nat,
       (Rounded.normalize_steps a <= fuel)%nat ->
       Rounded.normalize_angle fuel a = Some r) /\
    -180 <= r /\ r <= 180 /\
    (-180 <= a -> a <= 180 -> r = a).
Proof.
  intros Hbound. apply Qabs_Qle_condition in Hbound.
  destruct Hbound as [Hlow Hhigh].
  pose proof (normalize_steps_above a) as Hsteps.
  assert (Hfuel : Rounded.normalize_steps a
                  = S (pred (Rounded.normalize_steps a))) by reflexivity.
  set (n := pred (Rounded.normalize_steps a)) in *.
  assert (Habs : - Qabs a <= a /\ a <= Qabs a).
  { apply Qabs_Qle_condition. apply Qle_refl. }
  pose proof (Qabs_nonneg a) as Hpos.
  destruct (rounded_down_loop n a Hhigh ltac:(lra))
    as (r1 & Hrun1 & Hr1 & Hsame1 & Hbig1).
  assert (Hsecond : exists r : Q,
            while_loop (S n) (fun a => a <? -180)
              (fun a => Rounded.add a 360) r1 = Some r /\
            -180 <= r /\ r <= 180 /\ (-180 <= r1 -> r = r1)).
  { destruct (Qlt_le_dec 180 a) as [Habove|Hbelow].
    - specialize (Hbig1 Habove).
      exists r1. split; [|repeat split; auto].
      cbn [while_loop]. now rewrite (proj2 (Qltb_false r1 (-180)) Hbig1).
    - rewrite (Hsame1 Hbelow) in *.
      destruct (rounded_up_loop n a Hlow ltac:(lra))
        as (r & Hrun & Hr & Hsame & Hbig).
      exists r. split; [exact Hrun|]. split; [exact Hr|].
      split; [|exact Hsame].
      destruct (Qlt_le_dec a (-180)) as [Hl|Hl]; [auto|].
      rewrite (Hsame Hl). exact Hbelow. }
  destruct Hsecond as (r & Hrun2 & Hr & Hr' & Hsame2).
  exists r. split; [|split; [exact Hr|split; [exact Hr'|]]].
  - intros fuel Hle. unfold Rounded.normalize_angle.
    rewrite (while_loop_more _ _ (S n) fuel a r1) by (try lia; assumption).
    apply (while_loop_more _ _ (S n) fuel); [lia|exact Hrun2].
  - intros Hge Hle. rewrite <- (Hsame1 Hle). apply Hsame2.
    rewrite (Hsame1 Hle). exact Hge.
Qed.

End RoundedLoops.

(** ** would_cause_backtrack and get_safe_turn_angle in a number format *)

Section RoundedTurns.

Context {Seed G : Type} {NF : Numbers.Format}.

Lemma two_62 : inject_Z (2 ^ 62) == 4611686018427387904.
Proof. reflexivity. Qed.

Lemma two_60 : inject_Z (2 ^ 60) == 1152921504606846976.
Proof. reflexivity. Qed.

(** Below [2^62] the bound of the largest magnitude is enough. *)
Lemma rounded_normalize_angle_bounded (a : Q) :
  Qabs a <= inject_Z (2 ^ 62) ->
  exists r : Q,
    (forall fuel : nat,
       (Rounded.normalize_steps (inject_Z (2 ^ 62)) <= fuel)%nat ->
       Rounded.normalize_angle fuel a = Some r) /\
    -180 <= r /\ r <= 180.
Proof.
  intros Hbound.
  destruct (rounded_normalize_angle a Hbound) as (r & Hrun & Hlow & Hhigh & _).
  exists r. split; [|split; assumption].
  intros fuel Hfuel. apply Hrun.
  apply Nat.le_trans with (Rounded.normalize_steps (inject_Z (2 ^ 62)));
    [|exact Hfuel].
  apply normalize_steps_monotone.
  rewrite (Qabs_pos (inject_Z (2 ^ 62))) by discriminate. exact Hbound.
Qed.

(** A rounded result stays within 256 of the exact one. *)
Lemma rnd_abs (x bound : Q) :
  Qabs x <= bound -> bound < inject_Z (2 ^ 62) ->
  Qabs (Numbers.rnd x) <= bound + 256.
Proof.
  intros Hx Hbound.
  assert (Hsmall : Qabs x < inject_Z (2 ^ 62)) by lra.
  destruct (rnd_near x Hsmall) as [Hlow Hhigh].
  apply Qabs_Qle_condition in Hx. apply Qabs_Qle_condition. split; lra.
Qed.

(** A literal between 0 and 1 is rounded to a number between 0 and 1. *)
Lemma literal_unit (x : Q) :
  0 <= x -> x <= 1 ->
  0 <= Rounded.literal x /\ Rounded.literal x <= 1.
Proof.
  intros Hlow Hhigh. unfold Rounded.literal.
  pose proof (Numbers.rnd_integer 0 ltac:(reflexivity)) as H0.
  pose proof (Numbers.rnd_integer 1 ltac:(reflexivity)) as H1.
  change (inject_Z 0) with 0 in H0. change (inject_Z 1) with 1 in H1.
  pose proof (Numbers.rnd_monotone 0 x Hlow).
  pose proof (Numbers.rnd_monotone x 1 Hhigh).
  split; lra.
Qed.

Lemma mul_literal_abs (d x : Q) :
  Qabs d <= inject_Z (2 ^ 60) ->
  0 <= x -> x <= 1 ->
  Qabs (Rounded.mul d (Rounded.literal x)) <= inject_Z (2 ^ 60) + 256.
Proof.
  intros Hd Hlow Hhigh. destruct (literal_unit x Hlow Hhigh) as [Hl0 Hl1].
  unfold Rounded.mul. apply rnd_abs.
  - rewrite Qabs_Qmult, (Qabs_pos (Rounded.literal x)) by exact Hl0.
    pose proof (Qabs_nonneg d). rewrite two_60 in *.
    set (c := Rounded.literal x) in *. set (m := Qabs d) in *. nra.
  - rewrite two_60, two_62. reflexivity.
Qed.

Lemma would_cause_backtrack_returns (s : TrackGenerator Seed G) (p : Q) :
  Qabs (initial_direction s) <= inject_Z (2 ^ 60) ->
  -180 <= p -> p <= 180 ->
  exists b : bool,
    forall fuel : nat,
      (Rounded.normalize_steps (inject_Z (2 ^ 62)) <= fuel)%nat ->
      Rounded.would_cause_backtrack fuel p s = Some (b, s).
Proof.
  intros Hinit Hlow Hhigh.
  assert (Harg : Qabs (Rounded.sub p (initial_direction s))
                 <= inject_Z (2 ^ 62)).
  { unfold Rounded.sub.
    apply Qle_trans with (inject_Z (2 ^ 60) + 180 + 256).
    - apply rnd_abs.
      + apply Qabs_Qle_condition in Hinit. apply Qabs_Qle_condition.
        split; lra.
      + rewrite two_60, two_62. reflexivity.
    - rewrite two_60, two_62. discriminate. }
  destruct (rounded_normalize_angle_bounded _ Harg) as (r & Hrun & _).
  exists (if Qabs r >? backtrack_threshold s then true
          else if Qabs r >? max_cumulative_turn s then true else false).
  intros fuel Hfuel.
  unfold Rounded.would_cause_backtrack, Rounded.bind, Rounded.gets,
    Rounded.eval, Rounded.ret.
  rewrite (Hrun fuel Hfuel).
  destruct (Qabs r >? backtrack_threshold s); [reflexivity|].
  rewrite (Hrun fuel Hfuel).
  destruct (Qabs r >? max_cumulative_turn s); reflexivity.
Qed.

Lemma unsafe_returns (s : TrackGenerator Seed G) (delta : Q) :
  Qabs (current_direction_angle s) <= inject_Z (2 ^ 60) ->
  Qabs (initial_direction s) <= inject_Z (2 ^ 60) ->
  Qabs delta <= inject_Z (2 ^ 60) + 256 ->
  exists (p : Q) (b : bool),
    forall fuel : nat,
      (Rounded.normalize_steps (inject_Z (2 ^ 62)) <= fuel)%nat ->
      Rounded.normalize_angle fuel
        (Rounded.add (current_direction_angle s) delta) = Some p /\
      Rounded.would_cause_backtrack fuel p s = Some (b, s) /\
      Rounded.unsafe fuel s delta = Some b.
Proof.
  intros Hcur Hinit Hdelta.
  assert (Harg : Qabs (Rounded.add (current_direction_angle s) delta)
                 <= inject_Z (2 ^ 62)).
  { unfold Rounded.add.
    apply Qle_trans with (inject_Z (2 ^ 60) + inject_Z (2 ^ 60) + 256 + 256).
    - apply rnd_abs.
      + apply Qabs_Qle_condition in Hcur. apply Qabs_Qle_condition in Hdelta.
        apply Qabs_Qle_condition. split; lra.
      + rewrite two_60, two_62. reflexivity.
    - rewrite two_60, two_62. discriminate. }
  destruct (rounded_normalize_angle_bounded _ Harg) as (p & Hrun & Hlow & Hhigh).
  destruct (would_cause_backtrack_returns s p Hinit Hlow Hhigh) as (b & Hb).
  exists p, b. intros fuel Hfuel.
  split; [now apply Hrun|]. split; [now apply Hb|].
  unfold Rounded.unsafe. rewrite (Hrun fuel Hfuel), (Hb fuel Hfuel).
  reflexivity.
Qed.

End RoundedTurns.

(** ** The loops of normalize_angle in binary64, beyond [2^62] *)




(** * The claims of the specification *)

Section Claims.

Context {Seed G : Type} `{RS : Random.Source Seed G} `{MF : math.Functions}.

Lemma backtracks_false_intro (s : TrackGenerator Seed G) (p : Q) :
  config_ok s ->
  -120 <= normalize_angle p -> normalize_angle p <= 120 ->
  backtracks s p = false.
Proof.
  intros (Hi & Ht & Hc) Hlo Hhi. unfold backtracks.
  rewrite would_cause_backtrack_run, Hi, Ht, Hc. cbn [fst].
  rewrite orb_diag. apply Qgtb_false.
  assert (E : p -! 0 == p) by (rewrite psub_eq; ring). rewrite E.
  apply Qabs_Qle_condition. split; assumption.
Qed.

(** C1.  Non-backtracking: after any number of calls of
    [generate_next_point] on a fresh generator, whatever the seed, the
    heading is at most 120 degrees off the initial heading; the calls made
    in the middle of a big turn are calls like the others. *)
Theorem heading_never_backtracks :
  forall (seed0 : Seed) (sl : Q) (np : Z) (k : nat),
    let s := advance k (__init__ seed0 sl np) in
    Qabs (normalize_angle (current_direction_angle s - initial_direction s))
      <= 120.
Proof.
  intros seed0 sl np k. cbn zeta.
  apply heading_inv_limit.
  apply advance_invariant.
  - apply heading_inv_init.
  - apply heading_inv_step.
Qed.

(** C9.  After construction and after every call the list of points is
    not empty, starts at the origin and ends at the current position;
    a call appends exactly one point. *)
Theorem points_grow_from_origin :
  forall (seed0 : Seed) (sl : Q) (np : Z) (k : nat),
    let s := advance k (__init__ seed0 sl np) in
    track_points s <> [] /\
    hd_error (track_points s) = Some (0, 0) /\
    last (track_points s) (0, 0) = current_position s /\
    length (track_points s) = S k /\
    track_points (step s) = track_points s ++ [current_position (step s)].
Proof.
  intros seed0 sl np k. cbn zeta.
  assert (Hinv : points_inv (advance k (__init__ seed0 sl np))).
  { apply advance_invariant; [apply points_inv_init|apply points_inv_step]. }
  destruct Hinv as [Hhd Hlast].
  assert (Hlen : length (track_points (advance k (__init__ seed0 sl np)))
                 = S k).
  { rewrite advance_points_length. unfold __init__.
    destruct (Random.randint 20 50 _). reflexivity. }
  repeat split; try assumption.
  - intros Hnil. rewrite Hnil in Hlen. discriminate.
  - apply step_points.
Qed.

(** The decision tree of [get_safe_turn_angle] on exact numbers: the
    desired angle when its candidate heading does not backtrack, else
    30% of it when that candidate does not, else -20% of it when that
    candidate does not, else 0; [self] is left as it was. *)
Lemma get_safe_turn_angle_exact :
  forall (s : TrackGenerator Seed G) (d : Q),
    let unsafe := fun delta : Q =>
      fst (would_cause_backtrack
             (normalize_angle (current_direction_angle s +! delta)) s) in
    get_safe_turn_angle d s =
      (if unsafe d then
         if unsafe (d *! 0.3) then
           if unsafe (- d *! 0.2) then 0 else - d *! 0.2
         else d *! 0.3
       else d,
       s).
Proof.
  intros s d. cbn zeta. rewrite get_safe_turn_angle_run.
  unfold safe_turn_angle, candidate, backtracks.
  destruct (fst (would_cause_backtrack _ s)); cbn [negb]; [|reflexivity].
  destruct (fst (would_cause_backtrack _ s)); cbn [negb]; [|reflexivity].
  destruct (fst (would_cause_backtrack _ s)); reflexivity.
Qed.

(** C10.  A negative [num_points] is accepted by the constructor, and
    [generate_full_track] then returns the origin alone and no turn, as
    it does for [num_points = 0]: the loop runs zero times. *)
Theorem negative_num_points_gives_origin_only :
  forall (seed0 : Seed) (sl : Q) (np : Z),
    (np < 0)%Z ->
    new seed0 sl np = Returned (__init__ seed0 sl np) /\
    fst (generate_full_track (__init__ seed0 sl np)) = ([(0, 0)], []) /\
    fst (generate_full_track (__init__ seed0 sl np)) =
      fst (generate_full_track (__init__ seed0 sl 0)).
Proof.
  intros seed0 sl np Hneg. split; [reflexivity|].
  assert (Hrun : forall n, (n <= 0)%Z ->
            fst (generate_full_track (__init__ seed0 sl n)) = ([(0, 0)], [])).
  { intros n Hn. unfold generate_full_track, bind, gets, ret, __init__.
    destruct (Random.randint 20 50 _) as [c g]. cbn [num_points].
    replace (Z.to_nat n) with O by lia. reflexivity. }
  rewrite !Hrun by lia. split; reflexivity.
Qed.

Lemma interleave_advance (schedule : list event) :
  forall w : program,
    first (interleave schedule w) = advance (calls_first schedule) (first w) /\
    second (interleave schedule w)
      = advance (calls_second schedule) (second w).
Proof.
  unfold interleave.
  induction schedule as [|e schedule IH] using rev_ind; intros w.
  - split; reflexivity.
  - rewrite fold_left_app. cbn [fold_left].
    destruct (IH w) as [Hfirst Hsecond].
    unfold calls_first, calls_second.
    rewrite !filter_app, !length_app.
    fold (calls_first schedule). fold (calls_second schedule).
    destruct e; cbn [perform first second filter length];
      rewrite ?Nat.add_0_r, ?Nat.add_1_r, ?advance_S, ?Hfirst, ?Hsecond;
      split; reflexivity.
Qed.

Lemma generate_full_track_advance (s : TrackGenerator Seed G) :
  generate_full_track s =
    (let s' := advance (Z.to_nat (num_points s)) s in
     (track_points s', turn_indices s'), advance (Z.to_nat (num_points s)) s).
Proof.
  unfold generate_full_track, advance, bind, gets, ret.
  destruct (for_range _ generate_next_point s) as [[] s']. reflexivity.
Qed.

(** C2.  Determinism: two generators built from the same seed, step
    length and target length, each advanced [n] steps, hold the same
    points and the same turn indices, in whatever order the calls on the
    two are interleaved with each other and with draws from the
    module-level stream, and whatever the state of that stream;
    [generate_full_track] on each returns the same pair. *)
Theorem same_seed_same_track :
  forall (seed0 : Seed) (sl : Q) (np : Z) (n : nat)
         (schedule : list event) (process_wide : G),
    calls_first schedule = n ->
    calls_second schedule = n ->
    let w := interleave schedule
               (mkProgram process_wide (__init__ seed0 sl np)
                  (__init__ seed0 sl np)) in
    track_points (first w) = track_points (second w) /\
    turn_indices (first w) = turn_indices (second w) /\
    first w = advance n (__init__ seed0 sl np) /\
    fst (generate_full_track (first w)) = fst (generate_full_track (second w)).
Proof.
  intros seed0 sl np n schedule process_wide Hfirst Hsecond. cbn zeta.
  destruct (interleave_advance schedule
              (mkProgram process_wide (__init__ seed0 sl np)
                 (__init__ seed0 sl np))) as [Ha Hb].
  rewrite Ha, Hb, Hfirst, Hsecond. cbn [first second].
  repeat split; reflexivity.
Qed.

(** C6, amended.  The constructor validates nothing: for every seed, step
    length and target length (negative and zero included) the call
    returns an instance, never raises, and the instance holds the
    arguments as they were given together with the usual initial state;
    [generate_full_track] has no validation either and runs
    [max(num_points, 0)] steps. *)
Theorem constructor_accepts_every_argument :
  forall (seed0 : Seed) (sl : Q) (np : Z),
    exists g : TrackGenerator Seed G,
      new seed0 sl np = Returned g /\
      seed g = seed0 /\ step_length g = sl /\ num_points g = np /\
      track_points g = [(0, 0)] /\ turn_indices g = [] /\
      current_direction_angle g = 0 /\ turning g = false /\
      generate_full_track g =
        ((track_points (advance (Z.to_nat np) g),
          turn_indices (advance (Z.to_nat np) g)),
         advance (Z.to_nat np) g).
Proof.
  intros seed0 sl np. exists (__init__ seed0 sl np).
  split; [reflexivity|].
  rewrite generate_full_track_advance.
  unfold __init__. destruct (Random.randint 20 50 _) as [c g].
  cbn. repeat split; reflexivity.
Qed.

(** C3, amended.  After any number of calls the turn indices are
    strictly increasing (so non-decreasing and without duplicates) and
    each of them is a valid index of the list of points.  At the moment
    a value is appended, before the point of that call is appended, it
    equals the current length of the list of points: it is the index of
    the point that the same call appends next. *)
Theorem turn_indices_increasing_and_valid :
  forall (seed0 : Seed) (sl : Q) (np : Z) (k : nat),
    let s := advance k (__init__ seed0 sl np) in
    let chosen := snd (choose_direction s) in
    StronglySorted Z.lt (turn_indices s) /\
    Forall (fun i => (1 <= i <= len (track_points s) - 1)%Z)
      (turn_indices s) /\
    track_points chosen = track_points s /\
    (turn_indices chosen = turn_indices s \/
     turn_indices chosen = turn_indices s ++ [len (track_points chosen)]) /\
    turn_indices (step s) = turn_indices chosen /\
    len (track_points (step s)) = (len (track_points chosen) + 1)%Z.
Proof.
  intros seed0 sl np k. cbn zeta.
  set (s := advance k (__init__ seed0 sl np)).
  assert (Hinv : turn_inv s).
  { apply advance_invariant; [apply turn_inv_init|apply turn_inv_step]. }
  destruct Hinv as (_ & Hsorted & Hvalid).
  destruct (choose_direction_points s) as [Hpoints _].
  repeat split; try assumption.
  - exact (choose_direction_turn_indices s).
  - apply step_turn_indices.
  - rewrite step_points, Hpoints. unfold len.
    rewrite length_app. cbn. lia.
Qed.

(** C5, amended.  The first countdown is an integer of the closed range
    [[20, 50]].  A call that finds the countdown at zero (the generator is
    then not in a big turn) reseeds it to an integer of the closed range
    [[30, 70]]; a call that finds it positive outside a big turn
    decrements it, and a call made during a big turn leaves it alone. *)
Theorem countdown_ranges :
  forall (seed0 : Seed) (sl : Q) (np : Z) (k : nat),
    let s := advance k (__init__ seed0 sl np) in
    (20 <= steps_until_next_turn (__init__ seed0 sl np) <= 50)%Z /\
    (0 <= steps_until_next_turn s <= 70)%Z /\
    (steps_until_next_turn s = 0%Z ->
     turning s = false /\
     (30 <= steps_until_next_turn (step s) <= 70)%Z) /\
    ((0 < steps_until_next_turn s)%Z -> turning s = false ->
     steps_until_next_turn (step s) = (steps_until_next_turn s - 1)%Z) /\
    (turning s = true ->
     steps_until_next_turn (step s) = steps_until_next_turn s).
Proof.
  intros seed0 sl np k. cbn zeta.
  set (s := advance k (__init__ seed0 sl np)).
  assert (Hinv : countdown_inv s).
  { apply advance_invariant;
      [apply countdown_inv_init|apply countdown_inv_step]. }
  destruct Hinv as [Hrange Hturn].
  split; [apply countdown_inv_init|]. split; [exact Hrange|].
  pose proof (Random.randint_range 30 70 (random s) ltac:(lia)) as Hdraw.
  clearbody s.
  assert (Hoff : steps_until_next_turn s = 0%Z -> turning s = false).
  { intros Hzero. destruct (turning s); [|reflexivity].
    specialize (Hturn eq_refl). lia. }
  split; [|split].
  - intros Hzero. split; [exact (Hoff Hzero)|].
    revert Hdraw. rewrite step_eq, move_forward_run. cbn [snd].
    run_method. rewrite (Hoff Hzero), Hzero. cbn [Z.ltb Z.compare].
    split_run. all: cbn; intros; lia.
  - intros Hpos Hnot. rewrite step_eq, move_forward_run. cbn [snd].
    run_method. rewrite Hnot. apply Z.ltb_lt in Hpos. rewrite Hpos.
    split_run. all: reflexivity.
  - intros Hon. rewrite step_eq, move_forward_run. cbn [snd].
    run_method. rewrite Hon.
    split_run. all: reflexivity.
Qed.

Lemma last_n_length {A : Type} (n : nat) (l : list A) :
  (n <= length l)%nat -> length (last_n n l) = n.
Proof. intros Hle. unfold last_n. rewrite length_skipn. lia. Qed.

Lemma history_grows (seed0 : Seed) (sl : Q) (np : Z) (k : nat) :
  exists added : list Q,
    previous_angles (advance k (__init__ seed0 sl np)) =
      [0; 0; 0; 0; 0] ++ added /\
    (length added <= k)%nat.
Proof.
  induction k as [|k (added & Hadded & Hlen)].
  - exists []. split; [|cbn; lia]. rewrite advance_0. unfold __init__.
    destruct (Random.randint 20 50 _). reflexivity.
  - rewrite advance_S.
    destruct (step_history (advance k (__init__ seed0 sl np))) as [H|H];
      rewrite H, Hadded.
    + exists added. split; [reflexivity|lia].
    + eexists (added ++ [_]). rewrite <- app_assoc. split; [reflexivity|].
      rewrite length_app. cbn. lia.
Qed.

(** The noise drawn by the first call cannot backtrack: the first call
    always records a sixth heading. *)
Lemma first_step_history (seed0 : Seed) (sl : Q) (np : Z) :
  previous_angles (step (__init__ seed0 sl np)) =
    [0; 0; 0; 0; 0] ++ [current_direction_angle (step (__init__ seed0 sl np))].
Proof.
  pose proof (config_ok_init seed0 sl np) as Hc.
  pose proof (proj2 (countdown_inv_init seed0 sl np)) as Hcount.
  rewrite step_eq, move_forward_run. cbn [snd].
  revert Hc Hcount. unfold __init__.
  destruct (Random.randint 20 50 _) as [c g]. intros Hc Hcount.
  cbn [steps_until_next_turn] in Hcount.
  run_method. cbn [turning steps_until_next_turn].
  assert (Hpos : (0 <? c)%Z = true) by (apply Z.ltb_lt; lia).
  rewrite Hpos.
  pose proof (Random.random_range g) as Hr.
  split_run; cbn; [reflexivity|exfalso].
  cbn [fst] in Hr.
  match goal with
  | H : negb (backtracks ?t ?p) = false |- _ =>
      apply negb_false_iff in H;
      rewrite (backtracks_false_intro t p) in H;
        [discriminate|exact Hc| |]
  end.
  all: change (np_mean (last_n 3 [0; 0; 0; 0; 0])) with 0.
  all: clear - Hr.
  all: match goal with
       | |- context [normalize_angle ?v] =>
           assert (Hv : -1 <= v /\ v < 1)
             by (rewrite !padd_eq, pmul_eq, psub_eq; lra);
           rewrite (normalize_angle_in_range v) by lra; lra
       end.
Qed.

(** C7, amended.  The history of headings starts as five zeros and is
    append-only: it is never trimmed, a call appends the new heading or
    nothing, so after [k] calls it holds the five zeros followed by at
    most [k] headings, and six entries after the first call.  Smoothing
    reads its last three entries, which always exist. *)
Theorem heading_history_append_only :
  forall (seed0 : Seed) (sl : Q) (np : Z) (k : nat),
    let fresh := __init__ seed0 sl np in
    let s := advance k fresh in
    previous_angles fresh = [0; 0; 0; 0; 0] /\
    (exists added : list Q,
       previous_angles s = [0; 0; 0; 0; 0] ++ added /\
       (length added <= k)%nat) /\
    (previous_angles (step s) = previous_angles s \/
     previous_angles (step s) =
       previous_angles s ++ [current_direction_angle (step s)]) /\
    length (previous_angles (advance 1 fresh)) = 6%nat /\
    get_smoothed_angle s = (np_mean (last_n 3 (previous_angles s)), s) /\
    length (last_n 3 (previous_angles s)) = 3%nat.
Proof.
  intros seed0 sl np k. cbn zeta.
  destruct (history_grows seed0 sl np k) as (added & Hadded & Hlen).
  split; [|split; [|split; [|split; [|split]]]].
  - unfold __init__. destruct (Random.randint 20 50 _). reflexivity.
  - exists added. split; assumption.
  - apply step_history.
  - rewrite advance_S, advance_0, first_step_history. reflexivity.
  - reflexivity.
  - apply last_n_length. rewrite Hadded, length_app. cbn. lia.
Qed.

(** The increment of a big turn divides by a duration of at least 15
    steps. *)
Lemma start_big_turn_total (s : TrackGenerator Seed G) :
  (15 <= turn_total_steps (snd (start_big_turn s)) <= 30)%Z.
Proof.
  unfold start_big_turn, random_sign, draw, Random.uniform, bind, gets,
    assign, ret.
  destruct (Random.random (random s)) as [r1 g1]. cbn [random set_random].
  destruct (Random.random g1) as [r2 g2].
  rewrite get_safe_turn_angle_run. cbn [random set_random
    set_target_direction_angle].
  pose proof (Random.randint_range 15 30 g2 ltac:(lia)) as Hdraw.
  destruct (Random.randint 15 30 g2) as [total g3]. exact Hdraw.
Qed.

End Claims.

(** ** The exact numbers as a format *)

Section ExactFormat.

Context {Seed G : Type} `{RS : Random.Source Seed G} `{MF : math.Functions}.

(** In the format of the exact numbers the loops are the loops of
    [normalize_angle_fuel]. *)
Lemma exact_normalize_angle (fuel : nat) (angle : Q) :
  Rounded.normalize_angle (NF := exact_numbers) fuel angle
  = normalize_angle_fuel fuel angle.
Proof. reflexivity. Qed.

Lemma exact_would_cause_backtrack (fuel : nat) (p : Q)
    (s : TrackGenerator Seed G) :
  (normalize_bound (p -! initial_direction s) <= fuel)%nat ->
  Rounded.would_cause_backtrack (NF := exact_numbers) fuel p s
  = Some (would_cause_backtrack p s).
Proof.
  intros Hfuel. rewrite would_cause_backtrack_run.
  unfold Rounded.would_cause_backtrack, Rounded.bind, Rounded.gets,
    Rounded.eval, Rounded.ret.
  change (Rounded.normalize_angle (NF := exact_numbers) fuel
            (Rounded.sub (NF := exact_numbers) p (initial_direction s)))
    with (normalize_angle_fuel fuel (p -! initial_direction s)).
  rewrite (normalize_angle_fuel_enough fuel _ Hfuel).
  destruct (_ >? backtrack_threshold s); [reflexivity|].
  change (Rounded.normalize_angle (NF := exact_numbers) fuel
            (Rounded.sub (NF := exact_numbers) p (initial_direction s)))
    with (normalize_angle_fuel fuel (p -! initial_direction s)).
  rewrite (normalize_angle_fuel_enough fuel _ Hfuel).
  destruct (_ >? max_cumulative_turn s); reflexivity.
Qed.

(** In the format of the exact numbers [get_safe_turn_angle] is the
    method of the generator, and it returns for every argument. *)
Lemma exact_get_safe_turn_angle (s : TrackGenerator Seed G) (d : Q) :
  exists fuel0 : nat,
    forall fuel : nat,
      (fuel0 <= fuel)%nat ->
      Rounded.get_safe_turn_angle (NF := exact_numbers) fuel d s
      = Some (get_safe_turn_angle d s).
Proof.
  set (bound := fun delta : Q =>
    Nat.max (normalize_bound (current_direction_angle s +! delta))
      (normalize_bound (candidate s delta -! initial_direction s))).
  exists (Nat.max (bound d)
            (Nat.max (bound (d *! 0.3)) (bound (- d *! 0.2)))).
  intros fuel Hfuel.
  assert (Hstep : forall delta : Q,
            (bound delta <= fuel)%nat ->
            Rounded.normalize_angle (NF := exact_numbers) fuel
              (Rounded.add (NF := exact_numbers)
                 (current_direction_angle s) delta)
            = Some (candidate s delta) /\
            Rounded.would_cause_backtrack (NF := exact_numbers) fuel
              (candidate s delta) s
            = Some (backtracks s (candidate s delta), s)).
  { intros delta Hdelta. unfold bound in Hdelta. split.
    - change (Rounded.normalize_angle (NF := exact_numbers) fuel
                (Rounded.add (NF := exact_numbers)
                   (current_direction_angle s) delta))
        with (normalize_angle_fuel fuel (current_direction_angle s +! delta)).
      apply normalize_angle_fuel_enough. lia.
    - rewrite exact_would_cause_backtrack by lia.
      now rewrite would_cause_backtrack_eq. }
  destruct (Hstep d ltac:(lia)) as [Hp1 Hw1].
  destruct (Hstep (d *! 0.3) ltac:(lia)) as [Hp2 Hw2].
  destruct (Hstep (- d *! 0.2) ltac:(lia)) as [Hp3 Hw3].
  rewrite get_safe_turn_angle_run. unfold safe_turn_angle.
  unfold Rounded.get_safe_turn_angle, Rounded.bind at 1 2 3.
  unfold Rounded.gets at 1, Rounded.eval at 1.
  rewrite Hp1, Hw1. destruct (backtracks s (candidate s d)); [|reflexivity].
  unfold Rounded.bind at 1 2 3. unfold Rounded.gets at 1, Rounded.eval at 1.
  change (Rounded.mul (NF := exact_numbers) d
            (Rounded.literal (NF := exact_numbers) 0.3)) with (d *! 0.3).
  rewrite Hp2, Hw2.
  destruct (backtracks s (candidate s (d *! 0.3))); [|reflexivity].
  unfold Rounded.bind at 1 2 3. unfold Rounded.gets at 1, Rounded.eval at 1.
  assert (Hfifth : Rounded.mul (NF := exact_numbers) (- d)
                      (Rounded.literal (NF := exact_numbers) 0.2)
                    = - d *! 0.2).
  { unfold Rounded.mul, Rounded.literal, pmul.
    cbn [Numbers.rnd exact_numbers]. apply Qred_complete.
    now rewrite Qred_correct. }
  rewrite Hfifth, Hp3, Hw3.
  destruct (backtracks s (candidate s (- d *! 0.2))); reflexivity.
Qed.

End ExactFormat.

(** * The claims on the numbers of Python *)

Section ClaimsOnFormats.

Context {Seed G : Type}.


(** C8, amended.  The decision tree of [get_safe_turn_angle], in the
    exact numbers and in binary64 alike: when the heading, the initial
    direction and the desired angle have magnitude [2^60] at most, the
    three tests return (a bound on the iterations of the loops of
    [normalize_angle] is enough), and the method returns the desired
    angle when its candidate heading does not backtrack, else 30% of it
    when that candidate does not, else -20% of it when that candidate
    does not, else 0; [self] is left as it was. *)
Theorem get_safe_turn_angle_decision_tree :
  forall (NF : Numbers.Format) (s : TrackGenerator Seed G) (d : Q),
    Qabs (current_direction_angle s) <= inject_Z (2 ^ 60) ->
    Qabs (initial_direction s) <= inject_Z (2 ^ 60) ->
    Qabs d <= inject_Z (2 ^ 60) ->
    exists b1 b2 b3 : bool,
      forall fuel : nat,
        (Rounded.normalize_steps (inject_Z (2 ^ 62)) <= fuel)%nat ->
        Rounded.unsafe fuel s d = Some b1 /\
        Rounded.unsafe fuel s (Rounded.mul d (Rounded.literal 0.3))
          = Some b2 /\
        Rounded.unsafe fuel s (Rounded.mul (- d) (Rounded.literal 0.2))
          = Some b3 /\
        Rounded.get_safe_turn_angle fuel d s =
          Some (if b1 then
                  if b2 then
                    if b3 then 0
                    else Rounded.mul (- d) (Rounded.literal 0.2)
                  else Rounded.mul d (Rounded.literal 0.3)
                else d,
                s).
Proof.
  intros NF s d Hcur Hinit Hd.
  assert (Hd1 : Qabs d <= inject_Z (2 ^ 60) + 256) by lra.
  assert (Hd2 : Qabs (Rounded.mul d (Rounded.literal 0.3))
                <= inject_Z (2 ^ 60) + 256).
  { apply mul_literal_abs; [exact Hd|discriminate|discriminate]. }
  assert (Hd3 : Qabs (Rounded.mul (- d) (Rounded.literal 0.2))
                <= inject_Z (2 ^ 60) + 256).
  { apply mul_literal_abs; [now rewrite Qabs_opp|discriminate|discriminate]. }
  destruct (unsafe_returns s _ Hcur Hinit Hd1) as (p1 & b1 & H1).
  destruct (unsafe_returns s _ Hcur Hinit Hd2) as (p2 & b2 & H2).
  destruct (unsafe_returns s _ Hcur Hinit Hd3) as (p3 & b3 & H3).
  exists b1, b2, b3. intros fuel Hfuel.
  destruct (H1 fuel Hfuel) as (Hp1 & Hw1 & Hu1).
  destruct (H2 fuel Hfuel) as (Hp2 & Hw2 & Hu2).
  destruct (H3 fuel Hfuel) as (Hp3 & Hw3 & Hu3).
  split; [exact Hu1|]. split; [exact Hu2|]. split; [exact Hu3|].
  unfold Rounded.get_safe_turn_angle, Rounded.bind at 1 2 3.
  unfold Rounded.gets at 1, Rounded.eval at 1.
  rewrite Hp1, Hw1. destruct b1; [|reflexivity].
  unfold Rounded.bind at 1 2 3. unfold Rounded.gets at 1, Rounded.eval at 1.
  rewrite Hp2, Hw2. destruct b2; [|reflexivity].
  unfold Rounded.bind at 1 2 3. unfold Rounded.gets at 1, Rounded.eval at 1.
  rewrite Hp3, Hw3. destruct b3; reflexivity.
Qed.

End ClaimsOnFormats.


(** A remark on C4 outside the exact numbers: on binary64 numbers the
    first loop makes no progress from [1e19], where [angle - 360] rounds
    back to [angle]; no bound on the iterations is enough. *)
Lemma normalize_angle_stuck :
  forall fuel : nat, Binary64.normalize_angle_fuel fuel 1e19%float = None.
Proof.
  intros fuel. unfold Binary64.normalize_angle_fuel.
  assert (H : while_loop fuel (fun a => 180 <? a)%float
                (fun a => a - 360)%float 1e19%float = None).
  { induction fuel as [|fuel IH]; [reflexivity|].
    cbn [while_loop]. change (180 <? 1e19)%float with true. cbv iota.
    change (1e19 - 360)%float with 1e19%float. exact IH. }
  now rewrite H.
Qed.

(** * Concrete runs

    The generator on CPython's random stream, for the seeds 12345 (the
    default of the user interface), 2 and 114. *)

(** The stream of seed 12345 starts as CPython's does. *)
Example mersenne_twister_12345 :
  fst (MersenneTwister.genrand_uint32 (MersenneTwister.seed 12345))
    = 1789368711%Z /\
  fst (MersenneTwister.randint 20 50 (MersenneTwister.seed 12345)) = 33%Z.
Proof. split; vm_compute; reflexivity. Qed.

(** C2, at seed 12345, for a schedule that calls the two generators in
    turn around a draw from the module-level stream seeded with 7. *)
Lemma same_seed_same_track_witness :
  calls_first [CallFirst; CallSecond; RandomSeedButton; CallSecond; CallFirst]
    = 2%nat /\
  calls_second [CallFirst; CallSecond; RandomSeedButton; CallSecond; CallFirst]
    = 2%nat /\
  (let w := interleave
              [CallFirst; CallSecond; RandomSeedButton; CallSecond; CallFirst]
              (mkProgram (MersenneTwister.seed 7)
                 (__init__ 12345%Z 10 200%Z) (__init__ 12345%Z 10 200%Z)) in
   track_points (first w) = track_points (second w) /\
   turn_indices (first w) = turn_indices (second w) /\
   first w = advance 2 (__init__ 12345%Z 10 200%Z) /\
   fst (generate_full_track (first w))
     = fst (generate_full_track (second w))).
Proof.
  split; [reflexivity|]. split; [reflexivity|].
  exact (same_seed_same_track (Seed := Z) (G := MersenneTwister.state)
           12345%Z 10 200%Z 2
           [CallFirst; CallSecond; RandomSeedButton; CallSecond; CallFirst]
           (MersenneTwister.seed 7) eq_refl eq_refl).
Defined.

(** C10, at seed 12345 and [num_points = -5]. *)
Lemma negative_num_points_witness :
  (-5 < 0)%Z /\
  new (Seed := Z) (G := MersenneTwister.state) 12345%Z 10 (-5)%Z
    = Returned (__init__ 12345%Z 10 (-5)%Z) /\
  fst (generate_full_track
         (__init__ (G := MersenneTwister.state) 12345%Z 10 (-5)%Z))
    = ([(0, 0)], []) /\
  fst (generate_full_track
         (__init__ (G := MersenneTwister.state) 12345%Z 10 (-5)%Z))
    = fst (generate_full_track
             (__init__ (G := MersenneTwister.state) 12345%Z 10 0%Z)).
Proof.
  split; [reflexivity|].
  exact (negative_num_points_gives_origin_only
           (Seed := Z) (G := MersenneTwister.state) 12345%Z 10 (-5)%Z
           eq_refl).
Defined.

(** C5, at seed 12345: the first countdown is 33, the 34th call finds the
    countdown at zero and reseeds it. *)
Lemma countdown_ranges_witness :
  steps_until_next_turn (advance 33 (generator 12345)) = 0%Z /\
  turning (advance 33 (generator 12345)) = false /\
  (30 <= steps_until_next_turn (step (advance 33 (generator 12345))) <= 70)%Z.
Proof.
  unfold generator.
  pose proof (countdown_ranges (Seed := Z) (G := MersenneTwister.state)
                12345%Z default_step_length default_num_points 33) as H.
  cbv zeta in H. destruct H as (_ & _ & H & _).
  assert (Hzero : steps_until_next_turn
                    (advance 33 (__init__ 12345%Z default_step_length
                                   default_num_points)) = 0%Z)
    by (vm_compute; reflexivity).
  split; [exact Hzero|exact (H Hzero)].
Defined.

(** A state in the middle of a big turn: at seed 2 the 51st call starts
    one, and the 60th call is made during it. *)
Example mid_turn_state :
  turning (advance 60 (generator 2)) = true /\
  turn_indices (advance 60 (generator 2)) = [51%Z] /\
  turn_steps_remaining (advance 60 (generator 2)) = 17%Z /\
  uncut (advance 60 (generator 2)) = true.
Proof. split_all; vm_compute; reflexivity. Qed.

(** C5 as stated fails: [randint] includes its upper bound.  Seed 2 draws
    50 as the first countdown; seed 114 reseeds the countdown to 70 in
    its 28th call. *)
Lemma countdown_draws_upper_bounds :
  steps_until_next_turn (generator 2) = 50%Z /\
  uncut (generator 2) = true /\
  steps_until_next_turn (advance 27 (generator 114)) = 0%Z /\
  steps_until_next_turn (step (advance 27 (generator 114))) = 70%Z /\
  uncut (step (advance 27 (generator 114))) = true.
Proof. split_all; vm_compute; reflexivity. Qed.

(** C3 as stated fails: at seed 12345 the 34th call appends the index 34
    while the list holds 34 points, whose last valid index is 33. *)
Lemma turn_index_appended_past_the_end :
  let s := advance 33 (generator 12345) in
  let chosen := snd (choose_direction s) in
  turn_indices s = [] /\
  turn_indices chosen = [34%Z] /\
  len (track_points chosen) = 34%Z /\
  ~ (34 <= len (track_points chosen) - 1)%Z /\
  turn_indices (step s) = [34%Z] /\
  len (track_points (step s)) = 35%Z /\
  uncut (step s) = true.
Proof.
  cbn zeta.
  assert (Hlen : len (track_points
                        (snd (choose_direction (advance 33 (generator 12345)))))
                 = 34%Z) by (vm_compute; reflexivity).
  split_all; try exact Hlen; try (vm_compute; reflexivity).
  rewrite Hlen. lia.
Qed.

(** C6 as stated fails: a negative step length and a negative target
    length are accepted, and the track is generated from them. *)
Lemma negative_arguments_are_accepted :
  new (Seed := Z) (G := MersenneTwister.state) 12345%Z (-10) (-5)%Z
    = Returned (__init__ 12345%Z (-10) (-5)%Z) /\
  step_length (__init__ (G := MersenneTwister.state) 12345%Z (-10) (-5)%Z)
    = -10 /\
  num_points (__init__ (G := MersenneTwister.state) 12345%Z (-10) (-5)%Z)
    = (-5)%Z /\
  fst (generate_full_track
         (__init__ (G := MersenneTwister.state) 12345%Z (-10) (-5)%Z))
    = ([(0, 0)], []) /\
  new (Seed := Z) (G := MersenneTwister.state) 12345%Z 0 3%Z
    = Returned (__init__ 12345%Z 0 3%Z) /\
  fst (generate_full_track
         (__init__ (G := MersenneTwister.state) 12345%Z 0 3%Z))
    = ([(0, 0); (0, 0); (0, 0); (0, 0)], []).
Proof. split_all; vm_compute; reflexivity. Qed.

(** C7 as stated fails: the history holds six headings after the first
    call and keeps growing; nothing removes an entry. *)
Lemma heading_history_exceeds_five :
  length (previous_angles (generator 12345)) = 5%nat /\
  length (previous_angles (advance 1 (generator 12345))) = 6%nat /\
  length (previous_angles (advance 40 (generator 12345))) = 45%nat /\
  ~ (length (previous_angles (advance 40 (generator 12345))) <= 5)%nat.
Proof.
  assert (Hlen : length (previous_angles (advance 40 (generator 12345)))
                 = 45%nat) by (vm_compute; reflexivity).
  split_all; try exact Hlen; try (vm_compute; reflexivity).
  rewrite Hlen. lia.
Qed.

(** ** The methods in binary64 *)


(** C8, in binary64, for the generator of seed 12345 as constructed and
    a desired angle of a million degrees. *)
Lemma get_safe_turn_angle_decision_tree_witness :
  Qabs (current_direction_angle (generator 12345)) <= inject_Z (2 ^ 60) /\
  Qabs (initial_direction (generator 12345)) <= inject_Z (2 ^ 60) /\
  Qabs 1000000 <= inject_Z (2 ^ 60) /\
  exists b1 b2 b3 : bool,
    forall fuel : nat,
      (Rounded.normalize_steps (inject_Z (2 ^ 62)) <= fuel)%nat ->
      Rounded.unsafe (NF := binary64) fuel (generator 12345) 1000000
        = Some b1 /\
      Rounded.unsafe (NF := binary64) fuel (generator 12345)
        (Rounded.mul (NF := binary64) 1000000
           (Rounded.literal (NF := binary64) 0.3))
        = Some b2 /\
      Rounded.unsafe (NF := binary64) fuel (generator 12345)
        (Rounded.mul (NF := binary64) (- 1000000)
           (Rounded.literal (NF := binary64) 0.2))
        = Some b3 /\
      Rounded.get_safe_turn_angle (NF := binary64) fuel 1000000
        (generator 12345) =
        Some (if b1 then
                if b2 then
                  if b3 then 0
                  else Rounded.mul (NF := binary64) (- 1000000)
                         (Rounded.literal (NF := binary64) 0.2)
                else Rounded.mul (NF := binary64) 1000000
                       (Rounded.literal (NF := binary64) 0.3)
              else 1000000,
              generator 12345).
Proof.
  assert (Hcur : Qabs (current_direction_angle (generator 12345))
                 <= inject_Z (2 ^ 60)) by (vm_compute; discriminate).
  assert (Hinit : Qabs (initial_direction (generator 12345))
                  <= inject_Z (2 ^ 60)) by (vm_compute; discriminate).
  assert (Hd : Qabs 1000000 <= inject_Z (2 ^ 60)) by discriminate.
  split; [exact Hcur|]. split; [exact Hinit|]. split; [exact Hd|].
  pose proof (get_safe_turn_angle_decision_tree binary64 (generator 12345)
                1000000 Hcur Hinit Hd) as W.
  exact W.
Defined.

(** C8 as stated fails in binary64 for a desired angle of [1e19]: the
    candidate heading is [1e19], from which [normalize_angle] subtracts
    360 without effect, so that no bound on the iterations is enough and
    the method does not return. *)
Lemma get_safe_turn_angle_never_returns :
  current_direction_angle (generator 12345) = 0 /\
  Rounded.add (NF := binary64) 0 (inject_Z (10 ^ 19)) = inject_Z (10 ^ 19) /\
  Rounded.sub (NF := binary64) (inject_Z (10 ^ 19)) 360
    = inject_Z (10 ^ 19) /\
  (forall fuel : nat,
     Rounded.get_safe_turn_angle (NF := binary64) fuel (inject_Z (10 ^ 19))
       (generator 12345) = None) /\
  (forall fuel : nat,
     Binary64.normalize_angle_fuel fuel (0 + 1e19)%float = None).
Proof.
  assert (Hcur : current_direction_angle (generator 12345) = 0)
    by (vm_compute; reflexivity).
  assert (Hadd : Rounded.add (NF := binary64) 0 (inject_Z (10 ^ 19))
                 = inject_Z (10 ^ 19)) by (vm_compute; reflexivity).
  assert (Hsub : Rounded.sub (NF := binary64) (inject_Z (10 ^ 19)) 360
                 = inject_Z (10 ^ 19)) by (vm_compute; reflexivity).
  split; [exact Hcur|]. split; [exact Hadd|]. split; [exact Hsub|]. split.
  - intros fuel.
    unfold Rounded.get_safe_turn_angle, Rounded.bind at 1 2.
    unfold Rounded.gets at 1, Rounded.eval at 1.
    rewrite Hcur, Hadd.
    assert (Hloop : while_loop fuel (fun a => a >? 180)
                      (fun a => Rounded.sub (NF := binary64) a 360)
                      (inject_Z (10 ^ 19)) = None).
    { induction fuel as [|fuel IH]; [reflexivity|].
      cbn [while_loop].
      change (inject_Z (10 ^ 19) >? 180) with true. cbv iota.
      rewrite Hsub. exact IH. }
    unfold Rounded.normalize_angle. now rewrite Hloop.
  - intros fuel. change (0 + 1e19)%float with 1e19%float.
    unfold Binary64.normalize_angle_fuel.
    assert (Hloop : while_loop fuel (fun a => 180 <? a)%float
                      (fun a => a - 360)%float 1e19%float = None).
    { induction fuel as [|fuel IH]; [reflexivity|].
      cbn [while_loop]. change (180 <? 1e19)%float with true. cbv iota.
      change (1e19 - 360)%float with 1e19%float. exact IH. }
    now rewrite Hloop.
Qed.

(** The rounding of binary64 against the floating-point numbers of the
    kernel: single operations where the result is rounded, the literals
    [0.3] and [0.2], and the loops of [normalize_angle] from 1234567.25
    and from -98765.125. *)
Example binary64_agrees_with_kernel_floats :
  Double.to_Q (1e19 - 360)%float
    = Rounded.sub (NF := binary64) (Double.to_Q 1e19%float) 360 /\
  Double.to_Q (0x1.0000000000001p+57 - 360)%float
    = Rounded.sub (NF := binary64) (Double.to_Q 0x1.0000000000001p+57%float)
        360 /\
  Double.to_Q (-4611686018427387904 + 360)%float
    = Rounded.add (NF := binary64)
        (Double.to_Q (-4611686018427387904)%float) 360 /\
  Double.to_Q (0x1.f180000000001p+10 + 100)%float
    = Rounded.add (NF := binary64)
        (Double.to_Q 0x1.f180000000001p+10%float) 100 /\
  Double.to_Q 0x1.3333333333333p-2%float
    = Rounded.literal (NF := binary64) 0.3 /\
  Double.to_Q 0x1.999999999999ap-3%float
    = Rounded.literal (NF := binary64) 0.2 /\
  Double.to_Q (3 * 0x1.3333333333333p-2)%float
    = Rounded.mul (NF := binary64) 3 (Rounded.literal (NF := binary64) 0.3) /\
  option_map Double.to_Q (Binary64.normalize_angle_fuel 4000 1234567.25%float)
    = Rounded.normalize_angle (NF := binary64) 4000
        (Double.to_Q 1234567.25%float) /\
  option_map Double.to_Q
    (Binary64.normalize_angle_fuel 4000 (-98765.125)%float)
    = Rounded.normalize_angle (NF := binary64) 4000
        (Double.to_Q (-98765.125)%float).
Proof. split_all; vm_compute; reflexivity. Qed.

(** * Further properties of the generator *)

(** ** normalize_angle *)

(** A whole number of turns that is less than one turn is no turn. *)
Lemma whole_turns_small (k : Z) :
  -360 < 360 * inject_Z k -> 360 * inject_Z k < 360 -> k = 0%Z.
Proof.
  intros Hlo Hhi.
  assert (H1 : inject_Z (-1) < inject_Z k)
    by (change (inject_Z (-1)) with (-1); lra).
  assert (H2 : inject_Z k < inject_Z 1)
    by (change (inject_Z 1) with 1; lra).
  rewrite <- Zlt_Qlt in H1, H2. lia.
Qed.

(** X1.  [normalize_angle] is idempotent, and it is odd: the closed range
    is symmetric, so the opposite angle is normalised to the opposite
    value. *)
Theorem normalize_angle_idempotent_odd :
  forall angle : Q,
    normalize_angle (normalize_angle angle) = normalize_angle angle /\
    normalize_angle (- angle) == - normalize_angle angle.
Proof.
  intros a. split.
  - destruct (normalize_angle_bounds a).
    now apply normalize_angle_in_range.
  - destruct (normalize_angle_spec a)
      as (Hlo & Hhi & Habove & Hbelow & Hin & k & Hk).
    destruct (normalize_angle_spec (- a))
      as (Hlo' & Hhi' & Habove' & Hbelow' & Hin' & k' & Hk').
    destruct (Qlt_le_dec 180 a) as [Hbig|Hle].
    + specialize (Habove Hbig). specialize (Hbelow' ltac:(lra)).
      assert (Hz : (k + k')%Z = 0%Z).
      { apply whole_turns_small; rewrite inject_Z_plus; lra. }
      assert (Hk0 : inject_Z k + inject_Z k' == 0)
        by (rewrite <- inject_Z_plus, Hz; reflexivity).
      lra.
    + destruct (Qlt_le_dec a (-180)) as [Hneg|Hge].
      * specialize (Hbelow Hneg). specialize (Habove' ltac:(lra)).
        assert (Hz : (k + k')%Z = 0%Z).
        { apply whole_turns_small; rewrite inject_Z_plus; lra. }
        assert (Hk0 : inject_Z k + inject_Z k' == 0)
          by (rewrite <- inject_Z_plus, Hz; reflexivity).
        lra.
      * rewrite (Hin Hge Hle), (Hin' ltac:(lra) ltac:(lra)). reflexivity.
Qed.

Section Further.
Context {Seed G : Type} `{RS : Random.Source Seed G} `{MF : math.Functions}.

Lemma heading_inv_advance (seed0 : Seed) (sl : Q) (np : Z) (k : nat) :
  heading_inv (advance k (__init__ seed0 sl np)).
Proof.
  apply advance_invariant; [apply heading_inv_init|apply heading_inv_step].
Qed.

(** X2.  In every state that the constructor and the calls of
    [generate_next_point] produce, [would_cause_backtrack] is one
    comparison: the normalised candidate against 120 degrees.  The
    second test of the method (the cumulative-turn cap) never changes
    the answer, and [self] is left as it was. *)
Theorem would_cause_backtrack_single_test :
  forall (seed0 : Seed) (sl : Q) (np : Z) (k : nat) (proposed_angle : Q),
    let s := advance k (__init__ seed0 sl np) in
    would_cause_backtrack proposed_angle s =
      (Qabs (normalize_angle proposed_angle) >? 120, s).
Proof.
  intros seed0 sl np k p. cbn zeta.
  destruct (heading_inv_advance seed0 sl np k) as ((Hi & Ht & Hc) & _).
  rewrite would_cause_backtrack_run, Hi, Ht, Hc, orb_diag.
  f_equal. apply Qgtb_comp; [|reflexivity].
  assert (E : p -! 0 == p) by (rewrite psub_eq; ring).
  now rewrite E.
Qed.

Lemma Forall_last_n {A : Type} (P : A -> Prop) (n : nat) (l : list A) :
  Forall P l -> Forall P (last_n n l).
Proof.
  unfold last_n. generalize (length l - n)%nat as m.
  intros m. revert l. induction m as [|m IH]; intros l Hl; [exact Hl|].
  destruct l as [|x l]; [constructor|].
  cbn. apply IH. now inversion Hl.
Qed.

(** The mean of three numbers of an interval lies in the interval. *)
Lemma np_mean_three (lo hi : Q) (l : list Q) :
  length l = 3%nat ->
  Forall (fun h => lo <= h /\ h <= hi) l ->
  lo <= np_mean l /\ np_mean l <= hi.
Proof.
  intros Hlen Hall.
  destruct l as [|a [|b [|c [|d l]]]]; try discriminate.
  inversion Hall as [|? ? [Ha1 Ha2] Hall1]; subst.
  inversion Hall1 as [|? ? [Hb1 Hb2] Hall2]; subst.
  inversion Hall2 as [|? ? [Hc1 Hc2] _]; subst.
  unfold np_mean. cbn [fold_left len length].
  rewrite pdiv_eq, !padd_eq.
  change (inject_Z (len [a; b; c])) with 3.
  split.
  - apply Qle_shift_div_l; lra.
  - apply Qle_shift_div_r; lra.
Qed.

Lemma choose_direction_heading_history (s : TrackGenerator Seed G) :
  let s' := snd (choose_direction s) in
  (previous_angles s' = previous_angles s /\
   current_direction_angle s' = current_direction_angle s) \/
  previous_angles s' = previous_angles s ++ [current_direction_angle s'].
Proof.
  run_method. split_run.
  all: cbn; unfold append; auto.
Qed.

Lemma history_inv_init (seed0 : Seed) (sl : Q) (np : Z) :
  history_inv (__init__ seed0 sl np).
Proof.
  unfold __init__. destruct (Random.randint 20 50 _).
  split; [reflexivity|]. split; [|cbn; lia].
  cbn. repeat constructor; lra.
Qed.

Lemma history_inv_step (s : TrackGenerator Seed G) :
  heading_inv s -> history_inv s -> history_inv (step s).
Proof.
  intros Hheading (Hlast & Hall & Hlen).
  pose proof (heading_inv_step s Hheading) as (_ & Hlo & Hhi).
  revert Hlo Hhi. rewrite step_eq, move_forward_run. cbn [snd].
  unfold history_inv.
  cbn [previous_angles current_direction_angle set_track_points
       set_current_position].
  intros Hlo Hhi.
  destruct (choose_direction_heading_history s) as [[Hsame Hcur]|Hnew].
  - rewrite Hsame, Hcur. repeat split; assumption.
  - rewrite Hnew. split; [apply last_last|]. split.
    + apply Forall_app. split; [exact Hall|].
      constructor; [split; assumption|constructor].
    + rewrite length_app. cbn. lia.
Qed.

Lemma history_inv_advance (seed0 : Seed) (sl : Q) (np : Z) (k : nat) :
  history_inv (advance k (__init__ seed0 sl np)).
Proof.
  induction k as [|k IH].
  - rewrite advance_0. apply history_inv_init.
  - rewrite advance_S. apply history_inv_step; [|exact IH].
    apply heading_inv_advance.
Qed.

(** X3.  The history always ends with the current heading and holds only
    headings within 120 degrees of the initial one; the smoothed angle,
    the mean of its last three entries, is therefore within 120 degrees
    too. *)
Theorem history_ends_with_heading :
  forall (seed0 : Seed) (sl : Q) (np : Z) (k : nat),
    let s := advance k (__init__ seed0 sl np) in
    last (previous_angles s) 0 = current_direction_angle s /\
    Forall (fun h => -120 <= h /\ h <= 120) (previous_angles s) /\
    -120 <= fst (get_smoothed_angle s) /\
    fst (get_smoothed_angle s) <= 120.
Proof.
  intros seed0 sl np k. cbn zeta.
  destruct (history_inv_advance seed0 sl np k) as (Hlast & Hall & Hlen).
  split; [exact Hlast|]. split; [exact Hall|].
  unfold get_smoothed_angle, bind, gets, ret. cbn [fst].
  apply np_mean_three.
  - apply last_n_length. lia.
  - apply Forall_last_n. exact Hall.
Qed.

(** *** The spacing of the turn indices *)

Lemma choose_direction_spacing (s : TrackGenerator Seed G) :
  let s' := snd (choose_direction s) in
  (turn_indices s' = turn_indices s /\
   (steps_until_next_turn s - 1 <= steps_until_next_turn s')%Z) \/
  (turn_indices s' = turn_indices s ++ [len (track_points s)] /\
   (steps_until_next_turn s <= 0)%Z /\
   (30 <= steps_until_next_turn s')%Z).
Proof.
  pose proof (Random.randint_range 30 70 (random s) ltac:(lia)) as Hdraw.
  run_method. split_run.
  all: cbn [fst] in Hdraw; cbn; unfold append.
  all: repeat match goal with
         | H : (0 <? _)%Z = true |- _ => apply Z.ltb_lt in H
         | H : (0 <? _)%Z = false |- _ => apply Z.ltb_ge in H
         end.
  all: first [ left; split; [reflexivity|lia]
             | right; split; [reflexivity|lia] ].
Qed.

Lemma spacing_inv_init (seed0 : Seed) (sl : Q) (np : Z) :
  spacing_inv (__init__ seed0 sl np).
Proof.
  pose proof (proj2 (countdown_inv_init seed0 sl np)) as Hcount.
  revert Hcount. unfold __init__, spacing_inv.
  destruct (Random.randint 20 50 _).
  cbn [steps_until_next_turn track_points turn_indices].
  change (len [(0, 0)]) with 1%Z. intros Hcount.
  split; [lia|]. split; [constructor|]. split; constructor.
Qed.

Lemma spacing_inv_step (s : TrackGenerator Seed G) :
  spacing_inv s -> spacing_inv (step s).
Proof.
  intros (Hsum & Hnext & Hfirst & Hsorted). unfold spacing_inv.
  rewrite step_turn_indices, step_points.
  assert (Hcount : steps_until_next_turn (step s)
                   = steps_until_next_turn (snd (choose_direction s)))
    by (rewrite step_eq, move_forward_run; reflexivity).
  rewrite Hcount.
  assert (Hgrow : len (track_points s ++ [current_position (step s)])
                  = (len (track_points s) + 1)%Z).
  { unfold len. rewrite length_app. cbn. lia. }
  rewrite Hgrow.
  destruct (choose_direction_spacing s) as [[Hsame Hc]|(Hnew & Hzero & Hc)].
  - rewrite Hsame. split; [lia|]. split; [|split; assumption].
    eapply Forall_impl; [|exact Hnext]. cbv beta. intros; lia.
  - rewrite Hnew. split; [lia|]. split; [|split].
    + apply Forall_app. split.
      * eapply Forall_impl; [|exact Hnext]. cbv beta. intros; lia.
      * constructor; [lia|constructor].
    + apply Forall_app. split; [exact Hfirst|].
      constructor; [lia|constructor].
    + apply StronglySorted_snoc; [exact Hsorted|].
      eapply Forall_impl; [|exact Hnext]. cbv beta. intros; lia.
Qed.

(** X4.  Flagged turns are sparse: no point before the 21st is flagged,
    and two flagged points are at least 31 points apart. *)
Theorem turn_indices_sparse :
  forall (seed0 : Seed) (sl : Q) (np : Z) (k : nat),
    let s := advance k (__init__ seed0 sl np) in
    Forall (fun i => (21 <= i)%Z) (turn_indices s) /\
    StronglySorted (fun i j => (i + 31 <= j)%Z) (turn_indices s).
Proof.
  intros seed0 sl np k. cbn zeta.
  assert (Hinv : spacing_inv (advance k (__init__ seed0 sl np))).
  { apply advance_invariant; [apply spacing_inv_init|apply spacing_inv_step]. }
  destruct Hinv as (_ & _ & Hfirst & Hsorted). split; assumption.
Qed.

(** *** A big turn *)

Lemma advance_add (k j : nat) (s : TrackGenerator Seed G) :
  advance j (advance k s) = advance (k + j) s.
Proof.
  induction j as [|j IH].
  - now rewrite advance_0, Nat.add_0_r.
  - now rewrite advance_S, IH, Nat.add_succ_r, advance_S.
Qed.

Lemma choose_direction_big_turn (s : TrackGenerator Seed G) :
  heading_inv s -> big_turn_inv s -> big_turn_inv (snd (choose_direction s)).
Proof.
  intros Hinv [Hr Htarget]. unfold big_turn_inv in *.
  run_method. split_run.
  all: cbn [turning turn_steps_remaining target_direction_angle
            current_direction_angle turn_angle_increment
            set_random set_current_direction_angle set_previous_angles
            set_turn_steps_remaining set_turning set_target_direction_angle
            set_steps_until_next_turn set_turn_indices set_turn_total_steps
            set_turn_angle_increment snd].
  all: try match goal with
         | H : (0 <? _)%Z = true |- _ => apply Z.ltb_lt in H
         end.
  all: try (split; [lia|]; intros Hon;
            first [discriminate | congruence | now apply Htarget]).
  all: back_to s.
  all: match goal with
       | Hd : Random.randint 15 30 ?g' = (?z, _) |- _ =>
           let Hz := fresh "Hz" in
           pose proof (Random.randint_range 15 30 g' ltac:(lia)) as Hz;
           rewrite Hd in Hz; cbn [fst] in Hz
       end.
  all: split; [lia|]; intros _; apply safe_turn_angle_heading; exact Hinv.
Qed.

Lemma big_turn_inv_advance (seed0 : Seed) (sl : Q) (np : Z) (k : nat) :
  big_turn_inv (advance k (__init__ seed0 sl np)).
Proof.
  induction k as [|k IH].
  - rewrite advance_0. unfold big_turn_inv, __init__.
    destruct (Random.randint 20 50 _). cbn. split; [lia|discriminate].
  - rewrite advance_S, step_eq, move_forward_run. cbn [snd].
    apply (choose_direction_big_turn _
             (heading_inv_advance seed0 sl np k) IH).
Qed.

Lemma countdown_inv_advance (seed0 : Seed) (sl : Q) (np : Z) (k : nat) :
  countdown_inv (advance k (__init__ seed0 sl np)).
Proof.
  apply advance_invariant; [apply countdown_inv_init|apply countdown_inv_step].
Qed.

(** One call made during a big turn, whatever the test on the new
    heading answers. *)
Lemma step_during_turn (s : TrackGenerator Seed G) :
  (0 <= turn_steps_remaining s)%Z ->
  turning s = true ->
  random (step s) = random s /\
  turn_indices (step s) = turn_indices s /\
  steps_until_next_turn (step s) = steps_until_next_turn s /\
  turn_angle_increment (step s) = turn_angle_increment s /\
  (turning (step s) = true ->
   (0 < turn_steps_remaining s)%Z /\
   turn_steps_remaining (step s) = (turn_steps_remaining s - 1)%Z /\
   current_direction_angle (step s)
     = normalize_angle (current_direction_angle s +! turn_angle_increment s) /\
   target_direction_angle (step s) = target_direction_angle s) /\
  (turning (step s) = false ->
   turn_steps_remaining (step s) = 0%Z /\
   current_direction_angle (step s) = current_direction_angle s) /\
  (turn_steps_remaining s = 0%Z ->
   turning (step s) = false /\
   target_direction_angle (step s) = current_direction_angle s).
Proof.
  intros Hr Hon. rewrite step_eq, move_forward_run. cbn [snd].
  run_method. rewrite Hon.
  destruct (0 <? turn_steps_remaining s)%Z eqn:Hpos.
  - apply Z.ltb_lt in Hpos.
    cbn -[Z.sub normalize_angle padd would_cause_backtrack].
    rewrite would_cause_backtrack_eq.
    destruct (backtracks s
                (current_direction_angle s +! turn_angle_increment s)).
    + cbn. split_all; try reflexivity.
      * intros H. discriminate.
      * intros _. split; reflexivity.
      * intros Hz. lia.
    + cbn -[Z.sub normalize_angle padd]. rewrite Hon.
      split_all; try reflexivity.
      * intros _. split_all; [exact Hpos|reflexivity|reflexivity|reflexivity].
      * intros H. discriminate.
      * intros Hz. lia.
  - apply Z.ltb_ge in Hpos. cbn.
    split_all; try reflexivity.
    + intros H. discriminate.
    + intros _. split; [lia|reflexivity].
    + intros _. split; reflexivity.
Qed.

(** One call made outside a big turn while the countdown runs. *)
Lemma step_on_countdown (s : TrackGenerator Seed G) :
  turning s = false ->
  (0 < steps_until_next_turn s)%Z ->
  turning (step s) = false /\
  turn_indices (step s) = turn_indices s /\
  steps_until_next_turn (step s) = (steps_until_next_turn s - 1)%Z.
Proof.
  intros Hoff Hcount. apply Z.ltb_lt in Hcount.
  rewrite step_eq, move_forward_run. cbn [snd].
  run_method. rewrite Hoff.
  cbn -[Z.sub normalize_angle padd would_cause_backtrack np_mean last_n].
  rewrite Hcount.
  split_run.
  all: cbn; rewrite ?Hoff; split_all; reflexivity.
Qed.

(** X5.  A call of [generate_next_point] made during a big turn, in any
    state that the constructor and the calls produce.  At most 30 steps
    remain, the target is within 120 degrees and the countdown stands at
    30 or more.  The call draws nothing from the random stream, flags no
    turn and leaves the countdown and the increment.  If the turn is
    still on after the call, a step remained, one step was counted down
    and the heading is the normalised sum of heading and increment; if
    the turn is off, no step remains and the heading is as before; with
    no step left the call ends the turn and copies the heading to the
    target. *)
Theorem big_turn_step :
  forall (seed0 : Seed) (sl : Q) (np : Z) (k : nat),
    let s := advance k (__init__ seed0 sl np) in
    turning s = true ->
    (0 <= turn_steps_remaining s <= 30)%Z /\
    Qabs (target_direction_angle s) <= 120 /\
    (30 <= steps_until_next_turn s)%Z /\
    random (step s) = random s /\
    turn_indices (step s) = turn_indices s /\
    steps_until_next_turn (step s) = steps_until_next_turn s /\
    turn_angle_increment (step s) = turn_angle_increment s /\
    (turning (step s) = true ->
     (0 < turn_steps_remaining s)%Z /\
     turn_steps_remaining (step s) = (turn_steps_remaining s - 1)%Z /\
     current_direction_angle (step s)
       = normalize_angle
           (current_direction_angle s +! turn_angle_increment s) /\
     target_direction_angle (step s) = target_direction_angle s) /\
    (turning (step s) = false ->
     turn_steps_remaining (step s) = 0%Z /\
     current_direction_angle (step s) = current_direction_angle s) /\
    (turn_steps_remaining s = 0%Z ->
     turning (step s) = false /\
     target_direction_angle (step s) = current_direction_angle s).
Proof.
  intros seed0 sl np k. cbn zeta. intros Hon.
  destruct (big_turn_inv_advance seed0 sl np k) as [Hr Htarget].
  destruct (countdown_inv_advance seed0 sl np k) as [_ Hcount].
  split; [exact Hr|].
  split; [apply Qabs_Qle_condition; exact (Htarget Hon)|].
  split; [exact (Hcount Hon)|].
  apply step_during_turn; [lia|exact Hon].
Qed.

(** The calls that follow a moment of a big turn with [r] steps
    remaining: while the turn is on, the steps are counted down one per
    call and nothing is drawn; once it is off, the countdown, which stood
    at 30 or more, keeps the next turn away. *)
Lemma calls_after_turn_start (seed0 : Seed) (sl : Q) (np : Z) (k : nat) :
  let s := advance k (__init__ seed0 sl np) in
  turning s = true ->
  forall j : nat,
    (Z.of_nat j <= turn_steps_remaining s + 1)%Z ->
    turn_indices (advance j s) = turn_indices s /\
    ((turning (advance j s) = true /\
      turn_steps_remaining (advance j s)
        = (turn_steps_remaining s - Z.of_nat j)%Z /\
      random (advance j s) = random s /\
      steps_until_next_turn (advance j s) = steps_until_next_turn s) \/
     (turning (advance j s) = false /\
      (31 <= steps_until_next_turn (advance j s) + Z.of_nat j)%Z)).
Proof.
  cbn zeta. intros Hon.
  set (s := advance k (__init__ seed0 sl np)) in *.
  destruct (big_turn_inv_advance seed0 sl np k) as [Hr _]. fold s in Hr.
  destruct (countdown_inv_advance seed0 sl np k) as [_ Hcount].
  fold s in Hcount. specialize (Hcount Hon).
  induction j as [|j IH]; intros Hj.
  - rewrite advance_0. split; [reflexivity|]. left.
    split; [exact Hon|]. split; [lia|]. split; reflexivity.
  - destruct IH as [Hindices Hcases]; [lia|].
    rewrite advance_S.
    assert (Hreach : advance j s
                     = advance (k + j) (__init__ seed0 sl np))
      by (unfold s; apply advance_add).
    destruct (big_turn_inv_advance seed0 sl np (k + j)) as [Hrj _].
    rewrite <- Hreach in Hrj.
    destruct Hcases as [(Honj & Hremaining & Hrandom & Hcountdown)
                       |(Hoffj & Hcountdown)].
    + destruct (step_during_turn (advance j s) (proj1 Hrj) Honj)
        as (Hrnd & Hidx & Hcd & _ & Hstill & Hended & _).
      split; [now rewrite Hidx|].
      destruct (turning (step (advance j s))) eqn:Hnext.
      * left. destruct (Hstill eq_refl) as (_ & Hdec & _).
        split; [reflexivity|]. split; [lia|].
        split; [now rewrite Hrnd|]. now rewrite Hcd.
      * right. split; [reflexivity|]. lia.
    + assert (Hpositive : (0 < steps_until_next_turn (advance j s))%Z)
        by lia.
      destruct (step_on_countdown (advance j s) Hoffj Hpositive)
        as (Hoff & Hidx & Hcd).
      split; [now rewrite Hidx|]. right. split; [exact Hoff|]. lia.
Qed.

(** X6.  A big turn is over in time.  From any moment of a big turn with
    [r] steps remaining, the turn is off after [r + 1] calls; as long as
    it is on, one step is counted down per call and nothing is drawn from
    the random stream; and none of these calls flags a turn. *)
Theorem big_turn_ends_in_time :
  forall (seed0 : Seed) (sl : Q) (np : Z) (k : nat),
    let s := advance k (__init__ seed0 sl np) in
    let r := Z.to_nat (turn_steps_remaining s) in
    turning s = true ->
    turning (advance (S r) s) = false /\
    (forall j : nat,
       (j <= S r)%nat ->
       turn_indices (advance j s) = turn_indices s /\
       (turning (advance j s) = true ->
        turn_steps_remaining (advance j s)
          = (turn_steps_remaining s - Z.of_nat j)%Z /\
        random (advance j s) = random s)).
Proof.
  intros seed0 sl np k. cbn zeta. intros Hon.
  pose proof (calls_after_turn_start seed0 sl np k Hon) as Hcalls.
  set (s := advance k (__init__ seed0 sl np)) in *.
  destruct (big_turn_inv_advance seed0 sl np k) as [Hr _]. fold s in Hr.
  split.
  - destruct (Hcalls (S (Z.to_nat (turn_steps_remaining s))) ltac:(lia))
      as [_ [(Honj & Hremaining & _)|(Hoff & _)]]; [|exact Hoff].
    assert (Hreach : advance (S (Z.to_nat (turn_steps_remaining s))) s
                     = advance (k + S (Z.to_nat (turn_steps_remaining s)))
                         (__init__ seed0 sl np))
      by (unfold s; apply advance_add).
    destruct (big_turn_inv_advance seed0 sl np
                (k + S (Z.to_nat (turn_steps_remaining s)))) as [Hrj _].
    rewrite <- Hreach in Hrj. lia.
  - intros j Hj.
    destruct (Hcalls j ltac:(lia)) as [Hindices Hcases].
    split; [exact Hindices|]. intros Honj.
    destruct Hcases as [(_ & Hremaining & Hrandom & _)|(Hoff & _)];
      [split; assumption|congruence].
Qed.

(** *** The configuration *)

Lemma choose_direction_settings (s : TrackGenerator Seed G) :
  settings (snd (choose_direction s)) = settings s.
Proof.
  run_method. split_run.
  all: reflexivity.
Qed.

Lemma step_settings (s : TrackGenerator Seed G) :
  settings (step s) = settings s.
Proof.
  rewrite step_eq, move_forward_run. cbn [snd].
  rewrite <- (choose_direction_settings s). reflexivity.
Qed.

Lemma advance_settings (k : nat) (s : TrackGenerator Seed G) :
  settings (advance k s) = settings s.
Proof.
  induction k as [|k IH]; [now rewrite advance_0|].
  now rewrite advance_S, step_settings.
Qed.

Lemma advance_num_points (k : nat) (s : TrackGenerator Seed G) :
  num_points (advance k s) = num_points s.
Proof.
  pose proof (advance_settings k s) as H. unfold settings in H.
  injection H as H1 H2 H3 H4 H5 H6 H7 H8. assumption.
Qed.

Lemma init_attributes (seed0 : Seed) (sl : Q) (np : Z) :
  let g := __init__ seed0 sl np in
  num_points g = np /\ track_points g = [(0, 0)] /\ turn_indices g = [].
Proof.
  cbn zeta. unfold __init__. destruct (Random.randint 20 50 _).
  split_all; reflexivity.
Qed.

(** X7.  The configuration is fixed.  No call of [generate_next_point]
    changes the seed, the step length, the target length or the limits;
    [cumulative_turn], which the constructor sets to 0 to track the total
    turning, is never updated and stays 0, and [max_turn_angle] stays
    60. *)
Theorem settings_never_change :
  forall (seed0 : Seed) (sl : Q) (np : Z) (k : nat),
    let s := advance k (__init__ seed0 sl np) in
    seed s = seed0 /\
    step_length s = sl /\
    num_points s = np /\
    initial_direction s = 0 /\
    cumulative_turn s = 0 /\
    max_turn_angle s = 60 /\
    max_cumulative_turn s = 120 /\
    backtrack_threshold s = 120.
Proof.
  intros seed0 sl np k. cbn zeta.
  pose proof (advance_settings k (__init__ seed0 sl np)) as H.
  unfold settings in H.
  assert (Hinit : settings (__init__ seed0 sl np)
                  = (seed0, sl, np, 0, 0, 60, 120, 120)).
  { unfold settings, __init__. destruct (Random.randint 20 50 _).
    reflexivity. }
  unfold settings in Hinit. rewrite Hinit in H.
  injection H as H1 H2 H3 H4 H5 H6 H7 H8. split_all; assumption.
Qed.

(** *** Calling [generate_full_track] again *)

Lemma full_tracks_advance (j : nat) (s : TrackGenerator Seed G) :
  full_tracks j s = advance (j * Z.to_nat (num_points s)) s.
Proof.
  induction j as [|j IH]; [reflexivity|].
  change (full_tracks (S j) s)
    with (snd (generate_full_track (full_tracks j s))).
  rewrite IH, generate_full_track_advance. cbn [snd].
  rewrite advance_num_points, advance_add. f_equal. lia.
Qed.

(** X8.  [generate_full_track] does not start over.  Every call makes
    [max(num_points, 0)] further calls of [generate_next_point] on the
    same track: after [j] calls, the next one returns
    [(j + 1) * max(num_points, 0) + 1] points, of which the points held
    before the call are the first. *)
Theorem generate_full_track_resumes :
  forall (seed0 : Seed) (sl : Q) (np : Z) (j : nat),
    let n := Z.to_nat np in
    let before := full_tracks j (__init__ seed0 sl np) in
    let returned := fst (generate_full_track before) in
    before = advance (j * n) (__init__ seed0 sl np) /\
    snd (generate_full_track before) = full_tracks (S j) (__init__ seed0 sl np) /\
    returned
      = (track_points (advance (S j * n) (__init__ seed0 sl np)),
         turn_indices (advance (S j * n) (__init__ seed0 sl np))) /\
    length (fst returned) = S (S j * n) /\
    firstn (S (j * n)) (fst returned) = track_points before.
Proof.
  intros seed0 sl np j. cbn zeta.
  set (g0 := __init__ seed0 sl np).
  destruct (init_attributes seed0 sl np) as (Hnum & Hpoints & _).
  fold g0 in Hnum, Hpoints.
  rewrite (full_tracks_advance j g0), Hnum.
  split; [reflexivity|]. split.
  { rewrite (full_tracks_advance (S j) g0), Hnum.
    rewrite generate_full_track_advance. cbn [snd].
    rewrite advance_num_points, Hnum, advance_add. f_equal. lia. }
  rewrite generate_full_track_advance. cbn [fst].
  rewrite advance_num_points, Hnum, advance_add.
  replace (j * Z.to_nat np + Z.to_nat np)%nat with (S j * Z.to_nat np)%nat
    by lia.
  split; [reflexivity|]. cbn [fst]. split.
  - rewrite advance_points_length, Hpoints. cbn [length]. lia.
  - replace (S j * Z.to_nat np)%nat with (j * Z.to_nat np + Z.to_nat np)%nat
      by lia.
    rewrite <- advance_add.
    assert (Hprefix : forall (k : nat) (s : TrackGenerator Seed G),
              firstn (length (track_points s)) (track_points (advance k s))
              = track_points s).
    { intros k s. induction k as [|k IH].
      - rewrite advance_0. apply firstn_all.
      - rewrite advance_S, step_points, firstn_app.
        rewrite IH.
        replace (length (track_points s)
                 - length (track_points (advance k s)))%nat with 0%nat
          by (rewrite advance_points_length; lia).
        cbn [firstn]. apply app_nil_r. }
    transitivity
      (firstn (length (track_points (advance (j * Z.to_nat np) g0)))
         (track_points
            (advance (Z.to_nat np) (advance (j * Z.to_nat np) g0))));
      [|apply Hprefix].
    f_equal. rewrite advance_points_length, Hpoints. cbn [length]. lia.
Qed.

End Further.

(** * Properties of the application *)

Section ApplicationProperties.

Context {G : Type} `{RS : Random.Source App.seed_value G}
  `{MF : math.Functions} `{PY : App.Builtins}.

(** ** Python sequences *)

Lemma index_in_range {A : Type} (l : list A) (i : Z) (d : A) :
  (0 <= i < len l)%Z -> App.index l i = App.Done (nth (Z.to_nat i) l d).
Proof.
  intros Hi. unfold App.index.
  destruct (i <? 0)%Z eqn:Hneg; [apply Z.ltb_lt in Hneg; lia|].
  assert (H0 : (0 <=? i)%Z = true) by (apply Z.leb_le; lia).
  assert (H1 : (i <? len l)%Z = true) by (apply Z.ltb_lt; lia).
  rewrite H0, H1. cbn [andb].
  destruct (nth_error l (Z.to_nat i)) as [a|] eqn:Hnth.
  - f_equal. symmetry. now apply nth_error_nth.
  - apply nth_error_None in Hnth. unfold len in Hi. lia.
Qed.

Lemma index_last {A : Type} (l : list A) (d : A) :
  (0 < len l)%Z -> App.index l (-1) = App.Done (last l d).
Proof.
  intros Hl. unfold App.index. cbn [Z.ltb Z.compare].
  assert (H0 : (0 <=? -1 + len l)%Z = true) by (apply Z.leb_le; lia).
  assert (H1 : (-1 + len l <? len l)%Z = true) by (apply Z.ltb_lt; lia).
  rewrite H0, H1. cbn [andb].
  destruct (nth_error l (Z.to_nat (-1 + len l))) as [a|] eqn:Hnth.
  - f_equal. apply nth_error_nth with (d := d) in Hnth.
    rewrite <- Hnth. unfold len.
    replace (Z.to_nat (-1 + Z.of_nat (length l))) with (length l - 1)%nat
      by lia.
    destruct l as [|x l] using rev_ind; [cbn in Hl; lia|].
    rewrite last_last, length_app. cbn [length].
    replace (length l + 1 - 1)%nat with (length l) by lia.
    now rewrite nth_middle.
  - apply nth_error_None in Hnth. unfold len in *. lia.
Qed.

Lemma lookups_in_range {A B : Type} (f : A -> B) (l : list A) (d : A)
    (indices : list Z) :
  Forall (fun i => (0 <= i < len l)%Z) indices ->
  App.lookups f l indices
    = App.Done (map f (map (fun i => nth (Z.to_nat i) l d) indices)).
Proof.
  induction 1 as [|i indices Hi _ IH]; [reflexivity|].
  cbn [App.lookups map]. now rewrite (index_in_range l i d Hi), IH.
Qed.

Lemma fold_min_spec (rest : list Q) :
  forall x : Q,
    let m := fold_left (fun m y => if y <? m then y else m) rest x in
    m <= x /\ Forall (fun y => m <= y) rest.
Proof.
  induction rest as [|y rest IH]; intros x; cbn zeta; cbn [fold_left].
  - split; [apply Qle_refl|constructor].
  - destruct (y <? x) eqn:Hlt.
    + apply Qltb_true in Hlt. destruct (IH y) as [Hy Hrest].
      split; [lra|]. constructor; assumption.
    + apply Qltb_false in Hlt. destruct (IH x) as [Hx Hrest].
      split; [exact Hx|]. constructor; [lra|assumption].
Qed.

Lemma fold_max_spec (rest : list Q) :
  forall x : Q,
    let m := fold_left (fun m y => if y >? m then y else m) rest x in
    x <= m /\ Forall (fun y => y <= m) rest.
Proof.
  induction rest as [|y rest IH]; intros x; cbn zeta; cbn [fold_left].
  - split; [apply Qle_refl|constructor].
  - destruct (y >? x) eqn:Hgt.
    + apply Qgtb_true in Hgt. destruct (IH y) as [Hy Hrest].
      split; [lra|]. constructor; assumption.
    + apply Qgtb_false in Hgt. destruct (IH x) as [Hx Hrest].
      split; [exact Hx|]. constructor; [lra|assumption].
Qed.

Lemma py_min_spec (xs : list Q) :
  xs <> [] ->
  exists m : Q, App.py_min xs = App.Done m /\ Forall (fun x => m <= x) xs.
Proof.
  destruct xs as [|x rest]; [congruence|]. intros _.
  destruct (fold_min_spec rest x) as [Hx Hrest].
  eexists. split; [reflexivity|]. constructor; assumption.
Qed.

Lemma py_max_spec (xs : list Q) :
  xs <> [] ->
  exists m : Q, App.py_max xs = App.Done m /\ Forall (fun x => x <= m) xs.
Proof.
  destruct xs as [|x rest]; [congruence|]. intros _.
  destruct (fold_max_spec rest x) as [Hx Hrest].
  eexists. split; [reflexivity|]. constructor; assumption.
Qed.

(** ** Running the handlers *)

Lemma ui_bind_done {A B : Type} (m : App.UI G A) (k : A -> App.UI G B)
    (s s' : App.TrackApp G) (a : A) :
  m s = (App.Done a, s') -> App.ui_bind m k s = k a s'.
Proof. intros H. unfold App.ui_bind. now rewrite H. Qed.

Lemma read_seed_run (a : App.TrackApp G) :
  App.read_seed a = (App.Done (entered_seed a), a).
Proof.
  unfold App.read_seed, entered_seed, App.ui_bind, App.ui_get, App.ui_ret.
  destruct (App.int (App.seed_var a)); reflexivity.
Qed.

Lemma turn_inv_advance (seed0 : App.seed_value) (sl : Q) (np : Z) (k : nat) :
  turn_inv (advance k (__init__ seed0 sl np)).
Proof.
  apply advance_invariant; [apply turn_inv_init|apply turn_inv_step].
Qed.

(** The lookups of the flagged points succeed, whatever is looked up in
    a point. *)
Lemma lookups_flagged {B : Type} (f : Q * Q -> B)
    (g : TrackGenerator App.seed_value G) :
  turn_inv g ->
  App.lookups f (track_points g) (turn_indices g)
    = App.Done (map f (flagged g)).
Proof.
  intros (_ & _ & Hvalid). unfold flagged.
  apply lookups_in_range.
  eapply Forall_impl; [|exact Hvalid]. cbv beta. intros; lia.
Qed.

(** The handler [generate_full_track], when the length entry holds an
    integer: the limits it sets are the least and greatest coordinates,
    moved out by the margin. *)
Lemma generate_full_track_run (a : App.TrackApp G) (n : Z) :
  App.length_var a = Some n ->
  let g := advance (Z.to_nat n) (__init__ (entered_seed a) 10 n) in
  exists min_x max_x min_y max_y : Q,
    Forall (fun p => min_x <= fst p /\ fst p <= max_x /\
                     min_y <= snd p /\ snd p <= max_y) (track_points g) /\
    App.generate_full_track a =
      (App.Done tt,
       App.set_calls
         (App.calls a ++
          full_view_calls (entered_seed a) n g (min_x -! 100) (max_x +! 100)
            (min_y -! 100) (max_y +! 100))
         (App.set_track_gen (Some g) a)).
Proof.
  intros Hlength. cbn zeta.
  set (g0 := __init__ (entered_seed a) 10 n).
  set (g := advance (Z.to_nat n) g0).
  assert (Hnum : num_points g0 = n).
  { unfold g0, __init__. destruct (Random.randint 20 50 _). reflexivity. }
  assert (Hturn : turn_inv g) by apply turn_inv_advance.
  assert (Hnonempty : track_points g <> []).
  { destruct Hturn as (Hlen & _). intros Hnil. rewrite Hnil in Hlen.
    cbn in Hlen. lia. }
  assert (Hxs : map fst (track_points g) <> []).
  { intros H. apply map_eq_nil in H. contradiction. }
  assert (Hys : map snd (track_points g) <> []).
  { intros H. apply map_eq_nil in H. contradiction. }
  destruct (py_min_spec _ Hxs) as (min_x & Hmin_x & Hmin_x_le).
  destruct (py_max_spec _ Hxs) as (max_x & Hmax_x & Hmax_x_ge).
  destruct (py_min_spec _ Hys) as (min_y & Hmin_y & Hmin_y_le).
  destruct (py_max_spec _ Hys) as (max_y & Hmax_y & Hmax_y_ge).
  exists min_x, max_x, min_y, max_y. split.
  - rewrite Forall_map in Hmin_x_le, Hmax_x_ge, Hmin_y_le, Hmax_y_ge.
    rewrite Forall_forall in *.
    intros p Hp. split_all; auto.
  - unfold App.generate_full_track, App.try_except.
    rewrite (ui_bind_done _ _ _ _ _ (read_seed_run a)).
    unfold App.read_length.
    unfold App.ui_bind at 1. unfold App.ui_bind at 1.
    unfold App.ui_get at 1. rewrite Hlength. unfold App.ui_ret at 1.
    unfold App.create_track_gen, new. fold g0.
    unfold App.ui_bind at 1. unfold App.ui_set at 1.
    unfold App.ui_bind at 1. unfold App.on_track_gen at 1.
    cbn [App.track_gen App.set_track_gen].
    rewrite generate_full_track_advance, Hnum. fold g. cbn zeta.
    unfold App.ui_bind at 1. unfold App.ui_eval at 1.
    unfold App.unzip_points.
    destruct (track_points g) as [|p0 points] eqn:Hpoints; [congruence|].
    rewrite <- Hpoints in *.
    rewrite (lookups_flagged fst g Hturn), (lookups_flagged snd g Hturn).
    rewrite Hmin_x, Hmax_x, Hmin_y, Hmax_y.
    unfold App.ui_bind, App.ui_eval, App.library_call, App.ui_set, append.
    cbn [App.calls App.set_calls App.track_gen App.set_track_gen
         App.module_stream App.seed_var App.length_var App.stop_live
         App.live_points_x App.live_points_y App.live_turns_x
         App.live_turns_y App.pending].
    unfold full_view_calls.
    repeat rewrite <- app_assoc. cbn [app]. reflexivity.
Qed.

End ApplicationProperties.

Section LiveView.

Context {G : Type} `{RS : Random.Source App.seed_value G}
  `{MF : math.Functions} `{PY : App.Builtins}.

(** The turn indices after a call: the call appended the index of the
    point it added, or none. *)
Lemma step_turn_indices_cases (s : TrackGenerator App.seed_value G) :
  turn_indices (step s) = turn_indices s \/
  turn_indices (step s) = turn_indices s ++ [len (track_points s)].
Proof.
  rewrite step_turn_indices.
  destruct (choose_direction_points s) as [Hpoints _].
  pose proof (choose_direction_turn_indices s) as Hturn. cbn zeta in Hturn.
  rewrite Hpoints in Hturn. exact Hturn.
Qed.

Lemma flagged_step_same (s : TrackGenerator App.seed_value G) :
  turn_inv s ->
  turn_indices (step s) = turn_indices s ->
  flagged (step s) = flagged s.
Proof.
  intros (_ & _ & Hvalid) Hsame. unfold flagged.
  rewrite Hsame, step_points. apply map_ext_in.
  intros i Hi. rewrite Forall_forall in Hvalid. specialize (Hvalid i Hi).
  apply app_nth1. unfold len in Hvalid. lia.
Qed.

Lemma flagged_step_new (s : TrackGenerator App.seed_value G) :
  turn_inv s ->
  turn_indices (step s) = turn_indices s ++ [len (track_points s)] ->
  flagged (step s) = flagged s ++ [current_position (step s)].
Proof.
  intros (_ & _ & Hvalid) Hnew. unfold flagged.
  rewrite Hnew, step_points, map_app. f_equal.
  - apply map_ext_in.
    intros i Hi. rewrite Forall_forall in Hvalid. specialize (Hvalid i Hi).
    apply app_nth1. unfold len in Hvalid. lia.
  - cbn [map]. f_equal. unfold len. rewrite Nat2Z.id.
    apply nth_middle.
Qed.

(** The test of [live_step] on the last turn index tells the two cases
    apart. *)
Lemma last_turn_index_test (s : TrackGenerator App.seed_value G) :
  turn_inv s ->
  let indices := turn_indices (step s) in
  let test := ((0 <? len indices)%Z &&
               (last indices 0%Z =? len (track_points s))%Z)%bool in
  (test = false /\ turn_indices (step s) = turn_indices s) \/
  (test = true /\
   turn_indices (step s) = turn_indices s ++ [len (track_points s)]).
Proof.
  intros (Hlen & _ & Hvalid). cbn zeta.
  destruct (step_turn_indices_cases s) as [Hsame|Hnew].
  - left. split; [|exact Hsame]. rewrite Hsame.
    destruct (turn_indices s) as [|i l] using rev_ind; [reflexivity|].
    rewrite last_last. apply Forall_app in Hvalid as [_ Hi].
    inversion Hi as [|? ? Hi' _]; subst.
    apply andb_false_iff. right. apply Z.eqb_neq. lia.
  - right. split; [|exact Hnew]. rewrite Hnew, last_last.
    apply andb_true_iff. split; [|apply Z.eqb_refl].
    apply Z.ltb_lt. unfold len. rewrite length_app. cbn. lia.
Qed.

(** A call of [live_step] past the target length does nothing. *)
Lemma live_step_finished (a : App.TrackApp G)
    (g : TrackGenerator App.seed_value G) (step_count : Z) :
  mirrors a g ->
  (num_points g <= step_count)%Z ->
  let a' := snd (App.live_step step_count a) in
  fst (App.live_step step_count a) = App.Done tt /\
  mirrors a' g /\
  App.calls a' = App.calls a /\
  App.pending a' = App.pending a.
Proof.
  intros (Hstop & Hgen & Hxs & Hys & Htx & Hty) Hcount. cbn zeta.
  destruct a as [ms sv lv sl tg lx ly tx ty cs pd].
  cbn in Hstop, Hgen, Hxs, Hys, Htx, Hty. subst.
  unfold App.live_step, App.ui_bind, App.ui_get, App.on_track_gen, gets,
    App.ui_ret.
  cbn [App.stop_live App.track_gen].
  assert (H : (num_points g <=? step_count)%Z = true) by (apply Z.leb_le; lia).
  rewrite H. cbn. unfold mirrors. cbn. split_all; reflexivity.
Qed.

Ltac ui_run :=
  cbn [App.stop_live App.track_gen App.set_track_gen
       App.module_stream App.seed_var App.length_var
       App.live_points_x App.live_points_y App.live_turns_x
       App.live_turns_y App.calls App.pending
       App.set_live_points_x App.set_live_points_y App.set_live_turns_x
       App.set_live_turns_y App.set_calls App.set_pending App.set_stop_live
       fst snd].

(** A call of [live_step] short of the target length advances the
    generator by one call and brings the live view up to date. *)
Lemma live_step_run (ms : G) (sv : String.string) (lv : option Z)
    (cs : list App.call) (pd : list Z)
    (g : TrackGenerator App.seed_value G) (step_count : Z) :
  turn_inv g ->
  (step_count < num_points g)%Z ->
  App.live_step step_count
    (App.mkTrackApp ms sv lv false (Some g)
       (map fst (track_points g)) (map snd (track_points g))
       (map fst (flagged g)) (map snd (flagged g)) cs pd)
  = (App.Done tt,
     App.mkTrackApp ms sv lv false (Some (step g))
       (map fst (track_points (step g))) (map snd (track_points (step g)))
       (map fst (flagged (step g))) (map snd (flagged (step g)))
       (cs ++ live_frame_calls (step g) step_count)
       (pd ++ [(step_count + 1)%Z])).
Proof.
  intros Hturn Hcount.
  assert (Hcmp : (num_points g <=? step_count)%Z = false)
    by (apply Z.leb_gt; lia).
  assert (Hnext : generate_next_point g = (tt, step g)).
  { unfold step. destruct (generate_next_point g) as [[] g']. reflexivity. }
  pose proof (last_turn_index_test g Hturn) as Htest. cbn zeta in Htest.
  unfold App.live_step, App.ui_bind, App.ui_get, App.ui_set, App.ui_ret,
    App.ui_eval, App.on_track_gen, App.library_call, App.ui_set, gets.
  ui_run. rewrite Hcmp. ui_run. rewrite Hnext. ui_run.
  destruct (current_position (step g)) as [x y] eqn:Hposition.
  ui_run.
  assert (Hlen : (len (append (map fst (track_points g)) x) - 1
                  = len (track_points g))%Z).
  { unfold len, append. rewrite length_app, length_map. cbn. lia. }
  assert (Hsame_case :
    turn_indices (step g) = turn_indices g ->
    flagged (step g) = flagged g /\
    live_frame_calls (step g) step_count
    = [App.ax_live_clear;
       App.ax_live_plot (map fst (track_points g) ++ [x])
         (map snd (track_points g) ++ [y])]
      ++ match map fst (flagged g) with
         | [] => []
         | _ :: _ =>
             [App.ax_live_scatter (map fst (flagged g))
                (map snd (flagged g))]
         end
      ++ [App.ax_live_set_xlim (x -! 70) (x +! 70);
          App.ax_live_set_ylim (y -! 70) (y +! 70);
          App.ax_live_set_title (Some (step_count + 1)%Z);
          App.ax_live_set_aspect; App.ax_live_grid; App.ax_live_legend;
          App.canvas_live_draw; App.after 40 (step_count + 1)%Z]).
  { intros Hsame. split; [now apply flagged_step_same|].
    unfold live_frame_calls. rewrite (flagged_step_same g Hturn Hsame).
    rewrite step_points, !map_app, Hposition. cbn [map fst snd].
    now destruct (flagged g). }
  assert (Hnew_case :
    turn_indices (step g) = turn_indices g ++ [len (track_points g)] ->
    flagged (step g) = flagged g ++ [(x, y)] /\
    live_frame_calls (step g) step_count
    = [App.ax_live_clear;
       App.ax_live_plot (map fst (track_points g) ++ [x])
         (map snd (track_points g) ++ [y])]
      ++ match map fst (flagged g) ++ [x] with
         | [] => []
         | _ :: _ =>
             [App.ax_live_scatter (map fst (flagged g) ++ [x])
                (map snd (flagged g) ++ [y])]
         end
      ++ [App.ax_live_set_xlim (x -! 70) (x +! 70);
          App.ax_live_set_ylim (y -! 70) (y +! 70);
          App.ax_live_set_title (Some (step_count + 1)%Z);
          App.ax_live_set_aspect; App.ax_live_grid; App.ax_live_legend;
          App.canvas_live_draw; App.after 40 (step_count + 1)%Z]).
  { intros Hnew. rewrite <- Hposition.
    split; [now apply flagged_step_new|].
    unfold live_frame_calls. rewrite (flagged_step_new g Hturn Hnew).
    rewrite step_points, !map_app, Hposition. cbn [map fst snd].
    now destruct (flagged g). }
  assert (Hvalue :
    forall b : bool,
      ((0 <? len (turn_indices (step g)))%Z &&
       (last (turn_indices (step g)) 0%Z =? len (track_points g))%Z)%bool
      = b ->
      (if b then turn_indices (step g) = turn_indices g ++ [len (track_points g)]
       else turn_indices (step g) = turn_indices g)).
  { intros b Hb. rewrite Hb in Htest.
    destruct Htest as [[Hfalse Hsame]|[Htrue Hnew]]; subst b; assumption. }
  clear Htest.
  destruct (0 <? len (turn_indices (step g)))%Z eqn:Hpositive;
    cbn [andb] in Hvalue.
  - apply Z.ltb_lt in Hpositive.
    rewrite (index_last _ 0%Z Hpositive). ui_run. rewrite Hlen.
    destruct (last (turn_indices (step g)) 0%Z =? len (track_points g))%Z;
      specialize (Hvalue _ eq_refl); cbv iota in Hvalue; ui_run.
    + destruct (Hnew_case Hvalue) as [-> ->].
      rewrite step_points, !map_app, Hposition. cbn [map fst snd].
      unfold append.
      destruct (flagged g) as [|p l]; cbn [map app]; ui_run;
        repeat rewrite <- app_assoc; reflexivity.
    + destruct (Hsame_case Hvalue) as [-> ->].
      rewrite step_points, !map_app, Hposition. cbn [map fst snd].
      unfold append.
      destruct (flagged g) as [|p l]; cbn [map app]; ui_run;
        repeat rewrite <- app_assoc; reflexivity.
  - specialize (Hvalue _ eq_refl). cbv iota in Hvalue. ui_run.
    destruct (Hsame_case Hvalue) as [-> ->].
    rewrite step_points, !map_app, Hposition. cbn [map fst snd].
      unfold append.
    destruct (flagged g) as [|p l]; cbn [map app]; ui_run;
      repeat rewrite <- app_assoc; reflexivity.
Qed.

Lemma live_step_generates (a : App.TrackApp G)
    (g : TrackGenerator App.seed_value G) (step_count : Z) :
  mirrors a g ->
  turn_inv g ->
  (step_count < num_points g)%Z ->
  let a' := snd (App.live_step step_count a) in
  fst (App.live_step step_count a) = App.Done tt /\
  mirrors a' (step g) /\
  App.calls a' = App.calls a ++ live_frame_calls (step g) step_count /\
  App.pending a' = App.pending a ++ [(step_count + 1)%Z].
Proof.
  intros (Hstop & Hgen & Hxs & Hys & Htx & Hty) Hturn Hcount. cbn zeta.
  destruct a as [ms sv lv sl tg lx ly tx ty cs pd].
  cbn in Hstop, Hgen, Hxs, Hys, Htx, Hty. subst.
  rewrite (live_step_run _ _ _ _ _ _ _ Hturn Hcount).
  unfold mirrors. cbn. split_all; reflexivity.
Qed.

(** One timer event on a live view that shows [g]. *)
Lemma run_callback_live (a : App.TrackApp G)
    (g : TrackGenerator App.seed_value G) (step_count : Z) (rest : list Z) :
  mirrors a g ->
  turn_inv g ->
  App.pending a = step_count :: rest ->
  let a' := App.run_callback a in
  if (step_count <? num_points g)%Z then
    mirrors a' (step g) /\
    App.calls a' = App.calls a ++ live_frame_calls (step g) step_count /\
    App.pending a' = rest ++ [(step_count + 1)%Z]
  else
    mirrors a' g /\ App.calls a' = App.calls a /\ App.pending a' = rest.
Proof.
  intros Hmirrors Hturn Hpending. cbn zeta.
  unfold App.run_callback. rewrite Hpending.
  assert (Hrest : mirrors (App.set_pending rest a) g).
  { destruct Hmirrors as (? & ? & ? & ? & ? & ?).
    unfold mirrors. cbn. split_all; assumption. }
  destruct (step_count <? num_points g)%Z eqn:Hcount.
  - apply Z.ltb_lt in Hcount.
    destruct (live_step_generates _ g step_count Hrest Hturn Hcount)
      as (_ & Hm & Hcalls & Hqueue).
    split_all; assumption.
  - apply Z.ltb_ge in Hcount.
    destruct (live_step_finished _ g step_count Hrest Hcount)
      as (_ & Hm & Hcalls & Hqueue).
    split_all; assumption.
Qed.

(** The handler [start_live_generation], when the length entry holds an
    integer. *)
Lemma start_live_generation_run (a : App.TrackApp G) (n : Z) :
  App.length_var a = Some n ->
  let g0 := __init__ (entered_seed a) 10 n in
  let k := if (0 <? n)%Z then 1%nat else 0%nat in
  let a' := snd (App.start_live_generation a) in
  fst (App.start_live_generation a) = App.Done tt /\
  mirrors a' (advance k g0) /\
  App.calls a' = App.calls a ++ live_view_calls g0 k /\
  App.pending a' = App.pending a ++ (if (0 <? n)%Z then [1%Z] else []).
Proof.
  intros Hlength. cbn zeta.
  set (g0 := __init__ (entered_seed a) 10 n).
  destruct (init_attributes (entered_seed a) 10 n)
    as (Hnum & Hpoints & Hindices). fold g0 in Hnum, Hpoints, Hindices.
  assert (Hflagged : flagged g0 = []).
  { unfold flagged. now rewrite Hindices. }
  set (a0 :=
    App.mkTrackApp (App.module_stream a) (App.seed_var a) (App.length_var a)
      false (Some g0) (map fst (track_points g0)) (map snd (track_points g0))
      (map fst (flagged g0)) (map snd (flagged g0))
      (App.calls a ++ [App.ax_live_clear; App.ax_live_set_title None;
                       App.ax_live_set_aspect; App.ax_live_grid])
      (App.pending a)).
  assert (Hrun : App.start_live_generation a
                 = App.try_except (App.live_step 0)
                     (App.library_call App.showerror) a0).
  { unfold App.start_live_generation.
    unfold App.ui_bind at 1. unfold App.ui_set at 1.
    unfold App.try_except.
    rewrite (ui_bind_done _ _ _ _ _ (read_seed_run _)).
    unfold App.read_length, App.create_track_gen, new. fold g0.
    unfold App.ui_bind, App.ui_get, App.ui_set, App.ui_ret,
      App.library_call, App.ui_set.
    ui_run. rewrite Hlength. ui_run. unfold append.
    repeat rewrite <- app_assoc. cbn [app].
    unfold a0. rewrite Hpoints, Hflagged. reflexivity. }
  rewrite Hrun. unfold App.try_except.
  assert (Hmirrors : mirrors a0 g0)
    by (unfold mirrors, a0; cbn; split_all; reflexivity).
  destruct (0 <? n)%Z eqn:Hn.
  - apply Z.ltb_lt in Hn.
    assert (Hcount : (0 < num_points g0)%Z) by lia.
    destruct (live_step_generates a0 g0 0 Hmirrors (turn_inv_init _ _ _)
                Hcount) as (Hdone & Hm & Hcalls & Hqueue).
    destruct (App.live_step 0 a0) as [o a1]. cbn [fst snd] in *.
    subst o. cbn [fst snd].
    assert (Hone : advance 1 g0 = step g0)
      by now rewrite advance_S, advance_0.
    split; [reflexivity|]. split; [now rewrite Hone|].
    rewrite Hcalls, Hqueue. split; [|reflexivity].
    unfold a0, live_view_calls. cbn [App.calls seq flat_map Z.of_nat].
    rewrite app_nil_r, <- app_assoc, Hone. reflexivity.
  - apply Z.ltb_ge in Hn.
    assert (Hcount : (num_points g0 <= 0)%Z) by lia.
    destruct (live_step_finished a0 g0 0 Hmirrors Hcount)
      as (Hdone & Hm & Hcalls & Hqueue).
    destruct (App.live_step 0 a0) as [o a1]. cbn [fst snd] in *.
    subst o. cbn [fst snd].
    split; [reflexivity|]. split; [exact Hm|].
    rewrite Hcalls, Hqueue. split.
    + unfold a0, live_view_calls. cbn [App.calls seq flat_map].
      now rewrite app_nil_r.
    + unfold a0. cbn [App.pending]. now rewrite app_nil_r.
Qed.

End LiveView.

(** * The application: theorems *)

Section ApplicationTheorems.

Context {G : Type} `{RS : Random.Source App.seed_value G}
  `{MF : math.Functions} `{PY : App.Builtins}.

(** X9.  The full view.  Whatever the seed text, when the length entry
    holds an integer [n] the handler [generate_full_track] raises nothing
    and shows no error: it leaves the generator after [max(n, 0)] steps,
    plots all its points, looks up every flagged index successfully and
    scatters exactly the flagged points, and sets limits of both axes
    that every point of the track lies within. *)
Theorem full_view_frames_track :
  forall (a : App.TrackApp G) (n : Z),
    App.length_var a = Some n ->
    let g := advance (Z.to_nat n) (__init__ (entered_seed a) 10 n) in
    let a' := snd (App.generate_full_track a) in
    exists lo_x hi_x lo_y hi_y : Q,
      fst (App.generate_full_track a) = App.Done tt /\
      App.track_gen a' = Some g /\
      App.calls a'
        = App.calls a
          ++ full_view_calls (entered_seed a) n g lo_x hi_x lo_y hi_y /\
      Forall (fun p => lo_x <= fst p /\ fst p <= hi_x /\
                       lo_y <= snd p /\ snd p <= hi_y)
        (track_points g).
Proof.
  intros a n Hlength. cbn zeta.
  destruct (generate_full_track_run a n Hlength)
    as (min_x & max_x & min_y & max_y & Hbounds & Hrun).
  exists (min_x -! 100), (max_x +! 100), (min_y -! 100), (max_y +! 100).
  rewrite Hrun. cbn [fst snd App.set_calls App.track_gen App.calls
                     App.set_track_gen].
  split; [reflexivity|]. split; [reflexivity|]. split; [reflexivity|].
  eapply Forall_impl; [|exact Hbounds]. cbv beta.
  intros p (H1 & H2 & H3 & H4).
  rewrite !psub_eq, !padd_eq. split_all; lra.
Qed.

Lemma run_callbacks_S (m : nat) (a : App.TrackApp G) :
  App.run_callbacks (S m) a = App.run_callback (App.run_callbacks m a).
Proof.
  revert a. induction m as [|m IH]; intros a; [reflexivity|].
  change (App.run_callbacks (S (S m)) a)
    with (App.run_callbacks (S m) (App.run_callback a)).
  now rewrite IH.
Qed.

Lemma live_view_calls_S (g0 : TrackGenerator App.seed_value G) (k : nat) :
  live_view_calls g0 (S k)
  = live_view_calls g0 k
    ++ live_frame_calls (advance (S k) g0) (Z.of_nat k).
Proof.
  unfold live_view_calls.
  rewrite seq_S, flat_map_app, <- app_assoc. cbn [flat_map Nat.add].
  now rewrite app_nil_r.
Qed.

(** X10.  The live view follows the generator.  When the length entry
    holds an integer [n] and no callback is scheduled,
    [start_live_generation] followed by [m] timer events leaves the
    generator after [min(m + 1, max(n, 0))] calls of
    [generate_next_point]; the four lists of the live view hold the
    coordinates of its points and of its flagged points; one frame was
    drawn per call, none of them an error box; and one callback is
    scheduled as long as fewer than [n] timer events have run. *)
Theorem live_view_follows_generator :
  forall (a : App.TrackApp G) (n : Z) (m : nat),
    App.length_var a = Some n ->
    App.pending a = [] ->
    let g0 := __init__ (entered_seed a) 10 n in
    let k := Nat.min (S m) (Z.to_nat n) in
    let a' := App.run_callbacks m (snd (App.start_live_generation a)) in
    mirrors a' (advance k g0) /\
    App.calls a' = App.calls a ++ live_view_calls g0 k /\
    App.pending a'
      = (if (Z.of_nat m <? n)%Z then [Z.of_nat (S m)] else []).
Proof.
  intros a n m Hlength Hqueue. cbn zeta.
  set (g0 := __init__ (entered_seed a) 10 n).
  induction m as [|m IH].
  - destruct (start_live_generation_run a n Hlength)
      as (_ & Hm & Hcalls & Hpending).
    fold g0 in Hm, Hcalls. rewrite Hqueue in Hpending.
    cbn [App.run_callbacks Z.of_nat].
    destruct (0 <? n)%Z eqn:Hn.
    + apply Z.ltb_lt in Hn.
      replace (Nat.min 1 (Z.to_nat n)) with 1%nat by lia.
      split_all; assumption.
    + apply Z.ltb_ge in Hn.
      replace (Nat.min 1 (Z.to_nat n)) with 0%nat by lia.
      split_all; assumption.
  - rewrite run_callbacks_S.
    destruct IH as (Hm & Hcalls & Hpending).
    set (a1 := App.run_callbacks m (snd (App.start_live_generation a))) in *.
    assert (Hnum : num_points (advance (Nat.min (S m) (Z.to_nat n)) g0) = n).
    { rewrite advance_num_points.
      apply (init_attributes (entered_seed a) 10 n). }
    destruct (Z.of_nat m <? n)%Z eqn:Hlt.
    + apply Z.ltb_lt in Hlt.
      pose proof (run_callback_live a1 _ _ _ Hm
                    (turn_inv_advance _ _ _ _) Hpending) as Hstep.
      cbn zeta in Hstep. rewrite Hnum in Hstep.
      replace (Nat.min (S m) (Z.to_nat n)) with (S m) in * by lia.
      destruct (Z.of_nat (S m) <? n)%Z eqn:Hnext.
      * apply Z.ltb_lt in Hnext.
        destruct Hstep as (Hm' & Hcalls' & Hpending').
        replace (Nat.min (S (S m)) (Z.to_nat n)) with (S (S m)) by lia.
        rewrite advance_S. split; [exact Hm'|].
        rewrite (live_view_calls_S g0 (S m)), (advance_S (S m)), Hcalls',
          Hcalls, <- app_assoc.
        split; [reflexivity|].
        rewrite Hpending'. cbn [app]. f_equal. lia.
      * apply Z.ltb_ge in Hnext.
        destruct Hstep as (Hm' & Hcalls' & Hpending').
        replace (Nat.min (S (S m)) (Z.to_nat n)) with (S m) by lia.
        split; [exact Hm'|]. split; [congruence|exact Hpending'].
    + apply Z.ltb_ge in Hlt.
      assert (Hidle : App.run_callback a1 = a1).
      { unfold App.run_callback. now rewrite Hpending. }
      rewrite Hidle.
      assert (Hnext : (Z.of_nat (S m) <? n)%Z = false)
        by (apply Z.ltb_ge; lia).
      rewrite Hnext.
      replace (Nat.min (S (S m)) (Z.to_nat n))
        with (Nat.min (S m) (Z.to_nat n)) by lia.
      split_all; assumption.
Qed.

Lemma calls_left_app (n : Z) (queue queue' : list Z) :
  calls_left n (queue ++ queue')
  = (calls_left n queue + calls_left n queue')%nat.
Proof. unfold calls_left. now rewrite map_app, list_sum_app. Qed.

Lemma calls_left_nil (n : Z) : calls_left n [] = 0%nat.
Proof. reflexivity. Qed.

Lemma calls_left_cons (n c : Z) (queue : list Z) :
  calls_left n (c :: queue) = (Z.to_nat (n - c) + calls_left n queue)%nat.
Proof. reflexivity. Qed.

(** The timer events run the scheduled callbacks dry: each callback
    chain makes the calls of [generate_next_point] it has left. *)
Lemma run_callbacks_drain (g0 : TrackGenerator App.seed_value G) :
  turn_inv g0 ->
  forall (m : nat) (a : App.TrackApp G) (k : nat),
    mirrors a (advance k g0) ->
    (calls_left (num_points g0) (App.pending a) + length (App.pending a)
     <= m)%nat ->
    mirrors (App.run_callbacks m a)
      (advance (k + calls_left (num_points g0) (App.pending a)) g0) /\
    App.pending (App.run_callbacks m a) = [].
Proof.
  intros Hturn0.
  assert (Hturn : forall k, turn_inv (advance k g0)).
  { intros k. apply advance_invariant; [exact Hturn0|apply turn_inv_step]. }
  induction m as [|m IH]; intros a k Hm Hmeasure.
  - destruct (App.pending a) as [|c rest] eqn:Hpending;
      [|cbn [length] in Hmeasure; lia].
    cbn [App.run_callbacks]. rewrite calls_left_nil, Nat.add_0_r.
    split; [exact Hm|exact Hpending].
  - cbn [App.run_callbacks].
    destruct (App.pending a) as [|c rest] eqn:Hpending.
    + assert (Hidle : App.run_callback a = a).
      { unfold App.run_callback. now rewrite Hpending. }
      rewrite Hidle.
      specialize (IH a k Hm). rewrite Hpending in IH.
      apply IH. rewrite calls_left_nil. cbn [length]. lia.
    + pose proof (run_callback_live a _ c rest Hm (Hturn k) Hpending)
        as Hstep.
      cbn zeta in Hstep. rewrite advance_num_points in Hstep.
      rewrite calls_left_cons in *. cbn [length] in Hmeasure.
      destruct (c <? num_points g0)%Z eqn:Hcount.
      * apply Z.ltb_lt in Hcount.
        destruct Hstep as (Hm' & _ & Hpending').
        rewrite <- advance_S in Hm'.
        specialize (IH _ _ Hm'). rewrite Hpending' in IH.
        rewrite calls_left_app, calls_left_cons, calls_left_nil, length_app
          in IH.
        cbn [length] in IH.
        replace (k + (Z.to_nat (num_points g0 - c)
                      + calls_left (num_points g0) rest))%nat
          with (S k + (calls_left (num_points g0) rest
                       + (Z.to_nat (num_points g0 - (c + 1)) + 0)))%nat
          by lia.
        apply IH. lia.
      * apply Z.ltb_ge in Hcount.
        destruct Hstep as (Hm' & _ & Hpending').
        specialize (IH _ _ Hm'). rewrite Hpending' in IH.
        replace (Z.to_nat (num_points g0 - c)) with 0%nat in * by lia.
        apply IH. lia.
Qed.

(** X11.  Callback chains are never cancelled.  [start_live_generation]
    leaves the callbacks that are already scheduled in place, and they go
    on to call [generate_next_point] on the new generator.  With [n] in
    the length entry, and whatever is scheduled, once the timer events
    have run all callbacks dry the new generator has made
    [max(n, 0)] calls plus [max(n - c, 0)] calls for every callback
    [live_step(c)] that was scheduled before: the live view shows that
    generator, which then holds more points than asked for as soon as one
    older callback had [c < n]. *)
Theorem live_chains_share_generator :
  forall (a : App.TrackApp G) (n : Z) (m : nat),
    App.length_var a = Some n ->
    let g0 := __init__ (entered_seed a) 10 n in
    let total := (Z.to_nat n + calls_left n (App.pending a))%nat in
    (total + length (App.pending a) <= m)%nat ->
    let a' := App.run_callbacks m (snd (App.start_live_generation a)) in
    mirrors a' (advance total g0) /\
    length (track_points (advance total g0)) = S total /\
    App.pending a' = [].
Proof.
  intros a n m Hlength. cbn zeta. intros Hm.
  set (g0 := __init__ (entered_seed a) 10 n) in *.
  destruct (init_attributes (entered_seed a) 10 n) as (Hnum & Hpoints & _).
  fold g0 in Hnum, Hpoints.
  destruct (start_live_generation_run a n Hlength)
    as (_ & Hmirrors & _ & Hpending).
  fold g0 in Hmirrors.
  set (a0 := snd (App.start_live_generation a)) in *.
  pose proof (run_callbacks_drain g0 (turn_inv_init _ _ _) m a0 _ Hmirrors)
    as Hdrain.
  rewrite Hnum, Hpending, calls_left_app, length_app in Hdrain.
  split; [|split].
  - destruct (0 <? n)%Z eqn:Hn.
    + apply Z.ltb_lt in Hn.
      rewrite calls_left_cons, calls_left_nil in Hdrain.
      cbn [length] in Hdrain.
      replace (1 + (calls_left n (App.pending a) + (Z.to_nat (n - 1) + 0)))%nat
        with (Z.to_nat n + calls_left n (App.pending a))%nat in Hdrain
        by lia.
      apply Hdrain. lia.
    + apply Z.ltb_ge in Hn. rewrite calls_left_nil in Hdrain.
      cbn [length] in Hdrain.
      replace (0 + (calls_left n (App.pending a) + 0))%nat
        with (Z.to_nat n + calls_left n (App.pending a))%nat in Hdrain
        by lia.
      apply Hdrain. lia.
  - rewrite advance_points_length, Hpoints. cbn [length]. lia.
  - apply Hdrain.
    destruct (0 <? n)%Z eqn:Hn;
      rewrite ?calls_left_cons, ?calls_left_nil; cbn [length].
    + apply Z.ltb_lt in Hn. lia.
    + lia.
Qed.

(** X12.  Once its callbacks have run dry, a live generation started with
    no callback scheduled shows the track of the full view: for the same
    entries the two handlers leave the same generator, and the lists of
    the live view are the ones that [generate_full_track] plots and
    scatters. *)
Theorem finished_live_view_shows_full_track :
  forall (a : App.TrackApp G) (n : Z) (m : nat),
    App.length_var a = Some n ->
    App.pending a = [] ->
    (n <= Z.of_nat m)%Z ->
    let live := App.run_callbacks m (snd (App.start_live_generation a)) in
    let full := snd (App.generate_full_track a) in
    App.track_gen live = App.track_gen full /\
    In (App.ax_full_plot (App.live_points_x live) (App.live_points_y live))
      (App.calls full) /\
    In (App.ax_full_scatter (App.live_turns_x live) (App.live_turns_y live))
      (App.calls full) /\
    App.pending live = [].
Proof.
  intros a n m Hlength Hqueue Hm. cbn zeta.
  destruct (generate_full_track_run a n Hlength)
    as (min_x & max_x & min_y & max_y & _ & Hrun).
  rewrite Hrun. cbn [snd App.set_calls App.track_gen App.calls
                     App.set_track_gen].
  set (g0 := __init__ (entered_seed a) 10 n) in *.
  destruct (init_attributes (entered_seed a) 10 n) as (Hnum & _).
  fold g0 in Hnum.
  destruct (start_live_generation_run a n Hlength)
    as (_ & Hmirrors & _ & Hpending).
  fold g0 in Hmirrors. rewrite Hqueue in Hpending. cbn [app] in Hpending.
  set (a0 := snd (App.start_live_generation a)) in *.
  pose proof (run_callbacks_drain g0 (turn_inv_init _ _ _) m a0 _ Hmirrors)
    as Hdrain.
  rewrite Hnum, Hpending in Hdrain.
  assert (Htotal : ((if (0 <? n)%Z then 1 else 0)
                    + calls_left n (if (0 <? n)%Z then [1%Z] else []))%nat
                   = Z.to_nat n).
  { destruct (0 <? n)%Z eqn:Hn;
      rewrite ?calls_left_cons, ?calls_left_nil.
    - apply Z.ltb_lt in Hn. lia.
    - apply Z.ltb_ge in Hn. lia. }
  rewrite Htotal in Hdrain.
  destruct Hdrain as ((_ & Hgen & Hxs & Hys & Htx & Hty) & Hempty).
  { destruct (0 <? n)%Z eqn:Hn;
      rewrite ?calls_left_cons, ?calls_left_nil; cbn [length].
    - apply Z.ltb_lt in Hn. lia.
    - lia. }
  rewrite Hgen, Hxs, Hys, Htx, Hty.
  split; [reflexivity|]. split; [|split; [|exact Hempty]].
  - apply in_or_app. right. unfold full_view_calls. cbn. auto.
  - apply in_or_app. right. unfold full_view_calls. cbn. auto.
Qed.

(** X13.  The button Random Seed.  [generate_random_seed] draws from the
    module-level stream only: it puts into the seed entry the text of an
    integer between 0 and 999999999, which both handlers then read back
    as that integer, never as a string; the generator, the live view and
    the drawings are left as they are. *)
Theorem random_seed_is_read_back_as_integer :
  forall a : App.TrackApp G,
    let drawn := Random.randint 0 999999999 (App.module_stream a) in
    let a' := snd (App.generate_random_seed a) in
    fst (App.generate_random_seed a) = App.Done tt /\
    (0 <= fst drawn <= 999999999)%Z /\
    App.module_stream a' = snd drawn /\
    App.seed_var a' = App.str (fst drawn) /\
    fst (App.read_seed a') = App.Done (App.IntSeed (fst drawn)) /\
    App.track_gen a' = App.track_gen a /\
    App.live_points_x a' = App.live_points_x a /\
    App.live_points_y a' = App.live_points_y a /\
    App.live_turns_x a' = App.live_turns_x a /\
    App.live_turns_y a' = App.live_turns_y a /\
    App.calls a' = App.calls a /\
    App.pending a' = App.pending a.
Proof.
  intros a. cbn zeta.
  pose proof (Random.randint_range 0 999999999 (App.module_stream a)) as Hr.
  unfold App.generate_random_seed, App.ui_bind, App.ui_get, App.ui_set.
  destruct (Random.randint 0 999999999 (App.module_stream a))
    as [r stream'] eqn:Hdraw.
  cbn [fst snd] in *.
  split; [reflexivity|]. split; [apply Hr; lia|].
  split; [reflexivity|]. split; [reflexivity|].
  split; [|split_all; reflexivity].
  rewrite read_seed_run. cbn [fst]. unfold entered_seed.
  cbn [App.seed_var App.set_seed_var App.set_module_stream].
  rewrite App.int_str; [reflexivity|].
  apply Z.lt_le_trans with (10 ^ 9)%Z; [lia|].
  apply Z.pow_le_mono_r; lia.
Qed.

(** X14.  A length entry that does not hold an integer.  Both handlers
    then catch the error that reading the entry raises and show one
    error box: nothing is raised to the caller, no generator is built,
    nothing is drawn, and the generator, the lists of the live view and
    the scheduled callbacks are left as they were. *)
Theorem unreadable_length_shows_error :
  forall a : App.TrackApp G,
    App.length_var a = None ->
    let full := App.generate_full_track a in
    let live := App.start_live_generation a in
    fst full = App.Done tt /\
    App.calls (snd full) = App.calls a ++ [App.showerror] /\
    App.track_gen (snd full) = App.track_gen a /\
    fst live = App.Done tt /\
    App.calls (snd live) = App.calls a ++ [App.showerror] /\
    App.track_gen (snd live) = App.track_gen a /\
    App.live_points_x (snd live) = App.live_points_x a /\
    App.live_points_y (snd live) = App.live_points_y a /\
    App.live_turns_x (snd live) = App.live_turns_x a /\
    App.live_turns_y (snd live) = App.live_turns_y a /\
    App.pending (snd live) = App.pending a /\
    App.stop_live (snd live) = false.
Proof.
  intros a Hlength. cbn zeta.
  assert (Hfull : App.generate_full_track a
                  = (App.Done tt,
                     App.set_calls (App.calls a ++ [App.showerror]) a)).
  { unfold App.generate_full_track, App.try_except.
    rewrite (ui_bind_done _ _ _ _ _ (read_seed_run a)).
    unfold App.read_length.
    unfold App.ui_bind at 1. unfold App.ui_bind at 1.
    unfold App.ui_get at 1. rewrite Hlength. unfold App.ui_eval at 1.
    reflexivity. }
  assert (Hlive : App.start_live_generation a
                  = (App.Done tt,
                     App.set_calls (App.calls a ++ [App.showerror])
                       (App.set_stop_live false a))).
  { unfold App.start_live_generation.
    unfold App.ui_bind at 1. unfold App.ui_set at 1.
    unfold App.try_except.
    rewrite (ui_bind_done _ _ _ _ _ (read_seed_run _)).
    unfold App.read_length.
    unfold App.ui_bind at 1. unfold App.ui_bind at 1.
    unfold App.ui_get at 1.
    cbn [App.length_var App.set_stop_live]. rewrite Hlength.
    unfold App.ui_eval at 1. reflexivity. }
  rewrite Hfull, Hlive. cbn. split_all; reflexivity.
Qed.

End ApplicationTheorems.

(** * Concrete runs of the further properties *)

(** X5, at seed 2, for the 61st call, made during the big turn that the
    51st call started. *)
Lemma big_turn_step_witness :
  let s := advance 60 (generator 2) in
  turning s = true /\
  (0 <= turn_steps_remaining s <= 30)%Z /\
  Qabs (target_direction_angle s) <= 120 /\
  (30 <= steps_until_next_turn s)%Z /\
  random (step s) = random s /\
  turn_indices (step s) = turn_indices s /\
  steps_until_next_turn (step s) = steps_until_next_turn s /\
  turn_angle_increment (step s) = turn_angle_increment s /\
  (turning (step s) = true ->
   (0 < turn_steps_remaining s)%Z /\
   turn_steps_remaining (step s) = (turn_steps_remaining s - 1)%Z /\
   current_direction_angle (step s)
     = normalize_angle
         (current_direction_angle s +! turn_angle_increment s) /\
   target_direction_angle (step s) = target_direction_angle s) /\
  (turning (step s) = false ->
   turn_steps_remaining (step s) = 0%Z /\
   current_direction_angle (step s) = current_direction_angle s) /\
  (turn_steps_remaining s = 0%Z ->
   turning (step s) = false /\
   target_direction_angle (step s) = current_direction_angle s).
Proof.
  unfold generator. cbv zeta.
  assert (Hon : turning (advance 60 (__init__ 2%Z default_step_length
                                       default_num_points)) = true)
    by (vm_compute; reflexivity).
  split; [exact Hon|].
  exact (big_turn_step (Seed := Z) (G := MersenneTwister.state)
           2%Z default_step_length default_num_points 60 Hon).
Defined.

(** X6, at seed 2, from the 60th call on: 17 steps remain. *)
Lemma big_turn_ends_in_time_witness :
  let s := advance 60 (generator 2) in
  let r := Z.to_nat (turn_steps_remaining s) in
  turning s = true /\
  turning (advance (S r) s) = false /\
  (forall j : nat,
     (j <= S r)%nat ->
     turn_indices (advance j s) = turn_indices s /\
     (turning (advance j s) = true ->
      turn_steps_remaining (advance j s)
        = (turn_steps_remaining s - Z.of_nat j)%Z /\
      random (advance j s) = random s)).
Proof.
  unfold generator. cbv zeta.
  assert (Hon : turning (advance 60 (__init__ 2%Z default_step_length
                                       default_num_points)) = true)
    by (vm_compute; reflexivity).
  split; [exact Hon|].
  exact (big_turn_ends_in_time (Seed := Z) (G := MersenneTwister.state)
           2%Z default_step_length default_num_points 60 Hon).
Defined.

(** X9, for the application as it starts: seed text 12345, length
    1000. *)
Lemma full_view_frames_track_witness :
  App.length_var (application 7) = Some 1000%Z /\
  (let a := application 7 in
   let g := advance (Z.to_nat 1000) (__init__ (entered_seed a) 10 1000%Z) in
   let a' := snd (App.generate_full_track a) in
   exists lo_x hi_x lo_y hi_y : Q,
     fst (App.generate_full_track a) = App.Done tt /\
     App.track_gen a' = Some g /\
     App.calls a'
       = App.calls a
         ++ full_view_calls (entered_seed a) 1000%Z g lo_x hi_x lo_y hi_y /\
     Forall (fun p => lo_x <= fst p /\ fst p <= hi_x /\
                      lo_y <= snd p /\ snd p <= hi_y)
       (track_points g)).
Proof.
  split; [reflexivity|].
  pose proof (full_view_frames_track (application 7) 1000%Z eq_refl) as H.
  exact H.
Defined.

(** X10, for the application as it starts, after 40 timer events. *)
Lemma live_view_follows_generator_witness :
  App.length_var (application 7) = Some 1000%Z /\
  App.pending (application 7) = [] /\
  (let a := application 7 in
   let g0 := __init__ (entered_seed a) 10 1000%Z in
   let k := Nat.min 41 (Z.to_nat 1000) in
   let a' := App.run_callbacks 40 (snd (App.start_live_generation a)) in
   mirrors a' (advance k g0) /\
   App.calls a' = App.calls a ++ live_view_calls g0 k /\
   App.pending a'
     = (if (Z.of_nat 40 <? 1000)%Z then [Z.of_nat 41] else [])).
Proof.
  split; [reflexivity|]. split; [reflexivity|].
  pose proof (live_view_follows_generator (application 7) 1000%Z 40
           eq_refl eq_refl) as H.
  exact H.
Defined.

(** X11: a live generation of length 10 is started while the callback
    [live_step(5)] of an earlier one is scheduled.  After 17 timer events
    the generator has made 15 calls and holds 16 points. *)
Lemma live_chains_share_generator_witness :
  App.length_var (application_with 7 10 [5%Z]) = Some 10%Z /\
  (Z.to_nat 10 + calls_left 10 [5%Z] + length [5%Z] <= 17)%nat /\
  (let a := application_with 7 10 [5%Z] in
   let g0 := __init__ (entered_seed a) 10 10%Z in
   let a' := App.run_callbacks 17 (snd (App.start_live_generation a)) in
   mirrors a' (advance 15 g0) /\
   length (track_points (advance 15 g0)) = 16%nat /\
   App.pending a' = []).
Proof.
  assert (Hm : (Z.to_nat 10 + calls_left 10 [5%Z] + length [5%Z] <= 17)%nat)
    by (vm_compute; lia).
  split; [reflexivity|]. split; [exact Hm|].
  pose proof (live_chains_share_generator (application_with 7 10 [5%Z]) 10%Z 17
           eq_refl Hm) as H.
  exact H.
Defined.

(** X12, for a live generation of length 10 after 10 timer events. *)
Lemma finished_live_view_shows_full_track_witness :
  App.length_var (application_with 7 10 []) = Some 10%Z /\
  App.pending (application_with 7 10 []) = [] /\
  (10 <= Z.of_nat 10)%Z /\
  (let a := application_with 7 10 [] in
   let live := App.run_callbacks 10 (snd (App.start_live_generation a)) in
   let full := snd (App.generate_full_track a) in
   App.track_gen live = App.track_gen full /\
   In (App.ax_full_plot (App.live_points_x live) (App.live_points_y live))
     (App.calls full) /\
   In (App.ax_full_scatter (App.live_turns_x live) (App.live_turns_y live))
     (App.calls full) /\
   App.pending live = []).
Proof.
  assert (Hm : (10 <= Z.of_nat 10)%Z) by (cbn; lia).
  split; [reflexivity|]. split; [reflexivity|]. split; [exact Hm|].
  pose proof (finished_live_view_shows_full_track (application_with 7 10 []) 10%Z
           10 eq_refl eq_refl Hm) as H.
  exact H.
Defined.

(** X14, for the application with an empty length entry. *)
Lemma unreadable_length_shows_error_witness :
  App.length_var (App.mkTrackApp (MersenneTwister.seed 7) "12345"%string
                    None false None [] [] [] [] [] []) = None /\
  (let a := App.mkTrackApp (MersenneTwister.seed 7) "12345"%string
              None false None [] [] [] [] [] [] in
   let full := App.generate_full_track a in
   let live := App.start_live_generation a in
   fst full = App.Done tt /\
   App.calls (snd full) = App.calls a ++ [App.showerror] /\
   App.track_gen (snd full) = App.track_gen a /\
   fst live = App.Done tt /\
   App.calls (snd live) = App.calls a ++ [App.showerror] /\
   App.track_gen (snd live) = App.track_gen a /\
   App.live_points_x (snd live) = App.live_points_x a /\
   App.live_points_y (snd live) = App.live_points_y a /\
   App.live_turns_x (snd live) = App.live_turns_x a /\
   App.live_turns_y (snd live) = App.live_turns_y a /\
   App.pending (snd live) = App.pending a /\
   App.stop_live (snd live) = false).
Proof.
  split; [reflexivity|].
  pose proof (unreadable_length_shows_error
                (App.mkTrackApp (MersenneTwister.seed 7) "12345"%string
                   None false None [] [] [] [] [] []) eq_refl) as H.
  exact H.
Defined.

(** ** The string seeds and the builtins, against CPython *)

(** The digest of [abc], and the first countdown that CPython draws
    for three string seeds. *)
Example sha512_abc :
  Sha512.from_bytes (Sha512.digest (encode "abc"%string))
  = 0xddaf35a193617abacc417349ae20413112e6fa4e89a97ea20a9eeee64b55d39a2192992a274fc1a836ba3c23a3feebbd454d4423643ce80e2a9ac94fa54ca49f%Z.
Proof. vm_compute. reflexivity. Qed.

Example seed_with_text_track :
  fst (MersenneTwister.randint 20 50 (seed_with_text "track"%string))
    = 43%Z /\
  fst (MersenneTwister.randint 20 50 (seed_with_text String.EmptyString))
    = 50%Z /\
  fst (MersenneTwister.randint 20 50 (seed_with_text "abc"%string)) = 44%Z.
Proof. split_all; vm_compute; reflexivity. Qed.

(** [int] and [str] on some texts. *)
Example int_examples :
  builtins.int " 12 "%string = Some 12%Z /\
  builtins.int "-007"%string = Some (-7)%Z /\
  builtins.int "+1_000"%string = Some 1000%Z /\
  builtins.int "1__2"%string = None /\
  builtins.int "12_"%string = None /\
  builtins.int "- 12"%string = None /\
  builtins.int "12a"%string = None /\
  builtins.int "-"%string = None /\
  builtins.int String.EmptyString = None /\
  builtins.str (-120)%Z = "-120"%string /\
  builtins.str 0%Z = "0"%string /\
  builtins.str 999999999%Z = "999999999"%string.
Proof. split_all; vm_compute; reflexivity. Qed.
